(** * onnxruntime: graph rewrite rules, session validation and two CPU kernels

    A shallow embedding of the parts of the runtime that the specification
    talks about:

    - [ReverseSequence]: the contrib kernel [ReverseSequence::ComputeImpl];
    - [EyeLike]: the CPU kernel [EyeLike::ComputeImpl];
    - [GraphModel], [SliceElimination], [IdentityElimination], [ConvFusion]:
    the rewrite rules of [core/graph];
    - [TransformerManager]: the fixed-point driver of the rewriter;
    - [Session]: [InferenceSession::Impl::Load] and [Run] with its validation.

    Tensors are flat row-major buffers ([list]) with a list of dimensions,
    64-bit integers are [Z], strings are [string], name-keyed tables are
    [gmap string _]. *)

From Stdlib Require Import ZArith Lia.
From Stdlib Require Floats Uint63.
From stdpp Require Import base list gmap strings pretty.

(** ** Status values ([core/common/status.h]) *)

Inductive StatusCode :=
| OK | FAIL | INVALID_ARGUMENT | NO_SUCHFILE | NO_MODEL | ENGINE_ERROR
| RUNTIME_EXCEPTION | INVALID_PROTOBUF | MODEL_LOADED | NOT_IMPLEMENTED.

#[global] Instance StatusCode_eq_dec : EqDecision StatusCode.
Proof. solve_decision. Defined.

Record Status := mkStatus { Code : StatusCode; ErrorMessage : string }.

#[global] Instance Status_eq_dec : EqDecision Status.
Proof. solve_decision. Defined.

Definition Status_OK : Status := mkStatus OK "".

Definition IsOK (s : Status) : bool := bool_decide (Code s = OK).

Definition INT64_MAX : Z := 9223372036854775807.
Definition INT64_MIN : Z := -9223372036854775808.
Definition is_int64 (z : Z) : Prop := (INT64_MIN ≤ z ≤ INT64_MAX)%Z.

(** Outcome of a kernel body: a value, or the exception thrown by a failed
    [ONNXRUNTIME_ENFORCE]. *)
Inductive Outcome (A : Type) :=
| Returned (a : A)
| EnforceFailed (what : string).
Arguments Returned {A} a.
Arguments EnforceFailed {A} what.

(** ** ReverseSequence ([contrib_ops/cpu/reverse_sequence.cc], complete version) *)

Module ReverseSequence.
Section Kernel.
Context {TData : Type}.
Local Open Scope Z_scope.

(** [x[i]] of the input buffer; [None] stands for a read outside it. *)
Definition read (x : list TData) (i : Z) : option TData :=
  if decide (0 ≤ i) then x !! Z.to_nat i else None.

(** [y[i] = v] on the output buffer, whose cells start out unwritten ([None]). *)
Definition write (y : list (option TData)) (i : Z) (v : option TData)
  : list (option TData) :=
  if decide (0 ≤ i) then <[Z.to_nat i := v]> y else y.

(** [EigenVectorMap(y + dst, width) = ConstEigenVectorMap(x + src, width)] *)
Definition assign_vec (x : list TData) (y : list (option TData))
    (src dst width : Z) : list (option TData) :=
  foldl (λ y c, write y (dst + c) (read x (src + c))) y (seqZ 0 width).

(** [EigenMatrixMapRowMajor(y + dst, rows, width) =
     ConstEigenMatrixMapRowMajor(x + src, rows, width).colwise().reverse()]:
    every column is reversed, so row [r] of the destination is row
    [rows - 1 - r] of the source. *)
Definition assign_colwise_reverse (x : list TData) (y : list (option TData))
    (src dst rows width : Z) : list (option TData) :=
  foldl (λ y r, assign_vec x y (src + (rows - 1 - r) * width) (dst + r * width) width)
        y (seqZ 0 rows).

(** The merged sizes [s = {h, m, t}], [meet] and [merged_batch_size] after
    the loop over the dimensions. *)
Record Merged := mkMerged { s : list Z; meet : nat; merged_batch_size : Z }.

Definition merge_step (batch_axis seq_axis : Z) (st : Merged) (id : Z * Z) : Merged :=
  let '(i, d) := id in
  if decide (i = batch_axis) then
    mkMerged (s st) (S (meet st)) (merged_batch_size st * (s st !!! meet st))
  else if decide (i = seq_axis) then
    mkMerged (s st) (S (meet st)) (merged_batch_size st)
  else
    mkMerged (alter (Z.mul d) (meet st) (s st)) (meet st) (merged_batch_size st).

Definition merge_dims (batch_axis seq_axis batch_size : Z) (dims : list Z) : Merged :=
  foldl (merge_step batch_axis seq_axis) (mkMerged [1; 1; 1] 0%nat batch_size)
        (zip (seqZ 0 (Z.of_nat (length dims))) dims).

(** One round of the first loop of the [else] branch: the vector at
    [offset] goes to row [seq_len - seq - 1], and [offset] advances. *)
Definition strided_reverse_step (x : list TData) (pre_seq_pos seq_strides seq_len width : Z)
    (st : list (option TData) * Z) (seq : Z) : list (option TData) * Z :=
  let '(y, offset) := st in
  (assign_vec x y offset (pre_seq_pos + seq_strides * (seq_len - seq - 1)) width,
   offset + seq_strides).

(** One round of the second loop: the vector at [offset] is copied in place. *)
Definition strided_copy_step (x : list TData) (seq_strides width : Z)
    (st : list (option TData) * Z) (seq : Z) : list (option TData) * Z :=
  let '(y, offset) := st in
  (assign_vec x y offset offset width, offset + seq_strides).

(** Body of the [else] branch ([seq_axis < batch_axis]) for one [pre]. *)
Definition reverse_strided (x : list TData) (y : list (option TData))
    (pre_seq_pos seq_strides seq_len seq_size width : Z) : list (option TData) :=
  fst (foldl (strided_copy_step x seq_strides width)
             (foldl (strided_reverse_step x pre_seq_pos seq_strides seq_len width)
                    (y, pre_seq_pos) (seqZ 0 seq_len))
             (seqZ seq_len (seq_size - seq_len))).

(** Body of the [batch_axis < seq_axis] branch for one [pre]. *)
Definition reverse_consecutive (x : list TData) (y : list (option TData))
    (pre_seq_pos seq_strides seq_len seq_size width : Z) : list (option TData) :=
  let y1 := assign_colwise_reverse x y pre_seq_pos pre_seq_pos seq_len width in
  assign_colwise_reverse x y1 (pre_seq_pos + seq_strides * seq_len)
                         (pre_seq_pos + seq_strides * seq_len)
                         (seq_size - seq_len) width.

Definition Size (dims : list Z) : Z := foldr Z.mul 1 dims.

(** [ReverseSequence::ComputeImpl<TData, TIndex>].  [batch_axis] and
    [seq_axis] are the attributes (the constructor enforces that both are
    non-negative and different); [dims]/[x] are input 0 and
    [sl_dims]/[seq_lengths_value] input 1. *)
Definition ComputeImpl (batch_axis seq_axis : Z) (dims : list Z) (x : list TData)
    (sl_dims : list Z) (seq_lengths_value : list Z)
  : Outcome (Status * list (option TData)) :=
  let num_dims := Z.of_nat (length dims) in
  if negb (bool_decide (seq_axis < num_dims)) then
    EnforceFailed "Input number of dims should greater than seq_axis"
  else if negb (bool_decide (batch_axis < num_dims)) then
    EnforceFailed "Input number of dims should greater than batch_axis_"
  else
  let batch_size := dims !!! Z.to_nat batch_axis in
  let seq_size := dims !!! Z.to_nat seq_axis in
  let seq_lengths_ndims := Z.of_nat (length sl_dims) in
  if negb (bool_decide (seq_lengths_ndims = 0 ∨ seq_lengths_ndims = 1)) then
    EnforceFailed "seq_lengths must be 0-D or 1-D tensor"
  else
  let seq_lengths_size := Size sl_dims in
  if negb (bool_decide (seq_lengths_size = batch_size ∨ seq_lengths_size = 1)) then
    EnforceFailed "Wrong seq_lengths Size"
  else if negb (forallb (λ i, bool_decide (0 < seq_lengths_value !!! Z.to_nat i ∧
                                           seq_lengths_value !!! Z.to_nat i ≤ seq_size))
                        (seqZ 0 seq_lengths_size)) then
    EnforceFailed "Each seq_len should > 0 and <= seq_size"
  else
  let m := merge_dims batch_axis seq_axis batch_size dims in
  let width := s m !!! 2%nat in
  let pre_seq_size := if decide (batch_axis < seq_axis) then s m !!! 1%nat else s m !!! 0%nat in
  let '(merged_batch_strides, seq_strides, pre_seq_strides) :=
    if decide (batch_axis < seq_axis) then
      let seq_strides := s m !!! 2%nat in
      let pre_seq_strides := seq_strides * seq_size in
      (pre_seq_strides * pre_seq_size, seq_strides, pre_seq_strides)
    else
      let merged_batch_strides := s m !!! 2%nat in
      let seq_strides := merged_batch_strides * merged_batch_size m in
      (merged_batch_strides, seq_strides, seq_strides * seq_size) in
  let y0 : list (option TData) := replicate (Z.to_nat (Size dims)) None in
  let y :=
    foldl (λ y merged_batch,
      let batch := merged_batch `rem` batch_size in
      let seq_len := seq_lengths_value !!! Z.to_nat (batch `rem` seq_lengths_size) in
      let mb_pos := merged_batch * merged_batch_strides in
      foldl (λ y pre,
        let pre_seq_pos := mb_pos + pre * pre_seq_strides in
        if decide (batch_axis < seq_axis) then
          reverse_consecutive x y pre_seq_pos seq_strides seq_len seq_size width
        else
          reverse_strided x y pre_seq_pos seq_strides seq_len seq_size width)
        y (seqZ 0 pre_seq_size))
      y0 (seqZ 0 (merged_batch_size m)) in
  Returned (Status_OK, y).
End Kernel.

(** The fixture of [CpuReverseSequenceTest.BatchSequenceX4_int]. *)
Definition test_input : list Z :=
  [111;112;  0;  0;  0;  0;  0;  0;  0;  0;
   211;212;221;222;231;232;  0;  0;  0;  0;
   311;312;321;322;331;332;341;342;351;352;
   411;412;421;422;431;432;441;442;  0;  0]%Z.

Definition test_expected_output : list Z :=
  [111;112;  0;  0;  0;  0;  0;  0;  0;  0;
   231;232;221;222;211;212;  0;  0;  0;  0;
   351;352;341;342;331;332;321;322;311;312;
   441;442;431;432;421;422;411;412;  0;  0]%Z.

(** What the specification asks for, on a [[batch; seq; width]] tensor with
    [batch_axis = 0] and [seq_axis = 1]: position [p < seq_lengths[b]] of
    batch [b] holds the input's position [seq_lengths[b] - 1 - p], every
    other position holds the input's own value. *)
Definition required_output {TData} (seq_size width : Z) (seq_lengths : list Z)
    (x : list TData) : list (option TData) :=
  imap (λ (i : nat) (_ : TData),
          let b := (Z.of_nat i / (seq_size * width))%Z in
          let p := ((Z.of_nat i / width) `mod` seq_size)%Z in
          let c := (Z.of_nat i `mod` width)%Z in
          let len := seq_lengths !!! Z.to_nat b in
          let p' := if decide (p < len)%Z then (len - 1 - p)%Z else p in
          x !! Z.to_nat ((b * seq_size + p') * width + c)%Z) x.

(** Number of elements of a shape. *)
Definition product (l : list nat) : nat := foldr Nat.mul 1%nat l.

(** Row-major position of the cell with indices [idx] in a tensor of shape [dims]. *)
Definition offset (dims idx : list nat) : nat :=
  foldl (λ acc di, acc * di.1 + di.2)%nat 0%nat (zip dims idx).

(** The length of the sequence of batch [b]: one length per batch, or one
    for all. *)
Definition seq_len_of (lens : list nat) (b : nat) : nat :=
  lens !!! (b mod length lens)%nat.

(** The row [p'] of the input that the kernel puts in row [p] of a
    sequence: the [else] branch copies the rows past [len], the
    [batch_axis < seq_axis] branch reverses them among themselves. *)
Definition source_row (consecutive : bool) (len S p : nat) : nat :=
  if decide (p < len)%nat then (len - 1 - p)%nat
  else if consecutive then (len + (S - 1 - p))%nat else p.

End ReverseSequence.


(** ** EyeLike ([core/providers/cpu/tensor/eye_like.cc]) *)

Module EyeLike.
Section Kernel.
Context {T : Type} (zero one : T).
Local Open Scope Z_scope.

(** [std::abs] on [int64_t]: the most negative value has no positive
    counterpart and is mapped to itself. *)
Definition abs64 (k : Z) : Z := if decide (k = INT64_MIN) then INT64_MIN else Z.abs k.

(** [output_mat.setZero()] on the [rows x cols] row-major map. *)
Definition setZero (rows cols : Z) : list T := replicate (Z.to_nat (rows * cols)) zero.

(** Number of coefficients of Eigen's [diagonal(k)]. *)
Definition diagonal_size (rows cols k : Z) : Z :=
  if decide (k < 0) then Z.min cols (rows + k) else Z.min rows (cols - k).

(** [output_mat.diagonal(k).array() = one]: coefficient [i] of the diagonal
    is the cell [(i, i + k)] for [k >= 0] and [(i - k, i)] for [k < 0]. *)
Definition set_diagonal (rows cols k : Z) (m : list T) : list T :=
  foldl (λ m i,
           let '(r, c) := if decide (k < 0) then (i - k, i) else (i, i + k) in
           <[Z.to_nat (r * cols + c) := one]> m)
        m (seqZ 0 (diagonal_size rows cols k)).

(** [EyeLike::ComputeImpl<T>]: the status and, when one was produced, the
    output buffer (of shape [input_dims]). *)
Definition ComputeImpl (k_ : Z) (input_dims : list Z) : Status * option (list T) :=
  if negb (bool_decide (length input_dims = 2%nat)) then
    (mkStatus INVALID_ARGUMENT "EyeLike : Input tensor dimension is not 2", None)
  else
    let rows := input_dims !!! 0%nat in
    let cols := input_dims !!! 1%nat in
    let output_mat := setZero rows cols in
    if bool_decide ((k_ >= 0 ∧ k_ >= cols) ∨ (k_ < 0 ∧ abs64 k_ >= rows)) then
      (Status_OK, Some output_mat)
    else
      (Status_OK, Some (set_diagonal rows cols k_ output_mat)).
End Kernel.
End EyeLike.


(** ** The graph model ([core/graph/graph.h]) *)

Module GraphModel.

Definition NodeIndex := nat.

(** The graph owns one [NodeArg] per name and nodes hold pointers to them,
    so a [NodeArg*] is represented by the name it stands for. *)
Definition NodeArg := string.

Inductive DataType := FLOAT | DOUBLE | INT32 | INT64 | OTHER_TYPE.

#[global] Instance DataType_eq_dec : EqDecision DataType.
Proof. solve_decision. Defined.

Section WithElem.
Context {F : Type}.

(** The attribute kinds the rewrite rules look at. *)
Inductive AttributeProto :=
| AttrInt (i : Z)
| AttrFloat (f : F)
| AttrInts (ints : list Z)
| AttrOther.

(** An initializer: [onnx::TensorProto] with its payload as a flat list. *)
Record TensorProto := mkTensor {
  name : string;
  dims : list Z;
  data_type : DataType;
  data : list F
}.

Record Node := mkNode {
  Index : NodeIndex;
  OpType : string;
  Domain : string;
  SinceVersion : Z;        (* Op()->SinceVersion() *)
  Deprecated : bool;       (* Op()->Deprecated() *)
  InputDefs : list NodeArg;
  OutputDefs : list NodeArg;
  Attributes : gmap string AttributeProto;
  InputEdges : list NodeIndex;   (* sources of the input edges *)
  OutputEdges : list NodeIndex   (* targets of the output edges, in iteration order *)
}.

(** [nodes] is the vector of node slots (a removed node leaves an empty
    slot), [initializers] the name-keyed constant tensors, [outputs] the
    graph outputs and [node_args] the names that have a [NodeArg]. *)
Record Graph := mkGraph {
  nodes : list (option Node);
  initializers : gmap string TensorProto;
  outputs : list NodeArg;
  node_args : gset string
}.

Definition GetInputEdgesCount (n : Node) : nat := length (InputEdges n).
Definition GetOutputEdgesCount (n : Node) : nat := length (OutputEdges n).

(** Modelled from the spec: [Graph::GetNode], "lookup by index"; a removed
    or out-of-range index gives no node. *)
Definition GetNode (g : Graph) (i : NodeIndex) : option Node := mjoin (nodes g !! i).

(** Modelled from the spec: [Graph::GetInitializedTensor],
    "GetInitializedTensor(name) -> optional<Initializer>". *)
Definition GetInitializedTensor (g : Graph) (n : string) : option TensorProto :=
  initializers g !! n.

(** Modelled from the spec: [Graph::RemoveInitializedTensor(name)]. *)
Definition RemoveInitializedTensor (g : Graph) (n : string) : Graph :=
  mkGraph (nodes g) (delete n (initializers g)) (outputs g) (node_args g).

(** Modelled from the spec: [Graph::AddInitializedTensor]; initializers are
    addressable by name. *)
Definition AddInitializedTensor (g : Graph) (t : TensorProto) : Graph :=
  mkGraph (nodes g) (<[name t := t]> (initializers g)) (outputs g) (node_args g).

(** Modelled from the spec: [Graph::RemoveNode(index)]; the slot of the
    node becomes empty. *)
Definition RemoveNode (g : Graph) (i : NodeIndex) : Graph :=
  mkGraph (<[i := None]> (nodes g)) (initializers g) (outputs g) (node_args g).

(** Modelled from the spec: [Graph::GetNodeArg(name)], null when the graph
    has no value definition of that name. *)
Definition GetNodeArg (g : Graph) (n : string) : option NodeArg :=
  if decide (n ∈ node_args g) then Some n else None.

(** Modelled from the spec: [Graph::IsNodeOutputsInGraphOutputs], "X's
    output is a graph output": some output definition of the node is among
    the graph outputs. *)
Definition IsNodeOutputsInGraphOutputs (g : Graph) (n : Node) : bool :=
  existsb (λ d, bool_decide (d ∈ outputs g)) (OutputDefs n).

(** Writes a node back into its slot (mutation through a [Node&]). *)
Definition set_node (g : Graph) (i : NodeIndex) (n : Node) : Graph :=
  mkGraph (<[i := Some n]> (nodes g)) (initializers g) (outputs g) (node_args g).

Definition with_InputDefs (n : Node) (defs : list NodeArg) : Node :=
  mkNode (Index n) (OpType n) (Domain n) (SinceVersion n) (Deprecated n)
         defs (OutputDefs n) (Attributes n) (InputEdges n) (OutputEdges n).

Definition with_defs (n : Node) (ins outs : list NodeArg) : Node :=
  mkNode (Index n) (OpType n) (Domain n) (SinceVersion n) (Deprecated n)
         ins outs (Attributes n) (InputEdges n) (OutputEdges n).

Definition replace_def (old new : NodeArg) (d : NodeArg) : NodeArg :=
  if decide (d = old) then new else d.

(** Modelled from the spec: [Node::ReplaceDefs(map<oldDef, newDef>)]; every
    definition of the node equal to a key is replaced by its value. *)
Definition ReplaceDefs (replacements : list (NodeArg * NodeArg)) (n : Node) : Node :=
  foldl (λ n '(old, new),
           with_defs n (replace_def old new <$> InputDefs n)
                       (replace_def old new <$> OutputDefs n))
        n replacements.

(** [graph_edit_utils::IsSupportedOptypeVersionAndDomain] *)
Definition IsSupportedOptypeVersionAndDomain (node : Node) (op_type : string)
    (version : Z) (domain : string) : bool :=
  if bool_decide (OpType node ≠ op_type) || Deprecated node ||
     bool_decide (SinceVersion node ≠ version) ||
     (negb (bool_decide (Domain node = "")) && bool_decide (Domain node ≠ domain))
  then false else true.

(** Modelled from the spec: [GraphEditor::IsSingleInSingleOutNode],
    "single-in, single-out": one input edge and one output edge. *)
Definition IsSingleInSingleOutNode (node : Node) : bool :=
  bool_decide (GetInputEdgesCount node = 1%nat) &&
  bool_decide (GetOutputEdgesCount node = 1%nat).

(** Modelled from the spec: [GraphEditor::GetRepeatedNodeAttributeValues];
    [None] when the node has no attribute of that name, otherwise its
    list of integers. *)
Definition GetRepeatedNodeAttributeValues (node : Node) (attr : string)
  : option (list Z) :=
  match Attributes node !! attr with
  | None => None
  | Some (AttrInts l) => Some l
  | Some _ => Some []
  end.
End WithElem.
Arguments AttributeProto : clear implicits.
Arguments TensorProto : clear implicits.
Arguments Node : clear implicits.
Arguments Graph : clear implicits.
End GraphModel.

(** ** Slice elimination ([core/graph/slice_elimination.cc]) *)

Module SliceElimination.
  Import GraphModel.
Section Rule.
Context {F : Type}.
Local Open Scope Z_scope.

(** [EliminateSlice::SatisfyCondition] *)
Definition SatisfyCondition (node : Node F) : bool :=
  if negb (IsSingleInSingleOutNode node) then false else
  match GetRepeatedNodeAttributeValues node "starts" with
  | None => false
  | Some starts =>
    match GetRepeatedNodeAttributeValues node "ends" with
    | None => false
    | Some ends =>
      if negb (bool_decide (length starts = length ends)) then false else
      let axes_ok :=
        match GetRepeatedNodeAttributeValues node "axes" with
        | None => Some (seqZ 0 (Z.of_nat (length starts)))
        | Some axes =>
            if bool_decide (length axes ≠ length starts) ||
               bool_decide (length axes ≠ length ends)
            then None else Some axes
        end in
      match axes_ok with
      | None => false
      | Some axes =>
          forallb (λ i : nat,
                     negb (bool_decide (starts !!! i > 0) ||
                           bool_decide (starts !!! i < 0) ||
                           (bool_decide (ends !!! i > 0) &&
                            bool_decide (ends !!! i < INT64_MAX))))
                  (seq 0 (length axes))
      end
    end
  end.

(** The condition as the specification words it: single-in single-out,
    [starts] and [ends] present with equal lengths ([axes], when present,
    of that length too), every start 0 and every end [INT64_MAX] or
    negative. *)
Definition spec_condition (node : Node F) : Prop :=
  IsSingleInSingleOutNode node = true ∧
  ∃ starts ends,
    GetRepeatedNodeAttributeValues node "starts" = Some starts ∧
    GetRepeatedNodeAttributeValues node "ends" = Some ends ∧
    length starts = length ends ∧
    (∀ axes, GetRepeatedNodeAttributeValues node "axes" = Some axes →
             length axes = length starts) ∧
    Forall (λ s, s = 0) starts ∧
    Forall (λ e, e = INT64_MAX ∨ e < 0) ends.

(** The bounds the loop of [SatisfyCondition] lets through, for one axis. *)
Definition accepted_bounds (start end_ : Z) : Prop :=
  start = 0 ∧ (end_ ≤ 0 ∨ INT64_MAX ≤ end_).

(** A Slice node with one input edge and one output edge, [starts = [0]],
    [ends = [0]] and no [axes]: it produces an empty tensor. *)
Definition empty_slice : Node F :=
  mkNode 1%nat "Slice" "" 1 false ["X"] ["Y"]
         (<["starts" := AttrInts [0]]> (<["ends" := AttrInts [0]]> ∅))
         [0%nat] [2%nat].
End Rule.
End SliceElimination.

(** ** Identity elimination ([core/graph/identity_elimination.cc]) *)

Module IdentityElimination.
  Import GraphModel.
Section Rule.
Context {F : Type}.

(** [EliminateIdentity::SatisfyCondition] *)
Definition SatisfyCondition (graph : Graph F) (node : Node F) : bool := true.

(** The loop over [node.OutputNodesBegin() .. OutputNodesEnd()]: every
    node at the far end of an output edge gets its definitions replaced. *)
Definition replace_in_consumers (replacement_defs : list (NodeArg * NodeArg))
    (graph : Graph F) (edges : list NodeIndex) : Graph F :=
  foldl (λ g j, match GetNode g j with
                | Some consumer => set_node g j (ReplaceDefs replacement_defs consumer)
                | None => g
                end) graph edges.

(** [EliminateIdentity::Apply]; the result is the status, the graph and
    [modified].  [None] stands for the out-of-bounds read of
    [InputDefs()[0]] or [OutputDefs()[0]] on a node without them. *)
Definition Apply (graph : Graph F) (node : Node F) (modified : bool)
  : option (Status * Graph F * bool) :=
  match InputDefs node !! 0%nat, OutputDefs node !! 0%nat with
  | Some id_input, Some id_output =>
      let replacement_defs := [(id_output, id_input)] in
      let g1 := replace_in_consumers replacement_defs graph (OutputEdges node) in
      let modified1 := if OutputEdges node is [] then modified else true in
      Some (Status_OK, RemoveNode g1 (Index node), modified1)
  | _, _ => None
  end.
End Rule.
End IdentityElimination.

(** ** Conv fusions ([core/graph/conv_bn_fusion.cc], [conv_mul_fusion.cc]) *)

Module ConvFusion.
  Import GraphModel.
Section Rules.
Context {F : Type}.
(** Arithmetic of the tensor element type (float or double). *)
Context (fadd fsub fmul fdiv : F → F → F) (fsqrt : F → F).
(** [Graph::Resolve], outside this file: its verdict and the re-resolved graph. *)
Context (Resolve : Graph F → Status * Graph F).
(** The default [domain] argument of [IsSupportedOptypeVersionAndDomain],
    a constant of [core/graph/constants.h]. *)
Context (kOnnxDomainAlias : string).

Local Open Scope Z_scope.

(** *** [Initializer] ([core/graph/initializer.h]) *)

(** Modelled from the spec: [Initializer] is an editable copy of an
    initializer tensor and [ToProto] writes it back, so it is represented
    by the tensor itself; the fusions support "float or double" only. *)
Definition IsSupportedDataType (t : option (TensorProto F)) : bool :=
  match t with
  | None => false
  | Some t => bool_decide (data_type t = FLOAT) || bool_decide (data_type t = DOUBLE)
  end.

Definition with_data (t : TensorProto F) (d : list F) : TensorProto F :=
  mkTensor (name t) (dims t) (data_type t) d.

(** Modelled from the spec: [Initializer::add(float)], [sqrt], and the
    element-wise [add], [sub], [mul], [div] with another initializer. *)
Definition add_scalar (t : TensorProto F) (v : F) : TensorProto F :=
  with_data t ((λ a, fadd a v) <$> data t).
Definition sqrt (t : TensorProto F) : TensorProto F :=
  with_data t (fsqrt <$> data t).
Definition add (t other : TensorProto F) : TensorProto F :=
  with_data t (zip_with fadd (data t) (data other)).
Definition sub (t other : TensorProto F) : TensorProto F :=
  with_data t (zip_with fsub (data t) (data other)).
Definition mul (t other : TensorProto F) : TensorProto F :=
  with_data t (zip_with fmul (data t) (data other)).
Definition div (t other : TensorProto F) : TensorProto F :=
  with_data t (zip_with fdiv (data t) (data other)).

Definition Size (ds : list Z) : Z := foldr Z.mul 1 ds.

(** Modelled from the spec: [Initializer::scale_by_axis(other, axis)],
    "scale W along the output-channel axis": with [num] the number of
    elements per index of the leading [axis] dimensions, element [k] is
    multiplied by [other[k / num]], or by [other[0]] when [other] holds a
    single element. *)
Definition scale_by_axis (t other : TensorProto F) (axis : nat) : TensorProto F :=
  let num := Size (drop axis (dims t)) in
  with_data t
    (imap (λ (k : nat) (a : F),
             let index := if decide (length (data other) = 1%nat) then 0%nat
                          else Z.to_nat (Z.of_nat k / num) in
             match data other !! index with
             | Some b => fmul a b
             | None => a
             end) (data t)).

(** *** The loop bodies *)

(** What one iteration of [for (auto& node : graph.Nodes())] does:
    go on to the next node, return a status from [Apply], or run into
    undefined behaviour (dereferencing [find(..)] at [end()], indexing
    past the definitions). *)
Inductive Step :=
| Continue (g : Graph F) (removed_nodes : list NodeIndex)
| ReturnStatus (st : Status) (g : Graph F)
| Undefined.

(** The rewiring loop shared by both fusions: every input definition of
    every consumer of [x_node] equal to [x_output_def] becomes
    [conv_output_def]; a consumer that [GetNode] does not find aborts. *)
Fixpoint rewire (g : Graph F) (x_output_def conv_output_def : NodeArg)
    (edges : list NodeIndex) : option Status * Graph F :=
  match edges with
  | [] => (None, g)
  | j :: rest =>
      match GetNode g j with
      | None => (Some (mkStatus INVALID_ARGUMENT ""), g)
      | Some output_node =>
          let input_defs := replace_def x_output_def conv_output_def <$> InputDefs output_node in
          rewire (set_node g j (with_InputDefs output_node input_defs))
                 x_output_def conv_output_def rest
      end
  end.

Definition dims0 (t : TensorProto F) : option Z := dims t !! 0%nat.

(** Body of the loop of [ConvBNFusion::Apply] for the node in slot [idx]. *)
Definition ConvBN_body (g : Graph F) (removed_nodes : list NodeIndex) (idx : NodeIndex) : Step :=
  match GetNode g idx with
  | None => Continue g removed_nodes
  | Some node =>
  if negb (IsSupportedOptypeVersionAndDomain node "Conv" 1 kOnnxDomainAlias) ||
     bool_decide (GetOutputEdgesCount node ≠ 1%nat) then Continue g removed_nodes else
  match head (OutputEdges node) ≫= GetNode g with
  | None => Undefined
  | Some next_node =>
  if negb (IsSupportedOptypeVersionAndDomain next_node "BatchNormalization" 7 kOnnxDomainAlias) ||
     bool_decide (GetInputEdgesCount next_node ≠ 1%nat) ||
     IsNodeOutputsInGraphOutputs g next_node then Continue g removed_nodes else
  let conv_node := node in
  let bn_node := next_node in
  match Attributes conv_node !! "group" with
  | None => Undefined
  | Some group_attr =>
  if (if group_attr is AttrInt i then bool_decide (i ≠ 1) else false)
  then Continue g removed_nodes else
  match Attributes bn_node !! "epsilon" with
  | None => Undefined
  | Some attr =>
  match attr with
  | AttrFloat epsilon =>
  let bn_inputs := InputDefs bn_node in
  let conv_inputs := InputDefs conv_node in
  match bn_inputs !! 1%nat, bn_inputs !! 2%nat, bn_inputs !! 3%nat, bn_inputs !! 4%nat,
        conv_inputs !! 1%nat with
  | Some n_scale, Some n_B, Some n_mean, Some n_var, Some n_W =>
  let bn_scale_tensor_proto := GetInitializedTensor g n_scale in
  let bn_B_tensor_proto := GetInitializedTensor g n_B in
  let bn_mean_tensor_proto := GetInitializedTensor g n_mean in
  let bn_var_tensor_proto := GetInitializedTensor g n_var in
  let conv_W_tensor_proto := GetInitializedTensor g n_W in
  match bn_scale_tensor_proto, bn_B_tensor_proto, bn_mean_tensor_proto,
        bn_var_tensor_proto, conv_W_tensor_proto with
  | Some scale_p, Some B_p, Some mean_p, Some var_p, Some W_p =>
  if negb (IsSupportedDataType bn_scale_tensor_proto) ||
     negb (IsSupportedDataType bn_B_tensor_proto) ||
     negb (IsSupportedDataType bn_mean_tensor_proto) ||
     negb (IsSupportedDataType bn_var_tensor_proto) ||
     negb (IsSupportedDataType conv_W_tensor_proto) ||
     bool_decide (length (dims scale_p) ≠ 1%nat) ||
     bool_decide (length (dims B_p) ≠ 1%nat) ||
     bool_decide (length (dims mean_p) ≠ 1%nat) ||
     bool_decide (length (dims var_p) ≠ 1%nat) ||
     bool_decide (dims0 scale_p ≠ dims0 B_p) ||
     bool_decide (dims0 B_p ≠ dims0 mean_p) ||
     bool_decide (dims0 mean_p ≠ dims0 var_p) ||
     bool_decide (data_type scale_p ≠ data_type B_p) ||
     bool_decide (data_type B_p ≠ data_type mean_p) ||
     bool_decide (data_type mean_p ≠ data_type var_p) ||
     bool_decide (data_type W_p ≠ data_type scale_p) ||
     negb (bool_decide (2 < length (dims W_p))%nat &&
           bool_decide (dims0 W_p = dims0 scale_p))
  then Continue g removed_nodes else
  (* the bias of Conv, when it has three inputs *)
  let conv_B_checked : option (option (TensorProto F)) :=
    if decide (length conv_inputs = 3%nat) then
      match conv_inputs !! 2%nat ≫= GetInitializedTensor g with
      | None => None
      | Some cB_p =>
          if negb (IsSupportedDataType (Some cB_p)) ||
             bool_decide (length (dims cB_p) ≠ 1%nat) ||
             bool_decide (dims0 cB_p ≠ dims0 B_p) ||
             bool_decide (data_type cB_p ≠ data_type B_p)
          then None else Some (Some cB_p)
      end
    else Some None in
  match conv_B_checked with
  | None => Continue g removed_nodes
  | Some conv_B_tensor_proto =>
  (* new values of the initializers of Conv *)
  let bn_var := sqrt (add_scalar var_p epsilon) in
  let bn_scale := div scale_p bn_var in
  let conv_W := scale_by_axis W_p bn_scale 1 in
  let new_conv_W_tensor_proto := conv_W in
  let new_bias : option (TensorProto F * option NodeArg) :=
    match conv_B_tensor_proto with
    | Some cB_p => Some (add (mul (sub cB_p mean_p) bn_scale) B_p, None)
    | None =>
        let bn_mean := mul mean_p bn_scale in
        let bn_B := sub B_p bn_mean in
        match GetNodeArg g (name B_p) with
        | None => None
        | Some bn_B_node_arg => Some (bn_B, Some bn_B_node_arg)
        end
    end in
  match new_bias with
  | None => Continue g removed_nodes
  | Some (new_conv_B_tensor_proto, bn_B_node_arg) =>
  (* replace the initializers of Conv *)
  let g1 := RemoveInitializedTensor g (name W_p) in
  let g2 :=
    match conv_B_tensor_proto, bn_B_node_arg with
    | Some cB_p, _ => RemoveInitializedTensor g1 (name cB_p)
    | None, Some arg =>
        set_node (RemoveInitializedTensor g1 (name B_p)) idx
                 (with_InputDefs conv_node (InputDefs conv_node ++ [arg]))
    | None, None => g1
    end in
  let g3 := AddInitializedTensor g2 new_conv_W_tensor_proto in
  let g4 := AddInitializedTensor g3 new_conv_B_tensor_proto in
  (* replace the input of the nodes following BatchNormalization *)
  match OutputDefs bn_node !! 0%nat, OutputDefs conv_node !! 0%nat with
  | Some bn_output_def, Some conv_output_def =>
      match rewire g4 bn_output_def conv_output_def (OutputEdges bn_node) with
      | (Some st, g5) => ReturnStatus st g5
      | (None, g5) => Continue g5 (removed_nodes ++ [Index bn_node])
      end
  | _, _ => Undefined
  end
  end end
  | _, _, _, _, _ =>
      (* a missing initializer fails [IsSupportedDataType] *)
      Continue g removed_nodes
  end
  | _, _, _, _, _ => Undefined
  end
  | _ => Continue g removed_nodes
  end end end end end.

(** Body of the loop of [ConvMulFusion::Apply] for the node in slot [idx]. *)
Definition ConvMul_body (g : Graph F) (removed_nodes : list NodeIndex) (idx : NodeIndex) : Step :=
  match GetNode g idx with
  | None => Continue g removed_nodes
  | Some node =>
  if negb (IsSupportedOptypeVersionAndDomain node "Conv" 1 kOnnxDomainAlias) ||
     bool_decide (GetOutputEdgesCount node ≠ 1%nat) then Continue g removed_nodes else
  match head (OutputEdges node) ≫= GetNode g with
  | None => Undefined
  | Some next_node =>
  if negb (IsSupportedOptypeVersionAndDomain next_node "Mul" 7 kOnnxDomainAlias) ||
     bool_decide (GetInputEdgesCount next_node ≠ 1%nat) ||
     IsNodeOutputsInGraphOutputs g next_node then Continue g removed_nodes else
  let conv_node := node in
  let mul_node := next_node in
  let conv_inputs := InputDefs conv_node in
  let mul_inputs := InputDefs mul_node in
  match conv_inputs !! 1%nat, mul_inputs !! 1%nat with
  | Some n_W, Some n_mulB =>
  let conv_W_tensor_proto := GetInitializedTensor g n_W in
  let mul_B_tensor_proto := GetInitializedTensor g n_mulB in
  match conv_W_tensor_proto, mul_B_tensor_proto with
  | Some W_p, Some mB_p =>
  if negb (IsSupportedDataType conv_W_tensor_proto) ||
     negb (IsSupportedDataType mul_B_tensor_proto) ||
     bool_decide (data_type W_p ≠ data_type mB_p) ||
     bool_decide (length (dims W_p) < 4)%nat ||
     negb (bool_decide (length (dims mB_p) = 0%nat) ||
           (bool_decide (Z.of_nat (length (dims mB_p)) = Z.of_nat (length (dims W_p)) - 1) &&
            bool_decide (dims0 W_p = dims0 mB_p)))
  then Continue g removed_nodes else
  (* the dimensions of mul_B should be equal to 1 except the first *)
  let flag :=
    if decide (length (dims mB_p) ≠ 0%nat)
    then existsb (λ d, bool_decide (d ≠ 1)) (drop 1 (dims mB_p))
    else false in
  if flag then Continue g removed_nodes else
  let conv_B_checked : option (option (TensorProto F)) :=
    if decide (length conv_inputs = 3%nat) then
      match conv_inputs !! 2%nat ≫= GetInitializedTensor g with
      | None => None
      | Some cB_p =>
          if negb (IsSupportedDataType (Some cB_p)) ||
             bool_decide (data_type cB_p ≠ data_type mB_p) ||
             bool_decide (length (dims cB_p) ≠ 1%nat) ||
             (bool_decide (length (dims mB_p) ≠ 0%nat) &&
              bool_decide (dims0 cB_p ≠ dims0 mB_p))
          then None else Some (Some cB_p)
      end
    else Some None in
  match conv_B_checked with
  | None => Continue g removed_nodes
  | Some conv_B_tensor_proto =>
  let conv_W := scale_by_axis W_p mB_p 1 in
  let conv_B :=
    (λ cB_p, if decide (length (dims mB_p) ≠ 0%nat) then mul cB_p mB_p
             else scale_by_axis cB_p mB_p 0) <$> conv_B_tensor_proto in
  let new_conv_W_tensor_proto := conv_W in
  let g1 := RemoveInitializedTensor g n_W in
  let g2 := AddInitializedTensor g1 new_conv_W_tensor_proto in
  let g3 :=
    match conv_B, conv_inputs !! 2%nat with
    | Some new_conv_B_tensor_proto, Some n_cB =>
        AddInitializedTensor (RemoveInitializedTensor g2 n_cB) new_conv_B_tensor_proto
    | _, _ => g2
    end in
  match OutputDefs mul_node !! 0%nat, OutputDefs conv_node !! 0%nat with
  | Some mul_output_def, Some conv_output_def =>
      match rewire g3 mul_output_def conv_output_def (OutputEdges mul_node) with
      | (Some st, g4) => ReturnStatus st g4
      | (None, g4) => Continue g4 (removed_nodes ++ [Index mul_node])
      end
  | _, _ => Undefined
  end
  end
  | _, _ => Continue g removed_nodes
  end
  | _, _ => Undefined
  end end end.

(** *** [Apply] *)

(** [for (auto& node : graph.Nodes())]: the slots in order, empty ones skipped. *)
Definition run_loop (body : Graph F → list NodeIndex → NodeIndex → Step) (g : Graph F) : Step :=
  foldl (λ st idx, match st with
                   | Continue g removed_nodes => body g removed_nodes idx
                   | _ => st
                   end)
        (Continue g []) (seq 0 (length (nodes g))).

(** The removal loop at the end of [Apply]. *)
Definition remove_all (g : Graph F) (removed_nodes : list NodeIndex) : Graph F :=
  foldl RemoveNode g removed_nodes.

(** The end of [Apply]: remove the collected nodes; when there are some,
    set [modified] and resolve the graph.  [None] stands for undefined
    behaviour in the loop. *)
Definition finish (st : Step) (modified : bool) : option (Status * Graph F * bool) :=
  match st with
  | Undefined => None
  | ReturnStatus status g => Some (status, g, modified)
  | Continue g removed_nodes =>
      let g' := remove_all g removed_nodes in
      if removed_nodes is [] then Some (Status_OK, g', modified)
      else let '(status, g'') := Resolve g' in
           Some (if IsOK status then Status_OK else status, g'', true)
  end.

(** The node is one the Conv fusions pass over: its number of output
    edges is not one, or the outputs of its single successor appear
    among the graph outputs. *)
Definition passed_over (g : Graph F) (node : Node F) : Prop :=
  GetOutputEdgesCount node ≠ 1%nat ∨
  ∃ j next_node, OutputEdges node = [j] ∧ GetNode g j = Some next_node ∧
                 IsNodeOutputsInGraphOutputs g next_node = true.

(** Number of weights per output channel: the product of the dimensions
    after the first. *)
Definition per_channel (W : TensorProto F) : Z := Size (drop 1 (dims W)).

(** Position of weight [j] of output channel [i] in the flat buffer. *)
Definition weight_pos (W : TensorProto F) (i j : nat) : nat :=
  Z.to_nat (Z.of_nat i * per_channel W + Z.of_nat j).

(** The per-channel factor [scale / sqrt(var + epsilon)]. *)
Definition bn_factor (sc v epsilon : F) : F := fdiv sc (fsqrt (fadd v epsilon)).

(** The situation in which [ConvBNFusion::Apply] fuses the Conv node in
    slot [idx] with the BatchNormalization node [bn] that follows it:
    [W] is Conv's weight, [conv_B] its bias when it has one, and [scale],
    [B], [mean], [var] are the inputs of [bn]; all are initializers of a
    supported type, the BatchNormalization ones one-dimensional of the
    length of [W]'s first dimension. *)
Record BNFusable (g : Graph F) (idx : NodeIndex) (conv bn : Node F) (epsilon : F)
    (W scale B mean var : TensorProto F) (conv_B : option (TensorProto F))
    (bn_out conv_out : NodeArg) : Prop := mkBNFusable {
  fus_conv : GetNode g idx = Some conv;
  fus_conv_op : IsSupportedOptypeVersionAndDomain conv "Conv" 1 kOnnxDomainAlias = true;
  fus_edge : OutputEdges conv = [Index bn];
  fus_bn : GetNode g (Index bn) = Some bn;
  fus_bn_op :
    IsSupportedOptypeVersionAndDomain bn "BatchNormalization" 7 kOnnxDomainAlias = true;
  fus_bn_single : GetInputEdgesCount bn = 1%nat;
  fus_bn_inner : IsNodeOutputsInGraphOutputs g bn = false;
  fus_group : ∃ a, Attributes conv !! "group" = Some a ∧ ∀ i, a = AttrInt i → i = 1;
  fus_epsilon : Attributes bn !! "epsilon" = Some (AttrFloat epsilon);
  fus_bn_inputs :
    ∃ x rest, InputDefs bn = x :: name scale :: name B :: name mean :: name var :: rest;
  fus_conv_inputs : ∃ x, InputDefs conv = x :: name W :: (name <$> option_list conv_B);
  fus_W : initializers g !! name W = Some W;
  fus_scale : initializers g !! name scale = Some scale;
  fus_B : initializers g !! name B = Some B;
  fus_mean : initializers g !! name mean = Some mean;
  fus_var : initializers g !! name var = Some var;
  fus_conv_B : ∀ b, conv_B = Some b →
                    initializers g !! name b = Some b ∧ dims b = dims B ∧
                    data_type b = data_type B;
  fus_type : data_type W = FLOAT ∨ data_type W = DOUBLE;
  fus_types : data_type scale = data_type W ∧ data_type B = data_type W ∧
              data_type mean = data_type W ∧ data_type var = data_type W;
  fus_dims : ∃ C rest, dims W = C :: rest ∧ (2 ≤ length rest)%nat ∧
                       dims scale = [C] ∧ dims B = [C] ∧ dims mean = [C] ∧ dims var = [C];
  fus_arg : conv_B = None → name B ∈ node_args g;
  fus_bn_output : OutputDefs bn !! 0%nat = Some bn_out;
  fus_conv_output : OutputDefs conv !! 0%nat = Some conv_out;
  fus_consumers : ∀ j, j ∈ OutputEdges bn → is_Some (GetNode g j) ∧ j ≠ idx
}.

(** The bias the fusion has to install, element by element. *)
Definition fused_bias (epsilon : F) (conv_b : option F) (m sc v Bv : F) : F :=
  match conv_b with
  | Some b => fadd (fmul (fsub b m) (bn_factor sc v epsilon)) Bv
  | None => fsub Bv (fmul m (bn_factor sc v epsilon))
  end.

(** The situation in which [ConvMulFusion::Apply] fuses the Conv node in
    slot [idx] with the Mul node [mul] that follows it: [W] is Conv's
    weight, of rank 4 at least, [conv_B] its bias when it has one, and
    [mul_B], the second input of [mul], is an initializer of the type of
    [W] that is either a scalar or has one entry per output channel
    (shape [[C; 1; ...; 1]] with one dimension less than [W]). *)
Record MulFusable (g : Graph F) (idx : NodeIndex) (conv mul_node : Node F)
    (W mul_B : TensorProto F) (conv_B : option (TensorProto F))
    (mul_out conv_out : NodeArg) : Prop := mkMulFusable {
  mf_conv : GetNode g idx = Some conv;
  mf_conv_op : IsSupportedOptypeVersionAndDomain conv "Conv" 1 kOnnxDomainAlias = true;
  mf_edge : OutputEdges conv = [Index mul_node];
  mf_mul : GetNode g (Index mul_node) = Some mul_node;
  mf_mul_op : IsSupportedOptypeVersionAndDomain mul_node "Mul" 7 kOnnxDomainAlias = true;
  mf_mul_single : GetInputEdgesCount mul_node = 1%nat;
  mf_mul_inner : IsNodeOutputsInGraphOutputs g mul_node = false;
  mf_mul_inputs : ∃ x rest, InputDefs mul_node = x :: name mul_B :: rest;
  mf_conv_inputs : ∃ x, InputDefs conv = x :: name W :: (name <$> option_list conv_B);
  mf_W : initializers g !! name W = Some W;
  mf_mul_B : initializers g !! name mul_B = Some mul_B;
  mf_conv_B : ∀ b, conv_B = Some b →
                   initializers g !! name b = Some b ∧ data_type b = data_type mul_B ∧
                   length (dims b) = 1%nat ∧ (dims mul_B ≠ [] → dims0 b = dims0 mul_B);
  mf_type : data_type W = FLOAT ∨ data_type W = DOUBLE;
  mf_types : data_type mul_B = data_type W;
  mf_W_dims : (4 ≤ length (dims W))%nat;
  mf_mul_dims : dims mul_B = [] ∨
                ∃ C, dims0 W = Some C ∧
                     dims mul_B = C :: replicate (length (dims W) - 2) 1;
  mf_mul_data : length (data mul_B) = Z.to_nat (Size (dims mul_B));
  mf_mul_output : OutputDefs mul_node !! 0%nat = Some mul_out;
  mf_conv_output : OutputDefs conv !! 0%nat = Some conv_out;
  mf_consumers : ∀ j, j ∈ OutputEdges mul_node → is_Some (GetNode g j) ∧ j ≠ idx
}.

(** The entry of [mul_B] that multiplies output channel [i]: its only one
    when it is a scalar. *)
Definition channel_factor (mul_B : TensorProto F) (i : nat) : option F :=
  data mul_B !! (if dims mul_B is [] then 0%nat else i).

(** [ConvBNFusion::Apply(graph, modified)] *)
Definition ConvBNFusion_Apply (graph : Graph F) (modified : bool) :=
  finish (run_loop ConvBN_body graph) modified.

(** [ConvMulFusion::Apply(graph, modified)] *)
Definition ConvMulFusion_Apply (graph : Graph F) (modified : bool) :=
  finish (run_loop ConvMul_body graph) modified.

(** *** Invariants of the loops *)

(** What a loop body may do to its state: go on with the graph and the
    list as they were or with one more node on the list, or return an
    error. *)
Definition guarded (g : Graph F) (removed_nodes : list NodeIndex) (st : Step) : Prop :=
  match st with
  | Continue g' removed' =>
      (g' = g ∧ removed' = removed_nodes) ∨ ∃ j, removed' = removed_nodes ++ [j]
  | ReturnStatus status _ => IsOK status = false
  | Undefined => True
  end.

(** The second graph differs from the first at most in its initializers
    and in the input definitions of its nodes: the same slots are
    occupied, by nodes with the same operator, outputs, attributes and
    edges, and the graph outputs and value definitions are the same. *)
Definition same_wiring (g g' : Graph F) : Prop :=
  outputs g' = outputs g ∧ node_args g' = node_args g ∧
  length (nodes g') = length (nodes g) ∧
  ∀ j, match GetNode g j, GetNode g' j with
       | Some m, Some m' => ∃ defs, m' = with_InputDefs m defs
       | None, None => True
       | _, _ => False
       end.

(** What a loop body leaves behind has the wiring of the graph it met. *)
Definition keeps_wiring (g : Graph F) (st : Step) : Prop :=
  match st with
  | Continue g' _ | ReturnStatus _ g' => same_wiring g g'
  | Undefined => True
  end.

(** What the loop of a fusion and the removal loop leave behind. *)
Definition loop_keeps_wiring (g : Graph F) (st : Step) : Prop :=
  match st with
  | Continue g1 removed_nodes =>
      same_wiring g g1 ∧
      ∀ j, GetNode (remove_all g1 removed_nodes) j
           = if decide (j ∈ removed_nodes) then None else GetNode g1 j
  | ReturnStatus _ g1 => same_wiring g g1
  | Undefined => True
  end.

(** The node starts no Conv/BatchNormalization pair: it fails one of the
    first two tests of the loop of [ConvBNFusion::Apply], which ask for a
    Conv of version 1 with one output edge, followed by a
    BatchNormalization of version 7 with one input edge none of whose
    outputs is a graph output. *)
Definition no_bn_pair (g : Graph F) (node : Node F) : Prop :=
  IsSupportedOptypeVersionAndDomain node "Conv" 1 kOnnxDomainAlias = false ∨
  GetOutputEdgesCount node ≠ 1%nat ∨
  ∃ j next_node,
    OutputEdges node = [j] ∧ GetNode g j = Some next_node ∧
    (IsSupportedOptypeVersionAndDomain next_node "BatchNormalization" 7 kOnnxDomainAlias
     = false ∨
     GetInputEdgesCount next_node ≠ 1%nat ∨
     IsNodeOutputsInGraphOutputs g next_node = true).
End Rules.
End ConvFusion.

(** ** The transformer manager ([core/graph/graph_transformer_mgr.h]) *)

Module TransformerManager.
Section Manager.
(** The graph type and [Graph::Resolve]. *)
Context {G : Type} (Resolve : G → Status * G).

(** [GraphTransformer::Apply(graph, modified)]: the status, the graph it
    leaves and whether it reported a modification. *)
Definition GraphTransformer := G → Status * G * bool.

(** What one pass over the pipeline reported. *)
Record PassReport := mkPass { pass_status : Status; pass_changed : bool }.

(** Modelled from the spec: one pass of [ApplyAll] over [transformers_] in
    registration order; "any rule returning a non-OK Status aborts the
    whole pipeline with that Status". *)
Fixpoint run_pass (transformers : list GraphTransformer) (graph : G) (changed : bool)
  : Status * G * bool :=
  match transformers with
  | [] => (Status_OK, graph, changed)
  | transformer :: rest =>
      let '(s, graph', t_changed) := transformer graph in
      if IsOK s then run_pass rest graph' (changed || t_changed)
      else (s, graph', changed || t_changed)
  end.

(** Modelled from the spec: [GraphTransformerManager::ApplyAll], declared in
    the header but defined outside the sources at hand.  "Repeat the whole
    pipeline until no transformer reports modification or the step cap is
    reached"; "any rule returning a non-OK Status aborts the whole
    pipeline with that Status"; "after any transformer reports modified,
    the engine re-runs graph.Resolve() before the next pass".  The third
    component lists the passes that were run, oldest first. *)
Fixpoint ApplyAll_from (steps : nat) (transformers : list GraphTransformer) (graph : G)
  : Status * G * list PassReport :=
  match steps with
  | O => (Status_OK, graph, [])
  | S steps' =>
      let '(s, graph1, changed) := run_pass transformers graph false in
      if negb (IsOK s) then (s, graph1, [mkPass s changed])
      else if negb changed then (Status_OK, graph1, [mkPass s changed])
      else
        let '(rs, graph2) := Resolve graph1 in
        if negb (IsOK rs) then (rs, graph2, [mkPass s changed])
        else
          let '(s', graph3, passes) := ApplyAll_from steps' transformers graph2 in
          (s', graph3, mkPass s changed :: passes)
  end.

(** The manager: the step cap given to the constructor and the registered
    transformers. *)
Record GraphTransformerManager := mkManager {
  steps_ : nat;     (* unsigned *)
  transformers_ : list GraphTransformer
}.

(** [GraphTransformerManager::Register] *)
Definition Register (m : GraphTransformerManager) (transformer : GraphTransformer)
  : Status * GraphTransformerManager :=
  (Status_OK, mkManager (steps_ m) (transformers_ m ++ [transformer])).

Definition ApplyAll (m : GraphTransformerManager) (graph : G) : Status * G * list PassReport :=
  ApplyAll_from (steps_ m) (transformers_ m) graph.

(** A pass after which the engine goes on: it completed and modified the graph. *)
Definition goes_on (p : PassReport) : bool := IsOK (pass_status p) && pass_changed p.
End Manager.
End TransformerManager.

(** ** The helper of the transformation tests ([test/ir/graph_transform_test.cc]) *)

Module GraphTransformTest.
  Import GraphModel.
Section Helper.
Context {F : Type}.
Local Open Scope Z_scope.

Definition INT_MAX : Z := 2147483647.

(** [graph.Nodes()]: the nodes in slot order, empty slots skipped. *)
Definition Nodes (graph : Graph F) : list (Node F) := omap id (nodes graph).

(** The loop body of [CountOpsInGraph]:
    [op_to_count[op] = op_to_count.count(op) == 0 ? 1 : ++op_to_count[op]];
    [None] stands for the overflow of the [int] counter. *)
Definition count_op (op_to_count : gmap string Z) (node : Node F)
  : option (gmap string Z) :=
  match op_to_count !! OpType node with
  | None => Some (<[OpType node := 1]> op_to_count)
  | Some c =>
      if decide (c + 1 ≤ INT_MAX) then Some (<[OpType node := c + 1]> op_to_count) else None
  end.

(** [CountOpsInGraph(graph)] *)
Definition CountOpsInGraph (graph : Graph F) : option (gmap string Z) :=
  foldl (λ acc node, acc ≫= λ op_to_count, count_op op_to_count node) (Some ∅) (Nodes graph).

(** The number of nodes of the graph with operator type [op]. *)
Definition occurrences (graph : Graph F) (op : string) : nat :=
  length (filter (λ node, OpType node = op) (Nodes graph)).
End Helper.
End GraphTransformTest.

(** ** The session ([core/session/inference_session.cc]) *)

Module Session.
Section Impl.
(** Collaborators outside this file: the model loader, run-time values
    and their types, execution providers and executors. *)
Context {Model ModelMetadata ModelProto IStream MLValue Provider : Type}.
Context {MLDataType : Type} `{EqDecision MLDataType}.

(** [onnxruntime::Model::Load] from a URI and from a proto, and
    [ModelProto::ParseFromIstream]. *)
Context (Model_Load_uri : string → Status + Model)
        (Model_Load_proto : ModelProto → Status + Model)
        (ParseFromIstream : IStream → option ModelProto).
(** What [SaveModelMetadata] reads off the model: producer, description,
    domain, version, custom metadata and graph name, and the names of
    [graph.GetInputs()], [GetInputsIncludingInitializers()], [GetOutputs()]. *)
Context (GetMetadata : Model → ModelMetadata)
        (GetInputs GetInputsIncludingInitializers GetOutputs : Model → list string).

(** [MLValue::Type], [IsTensor], [Get<Tensor>().DataType()];
    [utils::GetMLDataType] of a declared input; the element type of a
    tensor type; [typeid(..).name()]. *)
Context (Type_ : MLValue → MLDataType) (IsTensor : MLValue → bool)
        (TensorDataType : MLValue → MLDataType)
        (GetMLDataType : string → MLDataType)
        (GetElementType : MLDataType → MLDataType)
        (type_name : MLDataType → string).

(** Provider callbacks and the stages of a run after validation. *)
Context (OnRunStart OnRunEnd : Provider → Status)
        (CopyInputsAcrossDevices : gmap string MLValue → Status * gmap string MLValue)
        (MatchOutputsWithProviders :
           list string → list MLValue → Status * list MLValue * list MLValue)
        (Execute : bool → gmap string MLValue → list string → list MLValue
                   → Status * list MLValue)
        (CopyOutputsAcrossDevices : list MLValue → list MLValue → Status * list MLValue).

(** The members of [InferenceSession::Impl] that [Load] and [Run] touch. *)
Record Impl := mkImpl {
  enable_sequential_execution : bool;   (* session_options_ *)
  execution_providers_ : list Provider;
  model_ : option Model;
  model_metadata_ : option ModelMetadata;   (* default-constructed: [None] *)
  required_input_def_list_ : list string;
  input_def_list_ : list string;
  output_def_list_ : list string;
  required_model_input_names_ : gset string;
  model_input_names_ : gset string;
  model_output_names_ : gset string;
  current_num_runs_ : Z;
  is_model_loaded_ : bool;
  is_inited_ : bool
}.

(** [SaveModelMetadata] (through [DoPostLoadProcessing]); always OK. *)
Definition SaveModelMetadata (s : Impl) (model : Model) : Status * Impl :=
  (Status_OK,
   mkImpl (enable_sequential_execution s) (execution_providers_ s) (model_ s)
          (Some (GetMetadata model))
          (required_input_def_list_ s ++ GetInputs model)
          (input_def_list_ s ++ GetInputsIncludingInitializers model)
          (output_def_list_ s ++ GetOutputs model)
          (foldl (λ acc n, acc ∪ {[n]}) (required_model_input_names_ s) (GetInputs model))
          (foldl (λ acc n, acc ∪ {[n]}) (model_input_names_ s)
                 (GetInputsIncludingInitializers model))
          (foldl (λ acc n, acc ∪ {[n]}) (model_output_names_ s) (GetOutputs model))
          (current_num_runs_ s) (is_model_loaded_ s) (is_inited_ s)).

Definition set_model (s : Impl) (m : Model) : Impl :=
  mkImpl (enable_sequential_execution s) (execution_providers_ s) (Some m)
         (model_metadata_ s) (required_input_def_list_ s) (input_def_list_ s)
         (output_def_list_ s)
         (required_model_input_names_ s) (model_input_names_ s) (model_output_names_ s)
         (current_num_runs_ s) (is_model_loaded_ s) (is_inited_ s).

Definition set_loaded (s : Impl) : Impl :=
  mkImpl (enable_sequential_execution s) (execution_providers_ s) (model_ s)
         (model_metadata_ s) (required_input_def_list_ s) (input_def_list_ s)
         (output_def_list_ s)
         (required_model_input_names_ s) (model_input_names_ s) (model_output_names_ s)
         (current_num_runs_ s) true (is_inited_ s).

Definition already_loaded : Status :=
  mkStatus MODEL_LOADED "This session already contains a loaded model.".

(** The part the four overloads share once the guard has passed: take
    the model from [Model::Load] (or return its error), post-process it,
    mark the session as loaded. *)
Definition load_model (s : Impl) (loaded : Status + Model) : Status * Impl :=
  match loaded with
  | inl st => (st, s)
  | inr p_tmp_model =>
      let s1 := set_model s p_tmp_model in
      let '(st2, s2) := SaveModelMetadata s1 p_tmp_model in
      if IsOK st2 then (Status_OK, set_loaded s2) else (st2, s2)
  end.

(** [Load(const T& model_uri)] *)
Definition Load_uri (s : Impl) (model_uri : string) : Status * Impl :=
  if is_model_loaded_ s then (already_loaded, s)
  else load_model s (Model_Load_uri model_uri).

(** [Load(const ModelProto& model_proto)] *)
Definition Load_proto (s : Impl) (model_proto : ModelProto) : Status * Impl :=
  if is_model_loaded_ s then (already_loaded, s)
  else load_model s (Model_Load_proto model_proto).

(** [Load(std::unique_ptr<ModelProto> p_model_proto)] *)
Definition Load_unique_proto (s : Impl) (p_model_proto : ModelProto) : Status * Impl :=
  if is_model_loaded_ s then (already_loaded, s)
  else load_model s (Model_Load_proto p_model_proto).

(** [Load(std::istream& model_istream)] *)
Definition Load_istream (s : Impl) (model_istream : IStream) : Status * Impl :=
  if is_model_loaded_ s then (already_loaded, s)
  else match ParseFromIstream model_istream with
       | None => (mkStatus INVALID_PROTOBUF
                           "Failed to load model because protobuf parsing failed.", s)
       | Some model_proto => load_model s (Model_Load_proto model_proto)
       end.

(** *** Validation of a run *)

(** [CheckTypes(actual, expected)] *)
Definition CheckTypes (actual expected : MLDataType) : Status :=
  if decide (actual = expected) then Status_OK
  else mkStatus INVALID_ARGUMENT
         ("Unexpected input data type. Actual: (" +:+ type_name actual +:+
          ") , expected: (" +:+ type_name expected +:+ ")").

(** [ValidateInputTypes(feeds)] *)
Fixpoint ValidateInputTypes_loop (defs : list string) (feeds : gmap string MLValue) : Status :=
  match defs with
  | [] => Status_OK
  | arg_name :: rest =>
      match feeds !! arg_name with
      | Some input_ml_value =>
          if decide (arg_name = "") then ValidateInputTypes_loop rest feeds else
          let expected_type := GetMLDataType arg_name in
          let retval :=
            if negb (IsTensor input_ml_value)
            then CheckTypes (Type_ input_ml_value) expected_type
            else CheckTypes (TensorDataType input_ml_value) (GetElementType expected_type) in
          if negb (IsOK retval) then retval else ValidateInputTypes_loop rest feeds
      | None => ValidateInputTypes_loop rest feeds
      end
  end.

Definition ValidateInputTypes (s : Impl) (feeds : gmap string MLValue) : Status :=
  ValidateInputTypes_loop (input_def_list_ s) feeds.

(** The [for_each] over [required_model_input_names_] that collects the
    comma-separated names absent from the feeds. *)
Definition missing_step (feeds : gmap string MLValue) (missing_required_inputs : string)
    (required_input : string) : string :=
  if decide (feeds !! required_input = None) then
    (if decide (missing_required_inputs ≠ "") then missing_required_inputs +:+ ","
     else missing_required_inputs) +:+ required_input
  else missing_required_inputs.

Definition collect_missing (s : Impl) (feeds : gmap string MLValue) : string :=
  foldl (missing_step feeds) "" (elements (required_model_input_names_ s)).

(** The loop over the feeds: [valid] and the stream [invalid_names]. *)
Definition invalid_step (known : gset string) (acc : bool * string) (n : string)
  : bool * string :=
  if decide (n ∈ known) then acc else (false, snd acc +:+ " " +:+ n).

Definition valid_names_listing (known : gset string) : string :=
  foldl (λ ostr elem, ostr +:+ elem +:+ " ") "" (elements known).

(** [ValidateInputNames(feeds)] *)
Definition ValidateInputNames (s : Impl) (feeds : gmap string MLValue) : Status :=
  let missing_required_inputs := collect_missing s feeds in
  if decide (missing_required_inputs ≠ "") then
    mkStatus INVALID_ARGUMENT ("Missing required inputs: " +:+ missing_required_inputs)
  else
    let '(valid, invalid_names) :=
      foldl (invalid_step (model_input_names_ s)) (true, "") (fst <$> map_to_list feeds) in
    if negb valid then
      mkStatus INVALID_ARGUMENT
        ("Invalid Feed Input Names:" +:+ invalid_names +:+
         ". Valid input names are: " +:+ valid_names_listing (model_input_names_ s))
    else Status_OK.

(** [ValidateInputs(feeds)] *)
Definition ValidateInputs (s : Impl) (feeds : gmap string MLValue) : Status :=
  let st := ValidateInputNames s feeds in
  if negb (IsOK st) then st else
  let st := ValidateInputTypes s feeds in
  if negb (IsOK st) then st else Status_OK.

(** [ValidateOutputs(output_names, p_fetches)]; [None] is the null pointer. *)
Definition ValidateOutputs (s : Impl) (output_names : list string)
    (p_fetches : option (list MLValue)) : Status :=
  match p_fetches with
  | None => mkStatus INVALID_ARGUMENT "Output vector pointer is NULL"
  | Some fetches =>
      if decide (output_names = []) then
        mkStatus INVALID_ARGUMENT "At least one output should be requested."
      else if negb (bool_decide (fetches = [])) &&
              bool_decide (length output_names ≠ length fetches) then
        mkStatus INVALID_ARGUMENT
          ("Output vector incorrectly sized: output_names.size(): " +:+
           pretty (length output_names) +:+ "p_fetches->size(): " +:+
           pretty (length fetches))
      else
        let '(valid, invalid_names) :=
          foldl (invalid_step (model_output_names_ s)) (true, "") output_names in
        if negb valid then
          mkStatus INVALID_ARGUMENT
            ("Invalid Output Names:" +:+ invalid_names +:+
             " Valid output names are: " +:+ valid_names_listing (model_output_names_ s))
        else Status_OK
  end.

(** *** [Run] *)

(** The calls [Run] makes into providers and executors, in order.  Nodes
    of the graph run inside [EvExecute] and nowhere else. *)
Inductive Event :=
| EvOnRunStart (xp : Provider)
| EvCopyInputs
| EvMatchOutputs
| EvExecute (sequential : bool)
| EvCopyOutputs
| EvOnRunEnd (xp : Provider).

(** Modelled from the spec: the macro [ONNXRUNTIME_CHECK_AND_SET_RETVAL] of
    [core/common/common.h], which [Run] uses where it cannot return
    early; "all Validate* checks fail fast before any execution": [expr]
    is evaluated, and its status kept, only while [retval] is still OK. *)
Definition CHECK_AND_SET_RETVAL (retval : Status) (expr : unit → Status) : Status :=
  if IsOK retval then expr tt else retval.

Definition notify (callback : Provider → Status) (ev : Provider → Event)
    (acc : Status * list Event) (xp : Provider) : Status * list Event :=
  let '(retval, trace) := acc in
  if IsOK retval then (callback xp, trace ++ [ev xp]) else (retval, trace).

(** [Run(run_options, feeds, output_names, p_fetches)]: the status, the
    calls that were made and the fetch vector. *)
Definition Run (s : Impl) (feeds : gmap string MLValue) (output_names : list string)
    (p_fetches : option (list MLValue)) : Status * list Event * option (list MLValue) :=
  let retval :=
    if negb (is_inited_ s) then mkStatus FAIL "Session not initialized." else Status_OK in
  let retval := CHECK_AND_SET_RETVAL retval (λ _, ValidateInputs s feeds) in
  let retval := CHECK_AND_SET_RETVAL retval (λ _, ValidateOutputs s output_names p_fetches) in
  let '(retval, trace) :=
    foldl (notify OnRunStart EvOnRunStart) (retval, []) (execution_providers_ s) in
  let '(retval, trace, copied_feeds) :=
    if IsOK retval then
      let '(st, copied) := CopyInputsAcrossDevices feeds in (st, trace ++ [EvCopyInputs], copied)
    else (retval, trace, ∅) in
  let '(retval, trace, fetches, new_fetches) :=
    if IsOK retval then
      let '(st, fetches, new_fetches) :=
        MatchOutputsWithProviders output_names (default [] p_fetches) in
      (st, trace ++ [EvMatchOutputs], Some fetches, new_fetches)
    else (retval, trace, p_fetches, []) in
  let '(retval, trace, new_fetches) :=
    if IsOK retval then
      let '(st, new_fetches) :=
        Execute (enable_sequential_execution s) copied_feeds output_names new_fetches in
      (st, trace ++ [EvExecute (enable_sequential_execution s)], new_fetches)
    else (retval, trace, new_fetches) in
  let '(retval, trace, fetches) :=
    if IsOK retval then
      let '(st, user_fetches) := CopyOutputsAcrossDevices new_fetches (default [] fetches) in
      (st, trace ++ [EvCopyOutputs], Some user_fetches)
    else (retval, trace, fetches) in
  let '(retval, trace) :=
    foldl (notify OnRunEnd EvOnRunEnd) (retval, trace) (execution_providers_ s) in
  (retval, trace, fetches).

(** Substring: the message names the input. *)
Definition mentions (msg n : string) : Prop := ∃ pre post, msg = pre +:+ n +:+ post.

(** The feeds omit a required input (one that exists, i.e. has a
    non-empty name), or feed a name that is not an input of the model. *)
Definition bad_feed_names (s : Impl) (feeds : gmap string MLValue) : Prop :=
  (∃ n, n ∈ required_model_input_names_ s ∧ n ≠ "" ∧ feeds !! n = None) ∨
  (∃ n, is_Some (feeds !! n) ∧ n ∉ model_input_names_ s).

(** The four ways a request for outputs is malformed. *)
Definition bad_outputs (s : Impl) (output_names : list string)
    (p_fetches : option (list MLValue)) : Prop :=
  p_fetches = None ∨
  output_names = [] ∨
  (∃ fetches, p_fetches = Some fetches ∧ fetches ≠ [] ∧
              length output_names ≠ length fetches) ∨
  (∃ n, n ∈ output_names ∧ n ∉ model_output_names_ s).

(** *** Queries *)

Definition not_loaded : Status := mkStatus FAIL "Model was not loaded.".

(** [GetModelMetadata], [GetModelInputs] and [GetModelOutputs]: the status
    and the pointer to the member, null ([None]) before a model is loaded. *)
Definition GetModelMetadata (s : Impl) : Status * option (option ModelMetadata) :=
  if negb (is_model_loaded_ s) then (not_loaded, None)
  else (Status_OK, Some (model_metadata_ s)).

Definition GetModelInputs (s : Impl) : Status * option (list string) :=
  if negb (is_model_loaded_ s) then (not_loaded, None)
  else (Status_OK, Some (required_input_def_list_ s)).

Definition GetModelOutputs (s : Impl) : Status * option (list string) :=
  if negb (is_model_loaded_ s) then (not_loaded, None)
  else (Status_OK, Some (output_def_list_ s)).

(** The session as the constructor leaves it, as far as [Load] and the
    queries are concerned: nothing loaded, no definitions, no names. *)
Definition unloaded (s : Impl) : Prop :=
  is_model_loaded_ s = false ∧ model_metadata_ s = None ∧
  required_input_def_list_ s = [] ∧ input_def_list_ s = [] ∧ output_def_list_ s = [] ∧
  required_model_input_names_ s = ∅ ∧ model_input_names_ s = ∅ ∧
  model_output_names_ s = ∅.

(** *** [Initialize] *)

(** The exceptions [Initialize] tells apart in its handlers. *)
Inductive Exception :=
| NotImplementedException (what : string)
| std_exception (what : string)
| unknown_exception.

(** The members of the session that the stages of the initialization
    write and that [Impl] leaves out: [kernel_registry_manager_],
    [insert_cast_transformer_], [session_state_], [weights_buffers_] and
    [subgraph_memory_]. *)
Context {SessionState : Type}.

(** What the stages are handed by reference and may change: the model
    (its main graph), the execution providers and those members. *)
Definition Reach : Type := Model * list Provider * SessionState.

(** The collection of execution providers ([Get] by type, null when there
    is none, and [Add]), the default CPU provider, and the stages of the
    initialization: the registration of the kernel registries
    ([kernel_registry_manager_.RegisterKernels(execution_providers_)] and
    [insert_cast_transformer_.AddKernelRegistries]), which returns nothing,
    and [CreatePlan] (given [enable_sequential_execution]),
    [InitializeAndSave] and [InitializeSubgraphSessions], which return a
    status.  Each stage may throw, and leaves behind what it has written
    by then. *)
Context (kCpuExecutionProvider : string)
        (execution_providers_Get : list Provider → string → option Provider)
        (execution_providers_Add : list Provider → string → Provider → list Provider)
        (CPUExecutionProvider : Provider)
        (RegisterKernels : list Provider → SessionState
                           → option Exception * (list Provider * SessionState))
        (CreatePlan : bool → Reach → (Exception + Status) * Reach)
        (InitializeAndSave InitializeSubgraphSessions : Reach → (Exception + Status) * Reach).

(** The session with the model and the providers as the stages left them,
    and [is_inited_] as given. *)
Definition with_reach (s : Impl) (r : Reach) (inited : bool) : Impl :=
  mkImpl (enable_sequential_execution s) r.1.2 (Some r.1.1)
         (model_metadata_ s) (required_input_def_list_ s) (input_def_list_ s)
         (output_def_list_ s)
         (required_model_input_names_ s) (model_input_names_ s) (model_output_names_ s)
         (current_num_runs_ s) (is_model_loaded_ s) inited.

(** The three [catch] clauses. *)
Definition caught (e : Exception) : Status :=
  match e with
  | NotImplementedException what =>
      mkStatus NOT_IMPLEMENTED ("Exception during initialization: " +:+ what)
  | std_exception what => mkStatus FAIL ("Exception during initialization: " +:+ what)
  | unknown_exception =>
      mkStatus RUNTIME_EXCEPTION "Encountered unknown exception in Initialize()"
  end.

(** [Initialize()], on the session and the members of [SessionState]:
    the status and both afterwards.  [None] stands for the undefined
    behaviour of [model_->MainGraph()] on a null [model_]. *)
Definition Initialize (s : Impl) (ss : SessionState) : option (Status * Impl * SessionState) :=
  if negb (is_model_loaded_ s) then Some (mkStatus FAIL "Model was not loaded.", s, ss) else
  if is_inited_ s then Some (Status_OK, s, ss) else
  let xps :=
    if execution_providers_Get (execution_providers_ s) kCpuExecutionProvider is None
    then execution_providers_Add (execution_providers_ s)
                                 kCpuExecutionProvider CPUExecutionProvider
    else execution_providers_ s in
  match model_ s with
  | None => None
  | Some model =>
  let leave (st : Status) (r : Reach) := Some (st, with_reach s r (is_inited_ s), r.2) in
  let '(thrown, (xps, ss)) := RegisterKernels xps ss in
  match thrown with
  | Some e => leave (caught e) (model, xps, ss)
  | None =>
  let '(status, r) := CreatePlan (enable_sequential_execution s) (model, xps, ss) in
  match status with
  | inl e => leave (caught e) r
  | inr st =>
  if negb (IsOK st) then leave st r else
  let '(status, r) := InitializeAndSave r in
  match status with
  | inl e => leave (caught e) r
  | inr st =>
  if negb (IsOK st) then leave st r else
  let '(status, r) := InitializeSubgraphSessions r in
  match status with
  | inl e => leave (caught e) r
  | inr st =>
  if negb (IsOK st) then leave st r else
  Some (Status_OK, with_reach s r true, r.2)
  end end end end end.
End Impl.

(** *** Custom operators *)

Section CustomOps.
(** [CustomRegistry], and [CustomOpsLoader::LoadCustomOps] of a shared
    library: its status and the registry it hands back, which may be null. *)
Context {CustomRegistry : Type}
        (custom_ops_loader_LoadCustomOps : string → Status * option CustomRegistry).

(** The two members [RegisterCustomRegistry] adds to: the registries given
    to [kernel_registry_manager_] with high priority, and
    [custom_schema_registries_]. *)
Record Registries := mkRegistries {
  kernel_registries : list CustomRegistry;
  custom_schema_registries_ : list CustomRegistry
}.

(** [RegisterCustomRegistry(custom_registry)] *)
Definition RegisterCustomRegistry (regs : Registries) (custom_registry : option CustomRegistry)
  : Status * Registries :=
  match custom_registry with
  | None => (mkStatus FAIL "Received nullptr for custom registry", regs)
  | Some r => (Status_OK, mkRegistries (kernel_registries regs ++ [r])
                                       (custom_schema_registries_ regs ++ [r]))
  end.

(** The loop of [LoadCustomOps] over the shared libraries. *)
Fixpoint LoadCustomOps_loop (regs : Registries) (dso_list : list string)
  : Status * Registries :=
  match dso_list with
  | [] => (Status_OK, regs)
  | dso_file_path :: rest =>
      let '(st, custom_registry) := custom_ops_loader_LoadCustomOps dso_file_path in
      if negb (IsOK st) then (st, regs) else
      match custom_registry with
      | None => (mkStatus FAIL "Null custom_registry after loading custom ops.", regs)
      | Some _ =>
          let '(st, regs') := RegisterCustomRegistry regs custom_registry in
          if negb (IsOK st) then (st, regs') else LoadCustomOps_loop regs' rest
      end
  end.

(** [LoadCustomOps(dso_list)] *)
Definition LoadCustomOps (regs : Registries) (dso_list : list string) : Status * Registries :=
  if decide (dso_list = []) then
    (mkStatus INVALID_ARGUMENT "Empty list of shared libraries in the input.", regs)
  else LoadCustomOps_loop regs dso_list.

(** [HasLocalSchema()] *)
Definition HasLocalSchema (regs : Registries) : bool :=
  negb (bool_decide (custom_schema_registries_ regs = [])).
End CustomOps.

(** *** Matching the outputs with the providers *)

Section Matching.
(** Run-time values: [MLValue()], [IsAllocated], [IsTensor] and
    [Get<Tensor>().Location()]; the execution providers:
    [execution_providers_.Get] by allocator and by type, null when there
    is none, and [IExecutionProvider::Type]. *)
Context {MLValue Provider AllocatorInfo : Type}.
Context (MLValue_default : MLValue) (IsAllocated IsTensor : MLValue → bool)
        (Location : MLValue → AllocatorInfo).
Context (Get_by_location : AllocatorInfo → option Provider)
        (Get_by_type : string → option Provider)
        (Type_ : Provider → string) (kCpuExecutionProvider : string).
(** [session_state_.GetMLValueNameIdxMap().GetIdx] and
    [session_state_.GetInitializedTensors()]. *)
Context (GetIdx : string → Status * Z) (weights : gmap Z MLValue).

(** What the function reads of the graph viewer. *)
Record NodeArg := mkNodeArg { Exists : bool; Name : string }.
Record Node := mkNode { OutputDefs : list NodeArg; GetExecutionProviderType : string }.
Record GraphViewer := mkGraphViewer { Nodes : list Node; GetOutputs : list NodeArg }.

(** [Contains(output_names, name)]: whether [std::find] finds the name,
    and where first. *)
Definition Contains (output_names : list string) (name : string) : bool * nat :=
  match list_find (λ n, n = name) output_names with
  | None => (false, 0%nat)
  | Some (i, _) => (true, i)
  end.

(** [std::vector::resize(n)] *)
Definition resize (v : list MLValue) (n : nat) : list MLValue :=
  take n v ++ replicate (n - length v) MLValue_default.

(** The body of the loop over the output definitions of [node], on
    [seen_outputs] and [new_fetches]; [None] stands for undefined
    behaviour ([fetches[idx]] past the end, [tensor_provider] null). *)
Definition match_def (output_names : list string) (fetches : list MLValue) (node : Node)
    (st : gset string * list MLValue) (arg : NodeArg) : option (gset string * list MLValue) :=
  let '(seen_outputs, new_fetches) := st in
  let found := Contains output_names (Name arg) in
  if negb (Exists arg) || bool_decide (Name arg = "") || negb found.1 then Some st else
  let seen_outputs := seen_outputs ∪ {[Name arg]} in
  let idx := found.2 in
  match fetches !! idx with
  | None => None
  | Some orig_mlvalue =>
      if IsAllocated orig_mlvalue then
        if negb (IsTensor orig_mlvalue) then
          Some (seen_outputs, <[idx := orig_mlvalue]> new_fetches)
        else
          let node_provider_type := GetExecutionProviderType node in
          let tensor_provider :=
            match Get_by_location (Location orig_mlvalue) with
            | Some p => Some p
            | None => Get_by_type kCpuExecutionProvider
            end in
          match tensor_provider with
          | None => None
          | Some p =>
              if decide (node_provider_type = Type_ p)
              then Some (seen_outputs, <[idx := orig_mlvalue]> new_fetches)
              else Some (seen_outputs, new_fetches)
          end
      else Some (seen_outputs, <[idx := orig_mlvalue]> new_fetches)
  end.

(** The loop over the nodes, left once every fetch has been seen. *)
Fixpoint match_nodes (output_names : list string) (fetches : list MLValue) (nodes : list Node)
    (st : gset string * list MLValue) : option (gset string * list MLValue) :=
  match nodes with
  | [] => Some st
  | node :: rest =>
      if decide (size st.1 = length fetches) then Some st else
      match foldl (λ acc arg, acc ≫= λ st, match_def output_names fetches node st arg)
                  (Some st) (OutputDefs node) with
      | None => None
      | Some st' => match_nodes output_names fetches rest st'
      end
  end.

(** The loop over the graph outputs, for outputs folded into weights; it
    returns the error of [GetIdx]. *)
Fixpoint match_weights (output_names : list string) (defs : list NodeArg)
    (st : gset string * list MLValue) : option Status * (gset string * list MLValue) :=
  match defs with
  | [] => (None, st)
  | one_def :: rest =>
      let '(seen_outputs, new_fetches) := st in
      let found := Contains output_names (Name one_def) in
      if negb (Exists one_def) || bool_decide (Name one_def = "") ||
         bool_decide (Name one_def ∈ seen_outputs) || negb found.1
      then match_weights output_names rest st else
      let def_name := Name one_def in
      let idx := found.2 in
      let '(status, mlvalue_idx) := GetIdx def_name in
      if negb (IsOK status) then (Some status, st) else
      match weights !! mlvalue_idx with
      | None => match_weights output_names rest st
      | Some weight =>
          match_weights output_names rest
                        (seen_outputs ∪ {[def_name]}, <[idx := weight]> new_fetches)
      end
  end.

(** [MatchOutputsWithProviders(output_names, fetches, new_fetches)]: the
    status and the two vectors afterwards.  [p_graph] is
    [session_state_.GetGraphViewer()]. *)
Definition MatchOutputsWithProviders (p_graph : option GraphViewer)
    (output_names : list string) (fetches new_fetches : list MLValue)
  : option (Outcome (Status * list MLValue * list MLValue)) :=
  let fetches := if decide (fetches = []) then resize fetches (length output_names)
                 else fetches in
  let new_fetches := resize new_fetches (length output_names) in
  match p_graph with
  | None => Some (EnforceFailed "p_graph")
  | Some graph =>
      match match_nodes output_names fetches (Nodes graph) (∅, new_fetches) with
      | None => None
      | Some (seen_outputs, new_fetches) =>
          if decide (size seen_outputs = length output_names)
          then Some (Returned (Status_OK, fetches, new_fetches)) else
          let '(early, (seen_outputs, new_fetches)) :=
            match_weights output_names (GetOutputs graph) (seen_outputs, new_fetches) in
          match early with
          | Some status => Some (Returned (status, fetches, new_fetches))
          | None =>
              if decide (size seen_outputs ≠ length output_names) then
                Some (Returned
                        (mkStatus FAIL
                           ("output size mismatch, expected " +:+ pretty (length output_names)
                            +:+ " got " +:+ pretty (size seen_outputs)),
                         fetches, new_fetches))
              else Some (Returned (Status_OK, fetches, new_fetches))
          end
      end
  end.

(** The graph produces the name: it is an existing output definition of a
    node, or a graph output whose value is held as a weight. *)
Definition produced (graph : GraphViewer) (n : string) : Prop :=
  (∃ node arg, node ∈ Nodes graph ∧ arg ∈ OutputDefs node ∧
               Exists arg = true ∧ Name arg = n) ∨
  (∃ one_def, one_def ∈ GetOutputs graph ∧ Exists one_def = true ∧ Name one_def = n ∧
              IsOK (GetIdx n).1 = true ∧ is_Some (weights !! (GetIdx n).2)).

(** The output definitions the loop over the nodes takes up. *)
Definition wanted (output_names : list string) (arg : NodeArg) : bool :=
  Exists arg && negb (bool_decide (Name arg = "")) && (Contains output_names (Name arg)).1.
End Matching.

(** *** Copying the feeds *)

Section Copying.
Context {MLValue : Type}.
(** [IOBinding::CopyOneInputAcrossDevices(session_state, input_name,
    orig_mlvalue, new_mlvalue)]: its status and [new_mlvalue]. *)
Context (CopyOneInputAcrossDevices : string → MLValue → Status * MLValue).

(** The loop of [CopyInputsAcrossDevices] over the feeds. *)
Fixpoint CopyInputs_loop (pairs : list (string * MLValue)) (new_feeds : gmap string MLValue)
  : Status * gmap string MLValue :=
  match pairs with
  | [] => (Status_OK, new_feeds)
  | (input_name, orig_mlvalue) :: rest =>
      let '(st, new_mlvalue) := CopyOneInputAcrossDevices input_name orig_mlvalue in
      if negb (IsOK st) then (st, new_feeds)
      else CopyInputs_loop rest (<[input_name := new_mlvalue]> new_feeds)
  end.

(** [CopyInputsAcrossDevices(session_state, orig_feeds, new_feeds)] *)
Definition CopyInputsAcrossDevices (orig_feeds new_feeds : gmap string MLValue)
  : Status * gmap string MLValue :=
  CopyInputs_loop (map_to_list orig_feeds) new_feeds.
End Copying.
End Session.

(** * Properties *)

(** ** ReverseSequence *)

Module ReverseSequenceFacts.
Import ReverseSequence.
Local Open Scope Z_scope.

(** The kernel reproduces the expected output of
    [CpuReverseSequenceTest.BatchSequenceX4_int]: in that fixture every
    tail is filled with zeros or is a single position long. *)
Lemma fixture_passes :
  ComputeImpl 0 1 [4; 5; 2] test_input [4] [1; 3; 5; 4]
  = Returned (Status_OK, Some <$> test_expected_output).
Proof. vm_compute. reflexivity. Qed.

Lemma fixture_is_required_output :
  required_output 5 2 [1; 3; 5; 4] test_input = Some <$> test_expected_output.
Proof. vm_compute. reflexivity. Qed.

(** With the sequence axis in front of the batch axis the positions past
    [seq_lengths[b]] are copied: sequences [(1,3,5)] and [(2,4,6)] of two
    batches, lengths 1 and 2. *)
Lemma strided_branch_copies_tail :
  ComputeImpl 1 0 [3; 2; 1] [1; 2; 3; 4; 5; 6] [2] [1; 2]
  = Returned (Status_OK, Some <$> [1; 4; 3; 2; 5; 6]).
Proof. vm_compute. reflexivity. Qed.

Section Assignments.
  Context {TData : Type}.
  Implicit Types (x : list TData) (y : list (option TData)).

Lemma write_length y (i : Z) v : length (write y i v) = length y.
Proof. unfold write. case_decide; [apply length_insert|done]. Qed.

Lemma write_lookup y (i k : Z) v :
  0 ≤ i → 0 ≤ k → (Z.to_nat i < length y)%nat →
  write y i v !! Z.to_nat k = if decide (k = i) then Some v else y !! Z.to_nat k.
Proof.
  intros Hi Hk Hlt. unfold write. rewrite decide_True by done.
  case_decide as Hki.
  - subst k. by rewrite list_lookup_insert_eq.
  - rewrite list_lookup_insert_ne by lia. done.
Qed.

Lemma assign_vec_nat x y (src dst : Z) (n : nat) :
  assign_vec x y src dst (Z.of_nat (S n))
  = write (assign_vec x y src dst (Z.of_nat n)) (dst + Z.of_nat n)
          (read x (src + Z.of_nat n)).
Proof. unfold assign_vec. rewrite seqZ_S, foldl_app. reflexivity. Qed.

(** The vector assignment writes cells [dst .. dst + n) and nothing else. *)
Lemma assign_vec_spec x y (src dst : Z) (n : nat) :
  0 ≤ dst → (Z.to_nat dst + n ≤ length y)%nat →
  length (assign_vec x y src dst (Z.of_nat n)) = length y ∧
  ∀ k : Z, 0 ≤ k →
    assign_vec x y src dst (Z.of_nat n) !! Z.to_nat k
    = if decide (dst ≤ k < dst + Z.of_nat n) then Some (read x (src + (k - dst)))
      else y !! Z.to_nat k.
Proof.
  intros Hdst. induction n as [|n IH]; intros Hlen.
  - split; [done|]. intros k Hk. rewrite decide_False by lia. done.
  - destruct IH as [IHlen IH]; [lia|].
    rewrite assign_vec_nat. split; [by rewrite write_length|].
    intros k Hk. rewrite write_lookup by lia. rewrite IH by done.
    repeat case_decide; try lia; try done.
    subst k. do 2 f_equal. lia.
Qed.

Lemma assign_colwise_reverse_nat x y (src dst width : Z) (rows : Z) (n : nat) :
  foldl (λ y r, assign_vec x y (src + (rows - 1 - r) * width) (dst + r * width) width)
        y (seqZ 0 (Z.of_nat (S n)))
  = assign_vec x
      (foldl (λ y r, assign_vec x y (src + (rows - 1 - r) * width) (dst + r * width) width)
             y (seqZ 0 (Z.of_nat n)))
      (src + (rows - 1 - Z.of_nat n) * width) (dst + Z.of_nat n * width) width.
Proof. rewrite seqZ_S, foldl_app. reflexivity. Qed.

(** The first [n] rows of the row-reversing matrix assignment: cell [c] of
    destination row [r < n] holds cell [c] of source row [rows - 1 - r]. *)
Lemma assign_rows_spec x y (src dst rows : Z) (width n : nat) :
  0 ≤ dst → (Z.to_nat dst + n * width ≤ length y)%nat →
  let y' := foldl (λ y r, assign_vec x y (src + (rows - 1 - r) * Z.of_nat width)
                                     (dst + r * Z.of_nat width) (Z.of_nat width))
                  y (seqZ 0 (Z.of_nat n)) in
  length y' = length y ∧
  (∀ r c : nat, (r < n)%nat → (c < width)%nat →
     y' !! Z.to_nat (dst + Z.of_nat r * Z.of_nat width + Z.of_nat c)
     = Some (read x (src + (rows - 1 - Z.of_nat r) * Z.of_nat width + Z.of_nat c))) ∧
  (∀ k : Z, 0 ≤ k → ¬ (dst ≤ k < dst + Z.of_nat n * Z.of_nat width) →
     y' !! Z.to_nat k = y !! Z.to_nat k).
Proof.
  intros Hdst. induction n as [|n IH]; intros Hlen; cbn zeta.
  - split_and!; [done|lia|done].
  - cbn zeta in IH. destruct IH as (IHlen & IHin & IHout); [lia|].
    rewrite assign_colwise_reverse_nat.
    set (y' := foldl _ y (seqZ 0 (Z.of_nat n))) in *.
    destruct (assign_vec_spec x y' (src + (rows - 1 - Z.of_nat n) * Z.of_nat width)
                (dst + Z.of_nat n * Z.of_nat width) width) as [Hl Hv]; [lia|nia|].
    split_and!.
    + congruence.
    + intros r c Hr Hc. rewrite Hv by lia.
      destruct (decide (r = n)) as [->|Hne].
      * rewrite decide_True by lia. do 2 f_equal. lia.
      * rewrite decide_False by nia. apply IHin; lia.
    + intros k Hk Hout. rewrite Hv by done.
      rewrite decide_False by nia. apply IHout; [done|nia].
Qed.

(** What the [batch_axis < seq_axis] branch writes for one [pre]: the
    first [seq_len] positions of the sequence are reversed, and so are the
    remaining [seq_size - seq_len] positions among themselves: position
    [p >= seq_len] receives position [seq_len + (seq_size - 1 - p)]. *)
Lemma reverse_consecutive_spec x y (pre_seq_pos : Z) (seq_len seq_size width : nat) :
  0 ≤ pre_seq_pos → (seq_len ≤ seq_size)%nat →
  (Z.to_nat pre_seq_pos + seq_size * width ≤ length y)%nat →
  let y' := reverse_consecutive x y pre_seq_pos (Z.of_nat width) (Z.of_nat seq_len)
                                (Z.of_nat seq_size) (Z.of_nat width) in
  ∀ p c : nat, (p < seq_size)%nat → (c < width)%nat →
    y' !! Z.to_nat (pre_seq_pos + Z.of_nat p * Z.of_nat width + Z.of_nat c)
    = Some (read x (pre_seq_pos
                    + Z.of_nat (if decide (p < seq_len)%nat then seq_len - 1 - p
                                else seq_len + (seq_size - 1 - p)) * Z.of_nat width
                    + Z.of_nat c)).
Proof.
  intros Hpos Hle Hlen y' p c Hp Hc. subst y'. unfold reverse_consecutive, assign_colwise_reverse.
  destruct (assign_rows_spec x y pre_seq_pos pre_seq_pos (Z.of_nat seq_len) width seq_len)
    as (Hl1 & Hin1 & Hout1); [done|nia|].
  set (y1 := foldl _ y (seqZ 0 (Z.of_nat seq_len))) in *.
  replace (Z.of_nat seq_size - Z.of_nat seq_len) with (Z.of_nat (seq_size - seq_len)) by lia.
  destruct (assign_rows_spec x y1 (pre_seq_pos + Z.of_nat width * Z.of_nat seq_len)
              (pre_seq_pos + Z.of_nat width * Z.of_nat seq_len)
              (Z.of_nat (seq_size - seq_len)) width (seq_size - seq_len))
    as (Hl2 & Hin2 & Hout2); [nia|nia|].
  set (y2 := foldl _ y1 (seqZ 0 (Z.of_nat (seq_size - seq_len)))) in *.
  case_decide as Hhead.
  - rewrite Hout2 by nia. rewrite Hin1 by done. do 2 f_equal.
    replace (Z.of_nat (seq_len - 1 - p)) with (Z.of_nat seq_len - 1 - Z.of_nat p) by lia.
    done.
  - specialize (Hin2 (p - seq_len)%nat c ltac:(lia) Hc).
    replace (pre_seq_pos + Z.of_nat width * Z.of_nat seq_len
             + Z.of_nat (p - seq_len) * Z.of_nat width + Z.of_nat c)
      with (pre_seq_pos + Z.of_nat p * Z.of_nat width + Z.of_nat c) in Hin2 by nia.
    rewrite Hin2. do 2 f_equal.
    replace (Z.of_nat (seq_len + (seq_size - 1 - p)))
      with (Z.of_nat seq_len + (Z.of_nat (seq_size - seq_len) - 1 - Z.of_nat (p - seq_len)))
      by lia.
    lia.
Qed.

Ltac nonneg :=
  solve [repeat first [lia | apply Z.add_nonneg_nonneg | apply Z.mul_nonneg_nonneg]].

(** Cells of different rows are different cells when rows do not overlap. *)
Lemma rows_apart (pre : Z) (stride width r1 r2 c1 c2 : nat) :
  (width ≤ stride)%nat → (c1 < width)%nat → (c2 < width)%nat → r1 ≠ r2 →
  pre + Z.of_nat r1 * Z.of_nat stride + Z.of_nat c1
  ≠ pre + Z.of_nat r2 * Z.of_nat stride + Z.of_nat c2.
Proof.
  intros Hw Hc1 Hc2 Hr Heq.
  destruct (decide (r1 < r2)%nat).
  - assert (Z.of_nat (r1 + 1) * Z.of_nat stride ≤ Z.of_nat r2 * Z.of_nat stride)
      by (apply Z.mul_le_mono_nonneg_r; lia).
    lia.
  - assert (Z.of_nat (r2 + 1) * Z.of_nat stride ≤ Z.of_nat r1 * Z.of_nat stride)
      by (apply Z.mul_le_mono_nonneg_r; lia).
    lia.
Qed.

(** The first loop of the [else] branch after [n] rounds. *)
Lemma strided_reverse_spec x y (pre : Z) (stride seq_len width n : nat) :
  0 ≤ pre → (width ≤ stride)%nat → (n ≤ seq_len)%nat →
  (Z.to_nat pre + seq_len * stride ≤ length y)%nat →
  ∃ y', foldl (strided_reverse_step x pre (Z.of_nat stride) (Z.of_nat seq_len)
                                    (Z.of_nat width))
              (y, pre) (seqZ 0 (Z.of_nat n))
        = (y', pre + Z.of_nat n * Z.of_nat stride) ∧
        length y' = length y ∧
        (∀ q c : nat, (q < n)%nat → (c < width)%nat →
           y' !! Z.to_nat (pre + Z.of_nat (seq_len - q - 1) * Z.of_nat stride + Z.of_nat c)
           = Some (read x (pre + Z.of_nat q * Z.of_nat stride + Z.of_nat c))) ∧
        (∀ r c : nat, (r < seq_len - n ∨ seq_len ≤ r)%nat → (c < width)%nat →
           y' !! Z.to_nat (pre + Z.of_nat r * Z.of_nat stride + Z.of_nat c)
           = y !! Z.to_nat (pre + Z.of_nat r * Z.of_nat stride + Z.of_nat c)).
Proof.
  intros Hpre Hw. induction n as [|n IH]; intros Hn Hlen.
  - exists y. split_and!; [by rewrite Z.add_0_r|done|lia|done].
  - destruct IH as (y' & Hfold & Hl & Hin & Hout); [lia|done|].
    rewrite seqZ_S, foldl_app, Hfold. cbn [foldl strided_reverse_step].
    set (dst := pre + Z.of_nat stride * (Z.of_nat seq_len - (0 + Z.of_nat n) - 1)).
    assert (dst = pre + Z.of_nat (seq_len - n - 1) * Z.of_nat stride) as Hdst.
    { unfold dst.
      replace (Z.of_nat (seq_len - n - 1)) with (Z.of_nat seq_len - (0 + Z.of_nat n) - 1)
        by lia.
      lia. }
    assert (0 ≤ Z.of_nat (seq_len - n - 1) * Z.of_nat stride)
      by (apply Z.mul_nonneg_nonneg; lia).
    assert (Z.of_nat (seq_len - n - 1 + 1) * Z.of_nat stride
            ≤ Z.of_nat seq_len * Z.of_nat stride)
      by (apply Z.mul_le_mono_nonneg_r; lia).
    destruct (assign_vec_spec x y' (pre + Z.of_nat n * Z.of_nat stride) dst width)
      as [Hl' Hv]; [lia|lia|].
    eexists. split_and!.
    + f_equal. lia.
    + congruence.
    + intros q c Hq Hc. rewrite Hv by nonneg.
      destruct (decide (q = n)) as [->|Hne].
      * rewrite decide_True by lia. do 2 f_equal. lia.
      * rewrite decide_False; [apply Hin; lia|].
        intros Hrange.
        apply (rows_apart pre stride width (seq_len - q - 1) (seq_len - n - 1) c
                 (Z.to_nat (pre + Z.of_nat (seq_len - q - 1) * Z.of_nat stride
                            + Z.of_nat c - dst)));
          [done|done|lia|lia|lia].
    + intros r c Hr Hc. rewrite Hv by nonneg.
      rewrite decide_False; [apply Hout; [lia|done]|].
      intros Hrange.
      apply (rows_apart pre stride width r (seq_len - n - 1) c
               (Z.to_nat (pre + Z.of_nat r * Z.of_nat stride + Z.of_nat c - dst)));
        [done|done|lia|lia|lia].
Qed.

(** The second loop of the [else] branch after [n] rounds, started at row [from]. *)
Lemma strided_copy_spec x y (pre : Z) (stride width from n : nat) :
  0 ≤ pre → (width ≤ stride)%nat →
  (Z.to_nat pre + (from + n) * stride ≤ length y)%nat →
  ∃ y', foldl (strided_copy_step x (Z.of_nat stride) (Z.of_nat width))
              (y, pre + Z.of_nat from * Z.of_nat stride)
              (seqZ (Z.of_nat from) (Z.of_nat n))
        = (y', pre + Z.of_nat (from + n) * Z.of_nat stride) ∧
        length y' = length y ∧
        (∀ r c : nat, (from ≤ r < from + n)%nat → (c < width)%nat →
           y' !! Z.to_nat (pre + Z.of_nat r * Z.of_nat stride + Z.of_nat c)
           = Some (read x (pre + Z.of_nat r * Z.of_nat stride + Z.of_nat c))) ∧
        (∀ r c : nat, (r < from)%nat → (c < width)%nat →
           y' !! Z.to_nat (pre + Z.of_nat r * Z.of_nat stride + Z.of_nat c)
           = y !! Z.to_nat (pre + Z.of_nat r * Z.of_nat stride + Z.of_nat c)).
Proof.
  intros Hpre Hw. induction n as [|n IH]; intros Hlen.
  - exists y. rewrite Nat.add_0_r. split_and!; [done|done|lia|done].
  - destruct IH as (y' & Hfold & Hl & Hin & Hout); [lia|].
    rewrite seqZ_S, foldl_app, Hfold. cbn [foldl strided_copy_step].
    set (dst := pre + Z.of_nat (from + n) * Z.of_nat stride).
    assert (0 ≤ Z.of_nat (from + n) * Z.of_nat stride)
      by (apply Z.mul_nonneg_nonneg; lia).
    assert (Z.of_nat (from + n + 1) * Z.of_nat stride
            ≤ Z.of_nat (from + S n) * Z.of_nat stride)
      by (apply Z.mul_le_mono_nonneg_r; lia).
    destruct (assign_vec_spec x y' dst dst width) as [Hl' Hv]; [lia|lia|].
    eexists. split_and!.
    + f_equal. lia.
    + congruence.
    + intros r c Hr Hc. rewrite Hv by nonneg.
      destruct (decide (r = (from + n)%nat)) as [->|Hne].
      * rewrite decide_True by lia. do 2 f_equal. lia.
      * rewrite decide_False; [apply Hin; lia|].
        intros Hrange.
        apply (rows_apart pre stride width r (from + n) c
                 (Z.to_nat (pre + Z.of_nat r * Z.of_nat stride + Z.of_nat c - dst)));
          [done|done|lia|lia|lia].
    + intros r c Hr Hc. rewrite Hv by nonneg.
      rewrite decide_False; [by apply Hout|].
      intros Hrange.
      apply (rows_apart pre stride width r (from + n) c
               (Z.to_nat (pre + Z.of_nat r * Z.of_nat stride + Z.of_nat c - dst)));
        [done|done|lia|lia|lia].
Qed.

(** What the [else] branch writes for one [pre]: the first [seq_len]
    positions of the sequence are reversed and every later position is
    copied from the same position of the input. *)
Lemma reverse_strided_spec x y (pre_seq_pos : Z) (seq_strides seq_len seq_size width : nat) :
  0 ≤ pre_seq_pos → (width ≤ seq_strides)%nat → (seq_len ≤ seq_size)%nat →
  (Z.to_nat pre_seq_pos + seq_size * seq_strides ≤ length y)%nat →
  let y' := reverse_strided x y pre_seq_pos (Z.of_nat seq_strides) (Z.of_nat seq_len)
                            (Z.of_nat seq_size) (Z.of_nat width) in
  ∀ p c : nat, (p < seq_size)%nat → (c < width)%nat →
    y' !! Z.to_nat (pre_seq_pos + Z.of_nat p * Z.of_nat seq_strides + Z.of_nat c)
    = Some (read x (pre_seq_pos
                    + Z.of_nat (if decide (p < seq_len)%nat then seq_len - 1 - p else p)
                      * Z.of_nat seq_strides
                    + Z.of_nat c)).
Proof.
  intros Hpos Hw Hle Hlen y' p c Hp Hc. subst y'. unfold reverse_strided.
  destruct (strided_reverse_spec x y pre_seq_pos seq_strides seq_len width seq_len)
    as (y1 & Hfold1 & Hl1 & Hin1 & Hout1); [done|done|done|nia|].
  rewrite Hfold1.
  replace (Z.of_nat seq_size - Z.of_nat seq_len) with (Z.of_nat (seq_size - seq_len)) by lia.
  destruct (strided_copy_spec x y1 pre_seq_pos seq_strides width seq_len (seq_size - seq_len))
    as (y2 & Hfold2 & Hl2 & Hin2 & Hout2); [done|done|nia|].
  rewrite Hfold2. cbn [fst].
  case_decide as Hhead.
  - rewrite Hout2 by done.
    specialize (Hin1 (seq_len - 1 - p)%nat c ltac:(lia) Hc).
    replace (seq_len - (seq_len - 1 - p) - 1)%nat with p in Hin1 by lia.
    exact Hin1.
  - apply Hin2; [lia|done].
Qed.
End Assignments.

(** C1: on input [[1; 2; 3]] of shape [[1; 3; 1]] with [batch_axis = 0],
    [seq_axis = 1] and [seq_lengths = [1]] the kernel returns [[1; 3; 2]]:
    the positions past the sequence length come out reversed, whereas the
    required output leaves them as they are, [[1; 2; 3]]. *)
Theorem consecutive_branch_reverses_tail :
  ComputeImpl 0 1 [1; 3; 1] [1; 2; 3] [1] [1]
    = Returned (Status_OK, [Some 1; Some 3; Some 2]) ∧
  required_output 3 1 [1] [1; 2; 3] = [Some 1; Some 2; Some 3].
Proof. split; vm_compute; reflexivity. Qed.

(** *** The kernel on every shape *)

Section Loops.
  Context {TData : Type}.
  Implicit Types (x : list TData) (y : list (option TData)).

(** [step] works on buffers of length [L]: it writes [value i] into the
    cell [cell i] for every valid index [i] and leaves every other cell as
    it was. *)
Definition Writes {I : Type} (L : nat) (valid : I → Prop) (cell : I → nat)
    (value : I → option TData)
    (step : list (option TData) → list (option TData)) : Prop :=
  ∀ y, length y = L →
    length (step y) = L ∧
    (∀ i, valid i → step y !! cell i = Some (value i)) ∧
    (∀ k, (∀ i, valid i → k ≠ cell i) → step y !! k = y !! k).

Lemma Writes_loop {I : Type} (L : nat) (valid : I → Prop) (cell : nat → I → nat)
    (value : nat → I → option TData)
    (step : Z → list (option TData) → list (option TData)) (n : nat) :
  (∀ j j' i i', (j < n)%nat → (j' < n)%nat → valid i → valid i' →
                cell j i = cell j' i' → j = j') →
  (∀ j, (j < n)%nat → Writes L valid (cell j) (value j) (step (Z.of_nat j))) →
  Writes L (λ ji, (ji.1 < n)%nat ∧ valid ji.2) (λ ji, cell ji.1 ji.2)
         (λ ji, value ji.1 ji.2)
         (λ y, foldl (λ y j, step j y) y (seqZ 0 (Z.of_nat n))).
Proof.
  induction n as [|n IH]; intros Hinj Hstep y Hy.
  - cbn. split_and!; [done| |done]. intros [j i] [Hj _]. cbn in Hj. lia.
  - rewrite seqZ_S, foldl_app. cbn [foldl]. rewrite Z.add_0_l.
    assert (∀ j j' i i', (j < n)%nat → (j' < n)%nat → valid i → valid i' →
                         cell j i = cell j' i' → j = j') as Hinj'.
    { intros j j' i i' Hj Hj' Hi Hi' Heq. apply (Hinj j j' i i'); [lia|lia|done..]. }
    assert (∀ j, (j < n)%nat → Writes L valid (cell j) (value j) (step (Z.of_nat j)))
      as Hstep' by (intros j Hj; apply Hstep; lia).
    destruct (IH Hinj' Hstep' y Hy) as (Hlen & Hin & Hout).
    set (Y := foldl _ y (seqZ 0 (Z.of_nat n))) in *.
    destruct (Hstep n ltac:(lia) Y Hlen) as (Hlen' & Hin' & Hout').
    split_and!; [done| |].
    + intros [j i] [Hj Hi]. cbn [fst snd] in *.
      destruct (decide (j = n)) as [->|Hne]; [by apply Hin'|].
      rewrite Hout'; [apply (Hin (j, i)); cbn; split; [lia|done]|].
      intros i' Hi' Heq. apply Hne. eapply (Hinj j n i i'); eauto; lia.
    + intros k Hk. rewrite Hout'; [apply Hout|].
      * intros [j i] [Hj Hi]. apply (Hk (j, i)). cbn in *. split; [lia|done].
      * intros i Hi. apply (Hk (n, i)). cbn. split; [lia|done].
Qed.

(** A step may be described with other indices, as long as the cells and
    their values are the same. *)
Lemma Writes_reindex {I J : Type} (L : nat) (valid : I → Prop) (cell : I → nat)
    (value : I → option TData) (valid' : J → Prop) (cell' : J → nat)
    (value' : J → option TData) step :
  (∀ j, valid' j → ∃ i, valid i ∧ cell i = cell' j ∧ value i = value' j) →
  (∀ i, valid i → ∃ j, valid' j ∧ cell' j = cell i) →
  Writes L valid cell value step → Writes L valid' cell' value' step.
Proof.
  intros Hto Hfrom HW y Hy. destruct (HW y Hy) as (Hlen & Hin & Hout).
  split_and!; [done| |].
  - intros j Hj. destruct (Hto j Hj) as (i & Hi & <- & <-). by apply Hin.
  - intros k Hk. apply Hout. intros i Hi Heq.
    destruct (Hfrom i Hi) as (j & Hj & Hc). apply (Hk j Hj). congruence.
Qed.

(** Two steps in a row that write different cells. *)
Lemma Writes_seq {I J : Type} (L : nat) (valid1 : I → Prop) (cell1 : I → nat)
    (value1 : I → option TData) (valid2 : J → Prop) (cell2 : J → nat)
    (value2 : J → option TData) step1 step2 :
  (∀ i j, valid1 i → valid2 j → cell1 i ≠ cell2 j) →
  Writes L valid1 cell1 value1 step1 → Writes L valid2 cell2 value2 step2 →
  Writes L (λ ij : I + J, match ij with inl i => valid1 i | inr j => valid2 j end)
           (λ ij, match ij with inl i => cell1 i | inr j => cell2 j end)
           (λ ij, match ij with inl i => value1 i | inr j => value2 j end)
           (λ y, step2 (step1 y)).
Proof.
  intros Hdisj H1 H2 y Hy.
  destruct (H1 y Hy) as (Hlen1 & Hin1 & Hout1).
  destruct (H2 (step1 y) Hlen1) as (Hlen2 & Hin2 & Hout2).
  split_and!; [done| |].
  - intros [i|j] Hv; [|by apply Hin2].
    rewrite Hout2; [by apply Hin1|]. intros j Hj. by apply Hdisj.
  - intros k Hk. rewrite Hout2; [apply Hout1|].
    + intros i Hi. apply (Hk (inl i) Hi).
    + intros j Hj. apply (Hk (inr j) Hj).
Qed.

Lemma Writes_id {I : Type} (L : nat) (cell : I → nat) (value : I → option TData) :
  Writes L (λ _, False) cell value (λ y, y).
Proof. intros y Hy. split_and!; done. Qed.

(** The vector assignment as a step. *)
Lemma assign_vec_Writes x (L : nat) (src dst : Z) (n : nat) :
  0 ≤ dst → (n = 0 ∨ Z.to_nat dst + n ≤ L)%nat →
  Writes L (λ c : nat, (c < n)%nat) (λ c, Z.to_nat (dst + Z.of_nat c))
         (λ c, read x (src + Z.of_nat c))
         (λ y, assign_vec x y src dst (Z.of_nat n)).
Proof.
  intros Hdst Hn y Hy.
  destruct (decide (n = 0%nat)) as [->|Hpos].
  { split_and!; [done|lia|done]. }
  destruct (assign_vec_spec x y src dst n) as [Hlen Hv]; [done|lia|].
  split_and!; [congruence| |].
  - intros c Hc. rewrite Hv by lia. rewrite decide_True by lia.
    do 2 f_equal. lia.
  - intros k Hk. rewrite <- (Nat2Z.id k) at 1 2. rewrite Hv by lia.
    rewrite decide_False; [done|]. intros Hrange.
    apply (Hk (Z.to_nat (Z.of_nat k - dst))); lia.
Qed.

(** A loop that advances an offset by [stride] in every round does the
    rounds at the offsets [off + j * stride]. *)
Lemma fold_offset (f : list (option TData) → Z → Z → list (option TData))
    (stride : Z) y (off a : Z) (n : nat) :
  foldl (λ (st : list (option TData) * Z) (seq : Z),
           (f st.1 st.2 seq, st.2 + stride)) (y, off) (seqZ a (Z.of_nat n))
  = (foldl (λ y j, f y (off + j * stride) (a + j)) y (seqZ 0 (Z.of_nat n)),
     off + Z.of_nat n * stride).
Proof.
  induction n as [|n IH].
  - rewrite !seqZ_nil by done. cbn [foldl]. f_equal. lia.
  - rewrite !seqZ_S, !foldl_app, IH. cbn [foldl fst snd]. rewrite Z.add_0_l.
    f_equal. lia.
Qed.

Lemma foldl_ext_all {A B : Type} (f g : A → B → A) (a : A) (l : list B) :
  (∀ a b, f a b = g a b) → foldl f a l = foldl g a l.
Proof. intros H. revert a. induction l as [|b l IH]; intros a; cbn; [done|]. by rewrite H, IH. Qed.


Lemma row_bound (pos : Z) (stride W p : nat) (L : nat) :
  0 ≤ pos →
  (∀ c, (c < W)%nat →
        (Z.to_nat (pos + Z.of_nat p * Z.of_nat stride + Z.of_nat c) < L)%nat) →
  (W = 0 ∨ Z.to_nat (pos + Z.of_nat p * Z.of_nat stride) + W ≤ L)%nat.
Proof.
  intros Hpos Hb. destruct (decide (W = 0%nat)) as [|HW]; [by left|right].
  specialize (Hb (W - 1)%nat ltac:(lia)).
  assert (0 ≤ Z.of_nat p * Z.of_nat stride) by (apply Z.mul_nonneg_nonneg; lia).
  lia.
Qed.

(** The [else] branch for one [pre], as a step. *)
Lemma reverse_strided_Writes x (L : nat) (pos : Z) (stride len S W : nat) :
  0 ≤ pos → (W ≤ stride)%nat → (len ≤ S)%nat →
  (∀ p c, (p < S)%nat → (c < W)%nat →
          (Z.to_nat (pos + Z.of_nat p * Z.of_nat stride + Z.of_nat c) < L)%nat) →
  Writes L (λ pc : nat * nat, (pc.1 < S)%nat ∧ (pc.2 < W)%nat)
         (λ pc, Z.to_nat (pos + Z.of_nat pc.1 * Z.of_nat stride + Z.of_nat pc.2))
         (λ pc, read x (pos + Z.of_nat (source_row false len S pc.1) * Z.of_nat stride
                        + Z.of_nat pc.2))
         (λ y, reverse_strided x y pos (Z.of_nat stride) (Z.of_nat len) (Z.of_nat S)
                               (Z.of_nat W)).
Proof.
  intros Hpos Hstride Hlen Hb.
  (* the two loops as loops over the rows *)
  set (rev := λ (j : Z) (y : list (option TData)),
         assign_vec x y (pos + j * Z.of_nat stride)
                    (pos + Z.of_nat stride * (Z.of_nat len - (0 + j) - 1)) (Z.of_nat W)).
  set (cp := λ (j : Z) (y : list (option TData)),
         assign_vec x y (pos + Z.of_nat len * Z.of_nat stride + j * Z.of_nat stride)
                    (pos + Z.of_nat len * Z.of_nat stride + j * Z.of_nat stride)
                    (Z.of_nat W)).
  assert (∀ y, reverse_strided x y pos (Z.of_nat stride) (Z.of_nat len) (Z.of_nat S)
                               (Z.of_nat W)
               = foldl (λ y j, cp j y) (foldl (λ y j, rev j y) y (seqZ 0 (Z.of_nat len)))
                       (seqZ 0 (Z.of_nat (S - len)))) as Heq.
  { intros y. unfold reverse_strided.
    rewrite (foldl_ext_all (strided_reverse_step _ _ _ _ _)
               (λ st seq, (assign_vec x st.1 st.2
                             (pos + Z.of_nat stride * (Z.of_nat len - seq - 1)) (Z.of_nat W),
                           st.2 + Z.of_nat stride))) by (by intros [] ?).
    rewrite (fold_offset (λ y off seq, assign_vec x y off
                              (pos + Z.of_nat stride * (Z.of_nat len - seq - 1)) (Z.of_nat W))).
    rewrite (foldl_ext_all (strided_copy_step _ _ _)
               (λ st seq, (assign_vec x st.1 st.2 st.2 (Z.of_nat W),
                           st.2 + Z.of_nat stride))) by (by intros [] ?).
    replace (Z.of_nat S - Z.of_nat len) with (Z.of_nat (S - len)) by lia.
    rewrite (fold_offset (λ y off seq, assign_vec x y off off (Z.of_nat W))).
    reflexivity. }
  assert (∀ p : nat, 0 ≤ Z.of_nat p * Z.of_nat stride) as Hnn
    by (intros; apply Z.mul_nonneg_nonneg; lia).
  (* the first loop *)
  assert (Writes L (λ jc : nat * nat, (jc.1 < len)%nat ∧ (jc.2 < W)%nat)
            (λ jc, Z.to_nat (pos + Z.of_nat (len - 1 - jc.1) * Z.of_nat stride
                             + Z.of_nat jc.2))
            (λ jc, read x (pos + Z.of_nat jc.1 * Z.of_nat stride + Z.of_nat jc.2))
            (λ y, foldl (λ y j, rev j y) y (seqZ 0 (Z.of_nat len)))) as H1.
  { apply (Writes_loop L (λ c, (c < W)%nat)
             (λ j c, Z.to_nat (pos + Z.of_nat (len - 1 - j) * Z.of_nat stride + Z.of_nat c))
             (λ j c, read x (pos + Z.of_nat j * Z.of_nat stride + Z.of_nat c)) rev len).
    - intros j j' c c' Hj Hj' Hc Hc' Hcell.
      destruct (decide (j = j')) as [|Hne]; [done|exfalso].
      pose proof (Hnn (len - 1 - j)%nat). pose proof (Hnn (len - 1 - j')%nat).
      apply (rows_apart pos stride W (len - 1 - j) (len - 1 - j') c c');
        [done|done|done|lia|lia].
    - intros j Hj. unfold rev.
      replace (pos + Z.of_nat stride * (Z.of_nat len - (0 + Z.of_nat j) - 1))
        with (pos + Z.of_nat (len - 1 - j) * Z.of_nat stride)
        by (replace (Z.of_nat (len - 1 - j)) with (Z.of_nat len - (0 + Z.of_nat j) - 1)
              by lia; lia).
      pose proof (Hnn (len - 1 - j)%nat).
      apply assign_vec_Writes; [lia|].
      apply row_bound; [done|]. intros c Hc. apply Hb; lia. }
  (* the second loop *)
  assert (Writes L (λ jc : nat * nat, (jc.1 < S - len)%nat ∧ (jc.2 < W)%nat)
            (λ jc, Z.to_nat (pos + Z.of_nat (len + jc.1) * Z.of_nat stride
                             + Z.of_nat jc.2))
            (λ jc, read x (pos + Z.of_nat (len + jc.1) * Z.of_nat stride + Z.of_nat jc.2))
            (λ y, foldl (λ y j, cp j y) y (seqZ 0 (Z.of_nat (S - len))))) as H2.
  { apply (Writes_loop L (λ c, (c < W)%nat)
             (λ j c, Z.to_nat (pos + Z.of_nat (len + j) * Z.of_nat stride + Z.of_nat c))
             (λ j c, read x (pos + Z.of_nat (len + j) * Z.of_nat stride + Z.of_nat c))
             cp (S - len)).
    - intros j j' c c' Hj Hj' Hc Hc' Hcell.
      destruct (decide (j = j')) as [|Hne]; [done|exfalso].
      pose proof (Hnn (len + j)%nat). pose proof (Hnn (len + j')%nat).
      apply (rows_apart pos stride W (len + j) (len + j') c c');
        [done|done|done|lia|lia].
    - intros j Hj. unfold cp.
      replace (pos + Z.of_nat len * Z.of_nat stride + Z.of_nat j * Z.of_nat stride)
        with (pos + Z.of_nat (len + j) * Z.of_nat stride) by lia.
      pose proof (Hnn (len + j)%nat).
      apply assign_vec_Writes; [lia|].
      apply row_bound; [done|]. intros c Hc. apply Hb; lia. }
  assert (∀ i j : nat * nat,
            (i.1 < len)%nat ∧ (i.2 < W)%nat → (j.1 < S - len)%nat ∧ (j.2 < W)%nat →
            Z.to_nat (pos + Z.of_nat (len - 1 - i.1) * Z.of_nat stride + Z.of_nat i.2)
            ≠ Z.to_nat (pos + Z.of_nat (len + j.1) * Z.of_nat stride + Z.of_nat j.2))
    as Hdisj.
  { intros [j c] [j' c'] [Hj Hc] [Hj' Hc'] Heq'. cbn [fst snd] in *.
    pose proof (Hnn (len - 1 - j)%nat). pose proof (Hnn (len + j')%nat).
    apply (rows_apart pos stride W (len - 1 - j) (len + j') c c');
      [done|done|done|lia|lia]. }
  intros y Hy. rewrite Heq. revert y Hy.
  eapply Writes_reindex; [| |apply (Writes_seq L _ _ _ _ _ _ _ _ Hdisj H1 H2)].
  - intros [p c] [Hp Hc]. cbn [fst snd] in *. unfold source_row.
    destruct (decide (p < len)%nat) as [Hhead|Htail].
    + exists (inl ((len - 1 - p)%nat, c)). cbn [fst snd].
      replace (len - 1 - (len - 1 - p))%nat with p by lia.
      split_and!; [lia|done..].
    + exists (inr ((p - len)%nat, c)). cbn [fst snd].
      replace (len + (p - len))%nat with p by lia.
      split_and!; [lia|done..].
  - intros [[j c]|[j c]] [Hj Hc]; cbn [fst snd] in *.
    + exists ((len - 1 - j)%nat, c). cbn [fst snd]. split_and!; [lia|done..].
    + exists ((len + j)%nat, c). cbn [fst snd]. split_and!; [lia|done..].
Qed.

(** The row-reversing matrix assignment as a step. *)
Lemma assign_colwise_reverse_Writes x (L : nat) (src dst : Z) (rows W : nat) :
  0 ≤ dst →
  (∀ r c, (r < rows)%nat → (c < W)%nat →
          (Z.to_nat (dst + Z.of_nat r * Z.of_nat W + Z.of_nat c) < L)%nat) →
  Writes L (λ rc : nat * nat, (rc.1 < rows)%nat ∧ (rc.2 < W)%nat)
         (λ rc, Z.to_nat (dst + Z.of_nat rc.1 * Z.of_nat W + Z.of_nat rc.2))
         (λ rc, read x (src + Z.of_nat (rows - 1 - rc.1) * Z.of_nat W + Z.of_nat rc.2))
         (λ y, assign_colwise_reverse x y src dst (Z.of_nat rows) (Z.of_nat W)).
Proof.
  intros Hdst Hb. unfold assign_colwise_reverse.
  assert (∀ p : nat, 0 ≤ Z.of_nat p * Z.of_nat W) as Hnn
    by (intros; apply Z.mul_nonneg_nonneg; lia).
  apply (Writes_loop L (λ c, (c < W)%nat)
           (λ r c, Z.to_nat (dst + Z.of_nat r * Z.of_nat W + Z.of_nat c))
           (λ r c, read x (src + Z.of_nat (rows - 1 - r) * Z.of_nat W + Z.of_nat c))
           (λ r y, assign_vec x y (src + (Z.of_nat rows - 1 - r) * Z.of_nat W)
                              (dst + r * Z.of_nat W) (Z.of_nat W)) rows).
  - intros r r' c c' Hr Hr' Hc Hc' Hcell.
    destruct (decide (r = r')) as [|Hne]; [done|exfalso].
    pose proof (Hnn r). pose proof (Hnn r').
    apply (rows_apart dst W W r r' c c'); [done|done|done|done|lia].
  - intros r Hr.
    replace (Z.of_nat rows - 1 - Z.of_nat r) with (Z.of_nat (rows - 1 - r)) by lia.
    pose proof (Hnn r).
    apply assign_vec_Writes; [lia|].
    apply row_bound; [done|]. intros c Hc. by apply Hb.
Qed.

(** The [batch_axis < seq_axis] branch for one [pre], as a step. *)
Lemma reverse_consecutive_Writes x (L : nat) (pos : Z) (len S W : nat) :
  0 ≤ pos → (len ≤ S)%nat →
  (∀ p c, (p < S)%nat → (c < W)%nat →
          (Z.to_nat (pos + Z.of_nat p * Z.of_nat W + Z.of_nat c) < L)%nat) →
  Writes L (λ pc : nat * nat, (pc.1 < S)%nat ∧ (pc.2 < W)%nat)
         (λ pc, Z.to_nat (pos + Z.of_nat pc.1 * Z.of_nat W + Z.of_nat pc.2))
         (λ pc, read x (pos + Z.of_nat (source_row true len S pc.1) * Z.of_nat W
                        + Z.of_nat pc.2))
         (λ y, reverse_consecutive x y pos (Z.of_nat W) (Z.of_nat len) (Z.of_nat S)
                                   (Z.of_nat W)).
Proof.
  intros Hpos Hlen Hb. unfold reverse_consecutive.
  assert (∀ p : nat, 0 ≤ Z.of_nat p * Z.of_nat W) as Hnn
    by (intros; apply Z.mul_nonneg_nonneg; lia).
  replace (Z.of_nat S - Z.of_nat len) with (Z.of_nat (S - len)) by lia.
  set (tail := pos + Z.of_nat W * Z.of_nat len).
  assert (tail = pos + Z.of_nat len * Z.of_nat W) as Htail by (unfold tail; lia).
  pose proof (Hnn len).
  pose proof (assign_colwise_reverse_Writes x L pos pos len W Hpos
                ltac:(intros; apply Hb; lia)) as H1.
  assert (∀ r c, (r < S - len)%nat → (c < W)%nat →
            (Z.to_nat (tail + Z.of_nat r * Z.of_nat W + Z.of_nat c) < L)%nat) as Hb2.
  { intros r c Hr Hc. specialize (Hb (len + r)%nat c ltac:(lia) Hc).
    replace (tail + Z.of_nat r * Z.of_nat W) with (pos + Z.of_nat (len + r) * Z.of_nat W)
      by lia.
    done. }
  pose proof (assign_colwise_reverse_Writes x L tail tail (S - len) W ltac:(lia) Hb2) as H2.
  assert (∀ i j : nat * nat,
            (i.1 < len)%nat ∧ (i.2 < W)%nat → (j.1 < S - len)%nat ∧ (j.2 < W)%nat →
            Z.to_nat (pos + Z.of_nat i.1 * Z.of_nat W + Z.of_nat i.2)
            ≠ Z.to_nat (tail + Z.of_nat j.1 * Z.of_nat W + Z.of_nat j.2)) as Hdisj.
  { intros [r c] [r' c'] [Hr Hc] [Hr' Hc'] Heq'. cbn [fst snd] in *.
    pose proof (Hnn r). pose proof (Hnn (len + r')%nat). pose proof (Hnn r').
    apply (rows_apart pos W W r (len + r') c c'); [done|done|done|lia|lia]. }
  eapply Writes_reindex; [| |apply (Writes_seq L _ _ _ _ _ _ _ _ Hdisj H1 H2)].
  - intros [p c] [Hp Hc]. cbn [fst snd] in *. unfold source_row.
    destruct (decide (p < len)%nat) as [Hhead|Htail'].
    + exists (inl (p, c)). cbn [fst snd]. split_and!; [lia|done..].
    + exists (inr ((p - len)%nat, c)). cbn [fst snd].
      split_and!; [lia|done| |].
      * f_equal. replace (Z.of_nat p) with (Z.of_nat len + Z.of_nat (p - len)) by lia. lia.
      * f_equal.
        replace (Z.of_nat (len + (S - 1 - p)))
          with (Z.of_nat len + Z.of_nat (S - len - 1 - (p - len))) by lia.
        lia.
  - intros [[r c]|[r c]] [Hr Hc]; cbn [fst snd] in *.
    + exists (r, c). cbn [fst snd]. split_and!; [lia|done..].
    + exists ((len + r)%nat, c). cbn [fst snd]. split_and!; [lia|done|].
      f_equal. lia.
Qed.
End Loops.


Lemma Size_of_nat (l : list nat) : Size (Z.of_nat <$> l) = Z.of_nat (product l).
Proof.
  induction l as [|d l IH]; [done|].
  rewrite fmap_cons. change (Z.of_nat d * Size (Z.of_nat <$> l) = Z.of_nat (d * product l)%nat).
  rewrite IH. lia.
Qed.

Lemma product_app (l k : list nat) : product (l ++ k) = (product l * product k)%nat.
Proof.
  induction l as [|d l IH].
  - change (product k = (1 * product k)%nat). lia.
  - change (d * product (l ++ k) = d * product l * product k)%nat. rewrite IH. lia.
Qed.

(** The dimensions with their positions, as the loop over [i] meets them. *)
Lemma indexed_cons (start : Z) (d : Z) (l : list Z) :
  zip (seqZ start (Z.of_nat (length (d :: l)))) (d :: l)
  = (start, d) :: zip (seqZ (start + 1) (Z.of_nat (length l))) l.
Proof.
  rewrite seqZ_cons by (cbn [length]; lia). cbn [zip zip_with length].
  do 3 f_equal; lia.
Qed.

Lemma indexed_app (start : Z) (l k : list Z) :
  zip (seqZ start (Z.of_nat (length (l ++ k)))) (l ++ k)
  = zip (seqZ start (Z.of_nat (length l))) l
    ++ zip (seqZ (start + Z.of_nat (length l)) (Z.of_nat (length k))) k.
Proof.
  rewrite length_app, Nat2Z.inj_add, seqZ_app by lia.
  apply zip_with_app. by rewrite length_seqZ, Nat2Z.id.
Qed.

(** Dimensions that are neither the batch nor the sequence axis multiply
    the size under [meet]. *)
Lemma merge_segment (batch_axis seq_axis : Z) (l : list nat) (start : Z)
    (ss : list Z) (k : nat) (mbs : Z) :
  (∀ i, start ≤ i < start + Z.of_nat (length l) → i ≠ batch_axis ∧ i ≠ seq_axis) →
  foldl (merge_step batch_axis seq_axis) (mkMerged ss k mbs)
        (zip (seqZ start (Z.of_nat (length l))) (Z.of_nat <$> l))
  = mkMerged (alter (Z.mul (Z.of_nat (product l))) k ss) k mbs.
Proof.
  revert start ss. induction l as [|d l IH]; intros start ss Hother.
  - change (mkMerged ss k mbs = mkMerged (alter (Z.mul 1) k ss) k mbs).
    rewrite list_alter_id; [done|]. intros z. lia.
  - rewrite fmap_cons, <- (length_fmap Z.of_nat (d :: l)), fmap_cons, indexed_cons.
    rewrite length_fmap. cbn [foldl merge_step].
    destruct (Hother start ltac:(cbn [length]; lia)) as [Hb Hs].
    rewrite !decide_False by done. cbn [s meet merged_batch_size].
    rewrite IH by (intros i Hi; apply Hother; cbn [length]; lia).
    f_equal. rewrite list_alter_alter_eq. apply list_alter_ext; [|done].
    intros z _. unfold compose. change (product (d :: l)) with (d * product l)%nat. lia.
Qed.

(** The merged sizes of a tensor [pre x a x mid x b x post] whose two
    distinguished axes are the batch and the sequence axis, in either order. *)
Lemma merge_dims_spec (batch_first : bool) (pre mid post : list nat) (a b : nat)
    (batch_size : Z) :
  let axis1 := Z.of_nat (length pre) in
  let axis2 := Z.of_nat (length pre + 1 + length mid) in
  merge_dims (if batch_first then axis1 else axis2) (if batch_first then axis2 else axis1)
             batch_size (Z.of_nat <$> (pre ++ a :: mid ++ b :: post))
  = mkMerged [Z.of_nat (product pre); Z.of_nat (product mid); Z.of_nat (product post)] 2
             (batch_size * Z.of_nat (if batch_first then product pre else product mid)).
Proof.
  cbn zeta. unfold merge_dims.
  repeat (rewrite fmap_app || rewrite fmap_cons).
  rewrite indexed_app, foldl_app, !length_fmap.
  rewrite merge_segment by (intros i Hi; destruct batch_first; lia).
  rewrite indexed_cons. cbn [foldl]. rewrite ?length_fmap.
  destruct batch_first.
  - cbn [merge_step]. rewrite Z.add_0_l, decide_True by done.
    cbn [s meet merged_batch_size alter list_alter].
    rewrite indexed_app, foldl_app, !length_fmap.
    rewrite merge_segment by (intros i Hi; lia).
    rewrite indexed_cons. cbn [foldl merge_step]. rewrite ?length_fmap.
    rewrite decide_False by lia. rewrite decide_True by lia.
    cbn [s meet merged_batch_size alter list_alter].
    rewrite merge_segment by (intros i Hi; lia).
    cbn [alter list_alter]. change (list_lookup_total 0%nat ?l) with 0.
    f_equal; [|].
    + repeat f_equal; lia.
    + cbn. lia.
  - cbn [merge_step]. rewrite Z.add_0_l.
    rewrite decide_False by lia. rewrite decide_True by done.
    cbn [s meet merged_batch_size alter list_alter].
    rewrite indexed_app, foldl_app, !length_fmap.
    rewrite merge_segment by (intros i Hi; lia).
    rewrite indexed_cons. cbn [foldl merge_step]. rewrite ?length_fmap.
    rewrite decide_True by lia.
    cbn [s meet merged_batch_size alter list_alter].
    rewrite merge_segment by (intros i Hi; lia).
    cbn [alter list_alter].
    f_equal; [|].
    + repeat f_equal; lia.
    + cbn. lia.
Qed.


Lemma radix_inj (W q c q' c' : nat) :
  (c < W)%nat → (c' < W)%nat → (q * W + c = q' * W + c')%nat → q = q' ∧ c = c'.
Proof. intros Hc Hc' Heq. assert (q = q') by nia. subst. lia. Qed.

Lemma radix_lt (Q W q c : nat) : (q < Q)%nat → (c < W)%nat → (q * W + c < Q * W)%nat.
Proof. intros. nia. Qed.


Lemma radix3_inj (B C D a b c d a' b' c' d' : nat) :
  (b < B)%nat → (c < C)%nat → (d < D)%nat → (b' < B)%nat → (c' < C)%nat → (d' < D)%nat →
  (((a * B + b) * C + c) * D + d = ((a' * B + b') * C + c') * D + d')%nat →
  a = a' ∧ b = b' ∧ c = c' ∧ d = d'.
Proof.
  intros Hb Hc Hd Hb' Hc' Hd' Heq.
  apply radix_inj in Heq as [Heq ->]; [|done..].
  apply radix_inj in Heq as [Heq ->]; [|done..].
  apply radix_inj in Heq as [-> ->]; done.
Qed.

Lemma radix3_lt (A B C D a b c d : nat) :
  (a < A)%nat → (b < B)%nat → (c < C)%nat → (d < D)%nat →
  (((a * B + b) * C + c) * D + d < A * B * C * D)%nat.
Proof. intros. by repeat apply radix_lt. Qed.


Lemma seq_len_lookup (lens : list nat) (B m b : nat) :
  (b < B)%nat → (length lens = B ∨ length lens = 1%nat) →
  (Z.of_nat <$> lens)
    !!! Z.to_nat ((Z.of_nat (m * B + b) `rem` Z.of_nat B) `rem` Z.of_nat (length lens))
  = Z.of_nat (seq_len_of lens b).
Proof.
  intros Hb HL.
  assert (0 < length lens)%nat by lia.
  rewrite (Z.rem_mod_nonneg (Z.of_nat (m * B + b))) by lia.
  rewrite Nat2Z.inj_add, Nat2Z.inj_mul, Z.add_comm, Z_mod_plus_full, Z.mod_small by lia.
  rewrite Z.rem_mod_nonneg, <- Nat2Z.inj_mod, Nat2Z.id by lia.
  rewrite (list_lookup_total_fmap Z.of_nat lens); [done|].
  apply Nat.mod_upper_bound. lia.
Qed.

Lemma seq_len_of_le (lens : list nat) (S b : nat) :
  lens ≠ [] → Forall (λ l, 0 < l ≤ S)%nat lens → (0 < seq_len_of lens b ≤ S)%nat.
Proof.
  intros Hne Hall. unfold seq_len_of.
  assert (b mod length lens < length lens)%nat as Hlt.
  { apply Nat.mod_upper_bound. by destruct lens. }
  destruct (lookup_lt_is_Some_2 _ _ Hlt) as [l Hl].
  rewrite (list_lookup_total_correct _ _ _ Hl).
  by apply (Forall_lookup_1 _ _ _ _ Hall Hl).
Qed.

Section Batches.
  Context {TData : Type}.
  Implicit Types (x : list TData).

Lemma read_of_nat x (k : nat) : read x (Z.of_nat k) = x !! k.
Proof. unfold read. rewrite decide_True by lia. by rewrite Nat2Z.id. Qed.

(** The loops over [merged_batch] and [pre] of the [else] branch on a
    tensor seen as [H x S x M x B x T], and of the [batch_axis < seq_axis]
    branch on a tensor seen as [H x B x M x S x T], with the strides they
    use. *)
Definition strided_fold x (H S M B T : nat) (lens : list nat)
    (y0 : list (option TData)) : list (option TData) :=
  foldl (λ y merged_batch,
           foldl (λ y pre,
                    reverse_strided x y
                      (merged_batch * Z.of_nat T
                       + pre * (Z.of_nat (T * (B * M)) * Z.of_nat S))
                      (Z.of_nat (T * (B * M)))
                      ((Z.of_nat <$> lens)
                         !!! Z.to_nat ((merged_batch `rem` Z.of_nat B)
                                       `rem` Z.of_nat (length lens)))
                      (Z.of_nat S) (Z.of_nat T))
                 y (seqZ 0 (Z.of_nat H)))
        y0 (seqZ 0 (Z.of_nat (B * M))).

Definition consecutive_fold x (H B M S T : nat) (lens : list nat)
    (y0 : list (option TData)) : list (option TData) :=
  foldl (λ y merged_batch,
           foldl (λ y pre,
                    reverse_consecutive x y
                      (merged_batch * Z.of_nat (T * S * M) + pre * Z.of_nat (T * S))
                      (Z.of_nat T)
                      ((Z.of_nat <$> lens)
                         !!! Z.to_nat ((merged_batch `rem` Z.of_nat B)
                                       `rem` Z.of_nat (length lens)))
                      (Z.of_nat S) (Z.of_nat T))
                 y (seqZ 0 (Z.of_nat M)))
        y0 (seqZ 0 (Z.of_nat (B * H))).

Lemma strided_loops x (H S M B T : nat) (lens : list nat) :
  (length lens = B ∨ length lens = 1%nat) → Forall (λ l, 0 < l ≤ S)%nat lens →
  Writes (H * S * M * B * T)
    (λ i : nat * nat * nat * nat * nat,
       let '(h, p, m, b, c) := i in
       (h < H)%nat ∧ (p < S)%nat ∧ (m < M)%nat ∧ (b < B)%nat ∧ (c < T)%nat)
    (λ i, let '(h, p, m, b, c) := i in offset [H; S; M; B; T] [h; p; m; b; c])
    (λ i, let '(h, p, m, b, c) := i in
          x !! offset [H; S; M; B; T]
                      [h; source_row false (seq_len_of lens b) S p; m; b; c])
    (strided_fold x H S M B T lens).
Proof.
  intros HL Hlens. unfold strided_fold.
  set (total := (H * S * M * B * T)%nat).
  set (cell := λ (mb pre p c : nat), (((pre * S + p) * (B * M) + mb) * T + c)%nat).
  assert (∀ mb pre p c : nat,
            Z.of_nat mb * Z.of_nat T + Z.of_nat pre * (Z.of_nat (T * (B * M)) * Z.of_nat S)
            + Z.of_nat p * Z.of_nat (T * (B * M)) + Z.of_nat c
            = Z.of_nat (cell mb pre p c)) as Hcell by (intros; unfold cell; lia).
  set (len := λ mb : nat, seq_len_of lens (mb mod B)).
  (* one sequence *)
  assert (∀ mb pre, (mb < B * M)%nat → (pre < H)%nat →
            Writes total (λ pc : nat * nat, (pc.1 < S)%nat ∧ (pc.2 < T)%nat)
              (λ pc, cell mb pre pc.1 pc.2)
              (λ pc, x !! cell mb pre (source_row false (len mb) S pc.1) pc.2)
              (λ y, reverse_strided x y
                      (Z.of_nat mb * Z.of_nat T
                       + Z.of_nat pre * (Z.of_nat (T * (B * M)) * Z.of_nat S))
                      (Z.of_nat (T * (B * M)))
                      ((Z.of_nat <$> lens)
                         !!! Z.to_nat ((Z.of_nat mb `rem` Z.of_nat B)
                                       `rem` Z.of_nat (length lens)))
                      (Z.of_nat S) (Z.of_nat T))) as Hbody.
  { intros mb pre Hmb Hpre.
    assert (0 < B)%nat as HB by nia.
    assert (mb = (mb / B) * B + mb mod B)%nat as Hdm
      by (rewrite Nat.mul_comm; apply Nat.div_mod_eq).
    assert (mb mod B < B)%nat as Hmod by (apply Nat.mod_upper_bound; lia).
    assert ((Z.of_nat <$> lens)
              !!! Z.to_nat ((Z.of_nat mb `rem` Z.of_nat B) `rem` Z.of_nat (length lens))
            = Z.of_nat (len mb)) as ->.
    { unfold len. rewrite <- (seq_len_lookup lens B (mb / B) (mb mod B)) by done.
      by rewrite <- Hdm. }
    assert (0 < len mb ≤ S)%nat as Hlen.
    { apply seq_len_of_le; [|done]. intros ->. cbn in HL. lia. }
    eapply Writes_reindex; [| |apply (reverse_strided_Writes x total _ (T * (B * M)) (len mb) S T)].
    - intros [p c] [Hp Hc]. exists (p, c). cbn [fst snd] in *.
      rewrite !Hcell, Nat2Z.id, read_of_nat. done.
    - intros [p c] [Hp Hc]. exists (p, c). cbn [fst snd] in *.
      rewrite !Hcell, Nat2Z.id. done.
    - assert (0 ≤ Z.of_nat pre * (Z.of_nat (T * (B * M)) * Z.of_nat S))
        by (apply Z.mul_nonneg_nonneg; lia).
      lia.
    - nia.
    - lia.
    - intros p c Hp Hc. rewrite Hcell, Nat2Z.id. unfold cell, total.
      replace (H * S * M * B * T)%nat with (H * S * (B * M) * T)%nat by lia.
      by apply radix3_lt. }
  (* all sequences of one merged batch *)
  assert (∀ mb, (mb < B * M)%nat →
            Writes total
              (λ i : nat * (nat * nat), (i.1 < H)%nat ∧ (i.2.1 < S)%nat ∧ (i.2.2 < T)%nat)
              (λ i, cell mb i.1 i.2.1 i.2.2)
              (λ i, x !! cell mb i.1 (source_row false (len mb) S i.2.1) i.2.2)
              (λ y, foldl (λ y pre,
                             reverse_strided x y
                               (Z.of_nat mb * Z.of_nat T
                                + pre * (Z.of_nat (T * (B * M)) * Z.of_nat S))
                               (Z.of_nat (T * (B * M)))
                               ((Z.of_nat <$> lens)
                                  !!! Z.to_nat ((Z.of_nat mb `rem` Z.of_nat B)
                                                `rem` Z.of_nat (length lens)))
                               (Z.of_nat S) (Z.of_nat T))
                          y (seqZ 0 (Z.of_nat H)))) as Hinner.
  { intros mb Hmb.
    apply (Writes_loop total (λ pc : nat * nat, (pc.1 < S)%nat ∧ (pc.2 < T)%nat)
             (λ pre pc, cell mb pre pc.1 pc.2)
             (λ pre pc, x !! cell mb pre (source_row false (len mb) S pc.1) pc.2)
             (λ pre y, reverse_strided x y
                         (Z.of_nat mb * Z.of_nat T
                          + pre * (Z.of_nat (T * (B * M)) * Z.of_nat S))
                         (Z.of_nat (T * (B * M)))
                         ((Z.of_nat <$> lens)
                            !!! Z.to_nat ((Z.of_nat mb `rem` Z.of_nat B)
                                          `rem` Z.of_nat (length lens)))
                         (Z.of_nat S) (Z.of_nat T)) H).
    - intros pre pre' [p c] [p' c'] _ _ [Hp Hc] [Hp' Hc'] Heq. cbn [fst snd] in *.
      unfold cell in Heq. apply radix3_inj in Heq; [tauto|done..].
    - intros pre Hpre. by apply Hbody. }
  eapply Writes_reindex;
    [| |apply (Writes_loop total
                 (λ i : nat * (nat * nat), (i.1 < H)%nat ∧ (i.2.1 < S)%nat ∧ (i.2.2 < T)%nat)
                 (λ mb i, cell mb i.1 i.2.1 i.2.2)
                 (λ mb i, x !! cell mb i.1 (source_row false (len mb) S i.2.1) i.2.2)
                 _ (B * M))].
  - intros [[[[h p] m] b] c] (Hh & Hp & Hm & Hb & Hc).
    exists ((m * B + b)%nat, (h, (p, c))). cbn [fst snd].
    assert ((m * B + b) mod B = b)%nat as Hmod.
    { rewrite Nat.add_comm, Nat.Div0.mod_add. by apply Nat.mod_small. }
    unfold len. rewrite Hmod. unfold cell, offset. cbn [zip zip_with foldl fst snd].
    split_and!; [nia|done|done|done|f_equal; lia|do 2 f_equal; lia].
  - intros [mb [h [p c]]] (Hmb & Hh & Hp & Hc). cbn [fst snd] in *.
    assert (0 < B)%nat as HB by nia.
    exists (h, p, (mb / B)%nat, (mb mod B)%nat, c).
    assert (mb = (mb / B) * B + mb mod B)%nat as Hdm
      by (rewrite Nat.mul_comm; apply Nat.div_mod_eq).
    assert (mb mod B < B)%nat as Hmod by (apply Nat.mod_upper_bound; lia).
    assert (mb / B < M)%nat by (apply Nat.Div0.div_lt_upper_bound; lia).
    split_and!; [done..|].
    unfold cell, offset. cbn [zip zip_with foldl fst snd]. rewrite Hdm at 3. lia.
  - intros mb mb' [h [p c]] [h' [p' c']] Hmb Hmb' (Hh & Hp & Hc) (Hh' & Hp' & Hc') Heq.
    cbn [fst snd] in *.
    unfold cell in Heq. apply radix3_inj in Heq; [tauto|done..].
  - intros mb Hmb. by apply Hinner.
Qed.

Lemma consecutive_loops x (H B M S T : nat) (lens : list nat) :
  (length lens = B ∨ length lens = 1%nat) → Forall (λ l, 0 < l ≤ S)%nat lens →
  Writes (H * B * M * S * T)
    (λ i : nat * nat * nat * nat * nat,
       let '(h, b, m, p, c) := i in
       (h < H)%nat ∧ (b < B)%nat ∧ (m < M)%nat ∧ (p < S)%nat ∧ (c < T)%nat)
    (λ i, let '(h, b, m, p, c) := i in offset [H; B; M; S; T] [h; b; m; p; c])
    (λ i, let '(h, b, m, p, c) := i in
          x !! offset [H; B; M; S; T]
                      [h; b; m; source_row true (seq_len_of lens b) S p; c])
    (consecutive_fold x H B M S T lens).
Proof.
  intros HL Hlens. unfold consecutive_fold.
  set (total := (H * B * M * S * T)%nat).
  set (cell := λ (mb pre p c : nat), (((mb * M + pre) * S + p) * T + c)%nat).
  assert (∀ mb pre p c : nat,
            Z.of_nat mb * Z.of_nat (T * S * M) + Z.of_nat pre * Z.of_nat (T * S)
            + Z.of_nat p * Z.of_nat T + Z.of_nat c
            = Z.of_nat (cell mb pre p c)) as Hcell by (intros; unfold cell; lia).
  set (len := λ mb : nat, seq_len_of lens (mb mod B)).
  (* one sequence *)
  assert (∀ mb pre, (mb < B * H)%nat → (pre < M)%nat →
            Writes total (λ pc : nat * nat, (pc.1 < S)%nat ∧ (pc.2 < T)%nat)
              (λ pc, cell mb pre pc.1 pc.2)
              (λ pc, x !! cell mb pre (source_row true (len mb) S pc.1) pc.2)
              (λ y, reverse_consecutive x y
                      (Z.of_nat mb * Z.of_nat (T * S * M) + Z.of_nat pre * Z.of_nat (T * S))
                      (Z.of_nat T)
                      ((Z.of_nat <$> lens)
                         !!! Z.to_nat ((Z.of_nat mb `rem` Z.of_nat B)
                                       `rem` Z.of_nat (length lens)))
                      (Z.of_nat S) (Z.of_nat T))) as Hbody.
  { intros mb pre Hmb Hpre.
    assert (0 < B)%nat as HB by nia.
    assert (mb = (mb / B) * B + mb mod B)%nat as Hdm
      by (rewrite Nat.mul_comm; apply Nat.div_mod_eq).
    assert (mb mod B < B)%nat as Hmod by (apply Nat.mod_upper_bound; lia).
    assert ((Z.of_nat <$> lens)
              !!! Z.to_nat ((Z.of_nat mb `rem` Z.of_nat B) `rem` Z.of_nat (length lens))
            = Z.of_nat (len mb)) as ->.
    { unfold len. rewrite <- (seq_len_lookup lens B (mb / B) (mb mod B)) by done.
      by rewrite <- Hdm. }
    assert (0 < len mb ≤ S)%nat as Hlen.
    { apply seq_len_of_le; [|done]. intros ->. cbn in HL. lia. }
    eapply Writes_reindex; [| |apply (reverse_consecutive_Writes x total _ (len mb) S T)].
    - intros [p c] [Hp Hc]. exists (p, c). cbn [fst snd] in *.
      rewrite !Hcell, Nat2Z.id, read_of_nat. done.
    - intros [p c] [Hp Hc]. exists (p, c). cbn [fst snd] in *.
      rewrite !Hcell, Nat2Z.id. done.
    - lia.
    - lia.
    - intros p c Hp Hc. rewrite Hcell, Nat2Z.id. unfold cell, total.
      replace (H * B * M * S * T)%nat with (B * H * M * S * T)%nat by lia.
      by apply radix3_lt. }
  (* all sequences of one merged batch *)
  assert (∀ mb, (mb < B * H)%nat →
            Writes total
              (λ i : nat * (nat * nat), (i.1 < M)%nat ∧ (i.2.1 < S)%nat ∧ (i.2.2 < T)%nat)
              (λ i, cell mb i.1 i.2.1 i.2.2)
              (λ i, x !! cell mb i.1 (source_row true (len mb) S i.2.1) i.2.2)
              (λ y, foldl (λ y pre,
                             reverse_consecutive x y
                               (Z.of_nat mb * Z.of_nat (T * S * M) + pre * Z.of_nat (T * S))
                               (Z.of_nat T)
                               ((Z.of_nat <$> lens)
                                  !!! Z.to_nat ((Z.of_nat mb `rem` Z.of_nat B)
                                                `rem` Z.of_nat (length lens)))
                               (Z.of_nat S) (Z.of_nat T))
                          y (seqZ 0 (Z.of_nat M)))) as Hinner.
  { intros mb Hmb.
    apply (Writes_loop total (λ pc : nat * nat, (pc.1 < S)%nat ∧ (pc.2 < T)%nat)
             (λ pre pc, cell mb pre pc.1 pc.2)
             (λ pre pc, x !! cell mb pre (source_row true (len mb) S pc.1) pc.2)
             (λ pre y, reverse_consecutive x y
                         (Z.of_nat mb * Z.of_nat (T * S * M) + pre * Z.of_nat (T * S))
                         (Z.of_nat T)
                         ((Z.of_nat <$> lens)
                            !!! Z.to_nat ((Z.of_nat mb `rem` Z.of_nat B)
                                          `rem` Z.of_nat (length lens)))
                         (Z.of_nat S) (Z.of_nat T)) M).
    - intros pre pre' [p c] [p' c'] Hpre Hpre' [Hp Hc] [Hp' Hc'] Heq. cbn [fst snd] in *.
      unfold cell in Heq. apply radix3_inj in Heq; [tauto|done..].
    - intros pre Hpre. by apply Hbody. }
  eapply Writes_reindex;
    [| |apply (Writes_loop total
                 (λ i : nat * (nat * nat), (i.1 < M)%nat ∧ (i.2.1 < S)%nat ∧ (i.2.2 < T)%nat)
                 (λ mb i, cell mb i.1 i.2.1 i.2.2)
                 (λ mb i, x !! cell mb i.1 (source_row true (len mb) S i.2.1) i.2.2)
                 _ (B * H))].
  - intros [[[[h b] m] p] c] (Hh & Hb & Hm & Hp & Hc).
    exists ((h * B + b)%nat, (m, (p, c))). cbn [fst snd].
    assert ((h * B + b) mod B = b)%nat as Hmod.
    { rewrite Nat.add_comm, Nat.Div0.mod_add. by apply Nat.mod_small. }
    unfold len. rewrite Hmod. unfold cell, offset. cbn [zip zip_with foldl fst snd].
    split_and!; [nia|done|done|done|f_equal; lia|do 2 f_equal; lia].
  - intros [mb [m [p c]]] (Hmb & Hm & Hp & Hc). cbn [fst snd] in *.
    assert (0 < B)%nat as HB by nia.
    exists ((mb / B)%nat, (mb mod B)%nat, m, p, c).
    assert (mb = (mb / B) * B + mb mod B)%nat as Hdm
      by (rewrite Nat.mul_comm; apply Nat.div_mod_eq).
    assert (mb mod B < B)%nat as Hmod by (apply Nat.mod_upper_bound; lia).
    assert (mb / B < H)%nat by (apply Nat.Div0.div_lt_upper_bound; lia).
    split_and!; [done..|].
    unfold cell, offset. cbn [zip zip_with foldl fst snd]. rewrite Hdm at 3. lia.
  - intros mb mb' [m [p c]] [m' [p' c']] Hmb Hmb' (Hm & Hp & Hc) (Hm' & Hp' & Hc') Heq.
    cbn [fst snd] in *.
    unfold cell in Heq. apply radix3_inj in Heq; [tauto|done..].
  - intros mb Hmb. by apply Hinner.
Qed.
End Batches.

Section Kernel.
  Context {TData : Type}.
  Implicit Types (x : list TData).

Lemma lengths_checked (lens : list nat) (S : nat) :
  Forall (λ l, 0 < l ≤ S)%nat lens →
  forallb (λ i, bool_decide (0 < (Z.of_nat <$> lens) !!! Z.to_nat i ∧
                             (Z.of_nat <$> lens) !!! Z.to_nat i ≤ Z.of_nat S))
          (seqZ 0 (Z.of_nat (length lens))) = true.
Proof.
  intros Hall. apply forallb_forall. intros i Hi%list_elem_of_In%elem_of_seqZ.
  apply bool_decide_eq_true.
  assert (Z.to_nat i < length lens)%nat as Hlt by lia.
  rewrite (list_lookup_total_fmap Z.of_nat lens) by done.
  destruct (lookup_lt_is_Some_2 _ _ Hlt) as [l Hl].
  rewrite (list_lookup_total_correct _ _ _ Hl).
  pose proof (Forall_lookup_1 _ _ _ _ Hall Hl). cbn beta in *. lia.
Qed.

Lemma dims_lookup (pre mid post : list nat) (a b : nat) :
  let dims := Z.of_nat <$> (pre ++ a :: mid ++ b :: post) in
  Z.of_nat (length dims) = Z.of_nat (length pre + 1 + length mid + 1 + length post) ∧
  dims !!! length pre = Z.of_nat a ∧
  dims !!! (length pre + 1 + length mid)%nat = Z.of_nat b ∧
  Size dims = Z.of_nat (product pre * a * product mid * b * product post).
Proof.
  cbn zeta. split_and!.
  - rewrite length_fmap, !length_app. cbn [length]. rewrite length_app. cbn [length]. lia.
  - apply list_lookup_total_correct. rewrite list_lookup_fmap, list_lookup_middle; done.
  - apply list_lookup_total_correct. rewrite list_lookup_fmap.
    rewrite lookup_app_r by lia.
    replace (length pre + 1 + length mid - length pre)%nat with (S (length mid)) by lia.
    rewrite lookup_cons_ne_0 by done. cbn [pred]. by rewrite list_lookup_middle.
  - rewrite Size_of_nat. f_equal.
    rewrite product_app. change (product (a :: ?l)) with (a * product l)%nat.
    rewrite product_app. change (product (b :: ?l)) with (b * product l)%nat. lia.
Qed.

(** With the sequence axis in front of the batch axis the checks pass and
    the kernel runs the strided loops on the merged shape. *)
Lemma time_major_run (pre mid post : list nat) (S B : nat) x (lens : list nat) :
  (length lens = B ∨ length lens = 1%nat) → Forall (λ l, 0 < l ≤ S)%nat lens →
  ComputeImpl (Z.of_nat (length pre + 1 + length mid)) (Z.of_nat (length pre))
              (Z.of_nat <$> (pre ++ S :: mid ++ B :: post)) x
              [Z.of_nat (length lens)] (Z.of_nat <$> lens)
  = Returned (Status_OK,
              strided_fold x (product pre) S (product mid) B (product post) lens
                (replicate (product pre * S * product mid * B * product post) None)).
Proof.
  intros HL Hlens. set (H := product pre). set (M := product mid). set (T := product post).
  destruct (dims_lookup pre mid post S B) as (Hnum & HS & HB & Hsize).
  unfold ComputeImpl.
  rewrite Hnum, !Nat2Z.id, HS, HB.
  rewrite !bool_decide_eq_true_2 by lia. cbn [negb].
  change (Z.of_nat (length [Z.of_nat (length lens)])) with 1.
  rewrite (bool_decide_eq_true_2 (1 = 0 ∨ 1 = 1)) by lia. cbn [negb].
  change (Size [Z.of_nat (length lens)]) with (Z.of_nat (length lens) * 1).
  rewrite Z.mul_1_r.
  rewrite (bool_decide_eq_true_2 (_ ∨ _)) by lia. cbn [negb].
  rewrite lengths_checked by done. cbn [negb].
  rewrite (merge_dims_spec false pre mid post S B). cbn [s meet merged_batch_size].
  destruct (decide (Z.of_nat (length pre + 1 + length mid) < Z.of_nat (length pre)))
    as [?|_]; [lia|].
  change ([Z.of_nat (product pre); Z.of_nat (product mid); Z.of_nat (product post)]
            !!! 2%nat) with (Z.of_nat T).
  change ([Z.of_nat (product pre); Z.of_nat (product mid); Z.of_nat (product post)]
            !!! 0%nat) with (Z.of_nat H).
  cbv beta iota zeta. rewrite Hsize, Nat2Z.id.
  fold H M T. do 2 f_equal.
  unfold strided_fold. rewrite <- !Nat2Z.inj_mul. reflexivity.
Qed.

(** X9: with the sequence axis in front of the batch axis, on an input of
    any rank whose shape is [pre ++ S :: mid ++ B :: post] (seen as
    [H x S x M x B x T]) and with one sequence length per batch or one for
    all, each in [1 .. S], the kernel returns OK and an output of the
    input's size whose cell [(h, p, m, b, c)] holds the input's cell
    [(h, p', m, b, c)], where [p'] is [len_b - 1 - p] for [p < len_b] and
    [p] itself otherwise: the first [len_b] positions of every sequence
    are reversed and the others are copied. *)
Theorem ComputeImpl_time_major (pre mid post : list nat) (S B : nat) x (lens : list nat) :
  (length lens = B ∨ length lens = 1%nat) → Forall (λ l, 0 < l ≤ S)%nat lens →
  let H := product pre in
  let M := product mid in
  let T := product post in
  ∃ y, ComputeImpl (Z.of_nat (length pre + 1 + length mid)) (Z.of_nat (length pre))
                   (Z.of_nat <$> (pre ++ S :: mid ++ B :: post)) x
                   [Z.of_nat (length lens)] (Z.of_nat <$> lens)
       = Returned (Status_OK, y) ∧
       length y = (H * S * M * B * T)%nat ∧
       ∀ h p m b c, (h < H)%nat → (p < S)%nat → (m < M)%nat → (b < B)%nat → (c < T)%nat →
         y !! offset [H; S; M; B; T] [h; p; m; b; c]
         = Some (x !! offset [H; S; M; B; T]
                             [h; source_row false (seq_len_of lens b) S p; m; b; c]).
Proof.
  intros HL Hlens H M T.
  rewrite time_major_run by done. fold H M T.
  eexists. split; [reflexivity|].
  destruct (strided_loops x H S M B T lens HL Hlens
              (replicate (H * S * M * B * T) None)) as (Hlen & Hin & _).
  { apply length_replicate. }
  split; [done|].
  intros h p m b c Hh Hp Hm Hb Hc.
  apply (Hin (h, p, m, b, c)). done.
Qed.

(** With the batch axis in front of the sequence axis the checks pass and
    the kernel runs the matrix loops on the merged shape. *)
Lemma batch_major_run (pre mid post : list nat) (B S : nat) x (lens : list nat) :
  (length lens = B ∨ length lens = 1%nat) → Forall (λ l, 0 < l ≤ S)%nat lens →
  ComputeImpl (Z.of_nat (length pre)) (Z.of_nat (length pre + 1 + length mid))
              (Z.of_nat <$> (pre ++ B :: mid ++ S :: post)) x
              [Z.of_nat (length lens)] (Z.of_nat <$> lens)
  = Returned (Status_OK,
              consecutive_fold x (product pre) B (product mid) S (product post) lens
                (replicate (product pre * B * product mid * S * product post) None)).
Proof.
  intros HL Hlens. set (H := product pre). set (M := product mid). set (T := product post).
  destruct (dims_lookup pre mid post B S) as (Hnum & HB & HS & Hsize).
  unfold ComputeImpl.
  rewrite Hnum, !Nat2Z.id, HS, HB.
  rewrite !bool_decide_eq_true_2 by lia. cbn [negb].
  change (Z.of_nat (length [Z.of_nat (length lens)])) with 1.
  rewrite (bool_decide_eq_true_2 (1 = 0 ∨ 1 = 1)) by lia. cbn [negb].
  change (Size [Z.of_nat (length lens)]) with (Z.of_nat (length lens) * 1).
  rewrite Z.mul_1_r.
  rewrite (bool_decide_eq_true_2 (_ ∨ _)) by lia. cbn [negb].
  rewrite lengths_checked by done. cbn [negb].
  rewrite (merge_dims_spec true pre mid post B S). cbn [s meet merged_batch_size].
  destruct (decide (Z.of_nat (length pre) < Z.of_nat (length pre + 1 + length mid)))
    as [_|?]; [|lia].
  change ([Z.of_nat (product pre); Z.of_nat (product mid); Z.of_nat (product post)]
            !!! 2%nat) with (Z.of_nat T).
  change ([Z.of_nat (product pre); Z.of_nat (product mid); Z.of_nat (product post)]
            !!! 1%nat) with (Z.of_nat M).
  cbv beta iota zeta. rewrite Hsize, Nat2Z.id.
  fold H M T. do 2 f_equal.
  unfold consecutive_fold. rewrite <- !Nat2Z.inj_mul. reflexivity.
Qed.

(** X10: with the batch axis in front of the sequence axis, on an input
    of any rank whose shape is [pre ++ B :: mid ++ S :: post] (seen as
    [H x B x M x S x T]), the kernel returns OK and an output of the
    input's size whose cell [(h, b, m, p, c)] holds the input's cell
    [(h, b, m, p', c)], where [p'] is [len_b - 1 - p] for [p < len_b] and
    [len_b + (S - 1 - p)] otherwise: the first [len_b] positions of every
    sequence are reversed, and so are the positions after them, among
    themselves. *)
Theorem ComputeImpl_batch_major (pre mid post : list nat) (B S : nat) x (lens : list nat) :
  (length lens = B ∨ length lens = 1%nat) → Forall (λ l, 0 < l ≤ S)%nat lens →
  let H := product pre in
  let M := product mid in
  let T := product post in
  ∃ y, ComputeImpl (Z.of_nat (length pre)) (Z.of_nat (length pre + 1 + length mid))
                   (Z.of_nat <$> (pre ++ B :: mid ++ S :: post)) x
                   [Z.of_nat (length lens)] (Z.of_nat <$> lens)
       = Returned (Status_OK, y) ∧
       length y = (H * B * M * S * T)%nat ∧
       ∀ h b m p c, (h < H)%nat → (b < B)%nat → (m < M)%nat → (p < S)%nat → (c < T)%nat →
         y !! offset [H; B; M; S; T] [h; b; m; p; c]
         = Some (x !! offset [H; B; M; S; T]
                             [h; b; m; source_row true (seq_len_of lens b) S p; c]).
Proof.
  intros HL Hlens H M T.
  rewrite batch_major_run by done. fold H M T.
  eexists. split; [reflexivity|].
  destruct (consecutive_loops x H B M S T lens HL Hlens
              (replicate (H * B * M * S * T) None)) as (Hlen & Hin & _).
  { apply length_replicate. }
  split; [done|].
  intros h b m p c Hh Hb Hm Hp Hc.
  apply (Hin (h, b, m, p, c)). done.
Qed.
End Kernel.

(** *** Reversing twice *)

Lemma source_row_involutive (consecutive : bool) (len S p : nat) :
  (0 < len ≤ S)%nat → (p < S)%nat →
  (source_row consecutive len S p < S)%nat ∧
  source_row consecutive len S (source_row consecutive len S p) = p.
Proof.
  intros Hlen Hp. unfold source_row.
  destruct consecutive; repeat case_decide; lia.
Qed.

(** Every position of a buffer of [A * B * C * D * E] cells is the
    position of one cell of the five-dimensional tensor. *)
Lemma offset_onto (A B C D E k : nat) :
  (k < A * B * C * D * E)%nat →
  ∃ a b c d e, (a < A)%nat ∧ (b < B)%nat ∧ (c < C)%nat ∧ (d < D)%nat ∧ (e < E)%nat ∧
               k = offset [A; B; C; D; E] [a; b; c; d; e].
Proof.
  intros Hk.
  assert (0 < E)%nat by (destruct E; lia).
  assert (0 < D)%nat by (destruct D; lia).
  assert (0 < C)%nat by (destruct C; lia).
  assert (0 < B)%nat by (destruct B; lia).
  exists (k / E / D / C / B)%nat, (k / E / D / C mod B)%nat, (k / E / D mod C)%nat,
         (k / E mod D)%nat, (k mod E)%nat.
  split_and!; try (apply Nat.mod_upper_bound; lia).
  - repeat (apply Nat.Div0.div_lt_upper_bound). lia.
  - unfold offset. cbn [zip zip_with foldl fst snd].
    pose proof (Nat.div_mod_eq k E).
    pose proof (Nat.div_mod_eq (k / E) D).
    pose proof (Nat.div_mod_eq (k / E / D) C).
    pose proof (Nat.div_mod_eq (k / E / D / C) B).
    lia.
Qed.

Section RoundTrip.
  Context {TData : Type}.
  Implicit Types (x : list TData) (y : list (option TData)).

Lemma all_written y :
  (∀ k, (k < length y)%nat → ∃ v, y !! k = Some (Some v)) → ∃ x, y = Some <$> x.
Proof.
  induction y as [|o y IH]; intros Hall; [by exists []|].
  destruct (Hall 0%nat) as [v Hv]; [cbn; lia|]. injection Hv as ->.
  destruct IH as [x ->].
  { intros k Hk. apply (Hall (S k)). cbn. lia. }
  by exists (v :: x).
Qed.

(** A kernel that puts into every cell the input's cell at the image of
    an involution of the cells gives the input back when run twice. *)
Lemma involution_round_trip {I : Type} (L : nat) (valid : I → Prop) (cell : I → nat)
    (σ : I → I) (run : list TData → list (option TData) → list (option TData)) :
  (∀ x, Writes L valid cell (λ i, x !! cell (σ i)) (run x)) →
  (∀ i, valid i → valid (σ i) ∧ σ (σ i) = i) →
  (∀ i, valid i → (cell i < L)%nat) →
  (∀ k, (k < L)%nat → ∃ i, valid i ∧ k = cell i) →
  ∀ x, length x = L →
       ∃ x', run x (replicate L None) = Some <$> x' ∧ length x' = L ∧
             run x' (replicate L None) = Some <$> x.
Proof.
  intros Hrun Hσ Hcell Honto x Hx.
  destruct (Hrun x (replicate L None)) as (Hlen & Hin & _); [apply length_replicate|].
  destruct (all_written (run x (replicate L None))) as [x' Hx'].
  { intros k Hk. rewrite Hlen in Hk. destruct (Honto k Hk) as (i & Hi & ->).
    rewrite (Hin i Hi). destruct (Hσ i Hi) as [Hvalid _].
    destruct (lookup_lt_is_Some_2 x (cell (σ i))) as [v Hv]; [rewrite Hx; by apply Hcell|].
    exists v. by rewrite Hv. }
  assert (length x' = L) as Hlen' by (by rewrite Hx', length_fmap in Hlen).
  exists x'. split_and!; [done..|].
  destruct (Hrun x' (replicate L None)) as (Hlen2 & Hin2 & _); [apply length_replicate|].
  apply list_eq. intros k. destruct (decide (k < L)%nat) as [Hk|Hk].
  - destruct (Honto k Hk) as (i & Hi & ->). destruct (Hσ i Hi) as [Hvalid Hinv].
    rewrite (Hin2 i Hi), list_lookup_fmap.
    pose proof (Hin (σ i) Hvalid) as Hfirst. rewrite Hinv, Hx', list_lookup_fmap in Hfirst.
    destruct (lookup_lt_is_Some_2 x (cell i)) as [v Hv]; [rewrite Hx; by apply Hcell|].
    rewrite Hv in Hfirst |- *. cbn. destruct (x' !! cell (σ i)); by simplify_eq/=.
  - rewrite !lookup_ge_None_2; [done|rewrite length_fmap; lia|lia].
Qed.

(** X17: reversing twice gives the input back, in both layouts: on an
    input of any rank with one element per cell of its shape, with the
    batch axis before or after the sequence axis and one sequence length
    per batch or one for all, each in [1 .. S], the kernel returns OK with
    every cell of the output written, and run on that output with the same
    lengths it returns the input. *)
Theorem ComputeImpl_involution (batch_first : bool) (pre mid post : list nat) (S B : nat)
    x (lens : list nat) :
  (length lens = B ∨ length lens = 1%nat) → Forall (λ l, 0 < l ≤ S)%nat lens →
  length x = (product pre * S * product mid * B * product post)%nat →
  let first := length pre in
  let second := (length pre + 1 + length mid)%nat in
  let batch_axis := Z.of_nat (if batch_first then first else second) in
  let seq_axis := Z.of_nat (if batch_first then second else first) in
  let dims := Z.of_nat <$> (pre ++ (if batch_first then B else S) :: mid ++
                                   (if batch_first then S else B) :: post) in
  let seq_lengths := Z.of_nat <$> lens in
  ∃ x', ComputeImpl batch_axis seq_axis dims x [Z.of_nat (length lens)] seq_lengths
        = Returned (Status_OK, Some <$> x') ∧
        length x' = length x ∧
        ComputeImpl batch_axis seq_axis dims x' [Z.of_nat (length lens)] seq_lengths
        = Returned (Status_OK, Some <$> x).
Proof.
  intros HL Hlens Hx. cbn zeta.
  set (H := product pre) in *. set (M := product mid) in *. set (T := product post) in *.
  assert (∀ b, (b < B)%nat → (0 < seq_len_of lens b ≤ S)%nat) as Hlen_b.
  { intros b Hb. apply seq_len_of_le; [|done]. intros ->. cbn in HL. lia. }
  destruct batch_first.
  - destruct (involution_round_trip (H * B * M * S * T)
                (λ i : nat * nat * nat * nat * nat,
                   let '(h, b, m, p, c) := i in
                   (h < H)%nat ∧ (b < B)%nat ∧ (m < M)%nat ∧ (p < S)%nat ∧ (c < T)%nat)
                (λ i, let '(h, b, m, p, c) := i in offset [H; B; M; S; T] [h; b; m; p; c])
                (λ i, let '(h, b, m, p, c) := i in
                      (h, b, m, source_row true (seq_len_of lens b) S p, c))
                (λ x, consecutive_fold x H B M S T lens)) with (x := x)
      as (x' & Hrun & Hlen' & Hback).
    + intros x0. pose proof (consecutive_loops x0 H B M S T lens HL Hlens) as Hw.
      intros y Hy. destruct (Hw y Hy) as (H1 & H2 & H3). split_and!; [done| |done].
      intros [[[[h b] m] p] c] Hi. by rewrite (H2 (h, b, m, p, c) Hi).
    + intros [[[[h b] m] p] c] (Hh & Hb & Hm & Hp & Hc).
      destruct (source_row_involutive true (seq_len_of lens b) S p) as [Hlt Hinv];
        [by apply Hlen_b|done|].
      split; [done|]. by rewrite Hinv.
    + intros [[[[h b] m] p] c] (Hh & Hb & Hm & Hp & Hc).
      unfold offset. cbn [zip zip_with foldl fst snd]. rewrite Nat.mul_0_l, Nat.add_0_l.
      by apply radix_lt; [apply radix3_lt|].
    + intros k Hk. destruct (offset_onto H B M S T k Hk)
        as (h & b & m & p & c & Hh & Hb & Hm & Hp & Hc & ->).
      by exists (h, b, m, p, c).
    + lia.
    + exists x'. rewrite !batch_major_run by done. fold H M T.
      split_and!; [by rewrite Hrun|lia|by rewrite Hback].
  - destruct (involution_round_trip (H * S * M * B * T)
                (λ i : nat * nat * nat * nat * nat,
                   let '(h, p, m, b, c) := i in
                   (h < H)%nat ∧ (p < S)%nat ∧ (m < M)%nat ∧ (b < B)%nat ∧ (c < T)%nat)
                (λ i, let '(h, p, m, b, c) := i in offset [H; S; M; B; T] [h; p; m; b; c])
                (λ i, let '(h, p, m, b, c) := i in
                      (h, source_row false (seq_len_of lens b) S p, m, b, c))
                (λ x, strided_fold x H S M B T lens)) with (x := x)
      as (x' & Hrun & Hlen' & Hback).
    + intros x0. pose proof (strided_loops x0 H S M B T lens HL Hlens) as Hw.
      intros y Hy. destruct (Hw y Hy) as (H1 & H2 & H3). split_and!; [done| |done].
      intros [[[[h p] m] b] c] Hi. by rewrite (H2 (h, p, m, b, c) Hi).
    + intros [[[[h p] m] b] c] (Hh & Hp & Hm & Hb & Hc).
      destruct (source_row_involutive false (seq_len_of lens b) S p) as [Hlt Hinv];
        [by apply Hlen_b|done|].
      split; [done|]. by rewrite Hinv.
    + intros [[[[h p] m] b] c] (Hh & Hp & Hm & Hb & Hc).
      unfold offset. cbn [zip zip_with foldl fst snd]. rewrite Nat.mul_0_l, Nat.add_0_l.
      by apply radix_lt; [apply radix3_lt|].
    + intros k Hk. destruct (offset_onto H S M B T k Hk)
        as (h & p & m & b & c & Hh & Hp & Hm & Hb & Hc & ->).
      by exists (h, p, m, b, c).
    + lia.
    + exists x'. rewrite !time_major_run by done. fold H M T.
      split_and!; [by rewrite Hrun|lia|by rewrite Hback].
Qed.
End RoundTrip.

(** Sequences [(1, 3, 5)] and [(2, 4, 6)] of two batches with lengths 1
    and 2, sequence axis first. *)
Lemma ComputeImpl_time_major_witness :
  ∃ y, ComputeImpl 1 0 [3; 2; 1] [1; 2; 3; 4; 5; 6] [2] [1; 2] = Returned (Status_OK, y) ∧
       length y = 6%nat ∧
       y !! 1%nat = Some (Some 4) ∧ y !! 3%nat = Some (Some 2) ∧ y !! 5%nat = Some (Some 6).
Proof.
  destruct (ComputeImpl_time_major [] [] [1%nat] 3 2 [1; 2; 3; 4; 5; 6] [1%nat; 2%nat])
    as (y & Hy & Hlen & Hcells).
  - by left.
  - repeat constructor.
  - exists y. split_and!; [exact Hy|exact Hlen| | |].
    + apply (Hcells 0 0 0 1 0)%nat; cbn; lia.
    + apply (Hcells 0 1 0 1 0)%nat; cbn; lia.
    + apply (Hcells 0 2 0 1 0)%nat; cbn; lia.
Defined.

(** One batch [(1, 2, 3, 4)] with length 2, batch axis first. *)
Lemma ComputeImpl_batch_major_witness :
  ∃ y, ComputeImpl 0 1 [1; 4; 1] [1; 2; 3; 4] [1] [2] = Returned (Status_OK, y) ∧
       length y = 4%nat ∧
       y !! 0%nat = Some (Some 2) ∧ y !! 1%nat = Some (Some 1) ∧
       y !! 2%nat = Some (Some 4) ∧ y !! 3%nat = Some (Some 3).
Proof.
  destruct (ComputeImpl_batch_major [] [] [1%nat] 1 4 [1; 2; 3; 4] [2%nat])
    as (y & Hy & Hlen & Hcells).
  - by left.
  - repeat constructor.
  - exists y. split_and!; [exact Hy|exact Hlen| | | |].
    + apply (Hcells 0 0 0 0 0)%nat; cbn; lia.
    + apply (Hcells 0 0 0 1 0)%nat; cbn; lia.
    + apply (Hcells 0 0 0 2 0)%nat; cbn; lia.
    + apply (Hcells 0 0 0 3 0)%nat; cbn; lia.
Defined.

(** One batch [(1, 2, 3, 4)] with length 2, batch axis first, twice. *)
Lemma ComputeImpl_involution_witness :
  ∃ x', ComputeImpl 0 1 [1; 4; 1] [1; 2; 3; 4] [1] [2] = Returned (Status_OK, Some <$> x') ∧
        length x' = 4%nat ∧
        ComputeImpl 0 1 [1; 4; 1] x' [1] [2] = Returned (Status_OK, Some <$> [1; 2; 3; 4]).
Proof.
  apply (ComputeImpl_involution true [] [] [1%nat] 4 1 [1; 2; 3; 4] [2%nat]).
  - by left.
  - repeat constructor.
  - reflexivity.
Defined.
End ReverseSequenceFacts.

(** ** EyeLike *)

Module EyeLikeFacts.
Import EyeLike.
Local Open Scope Z_scope.

Lemma wrong_rank_rejected {T} (zero one : T) (k : Z) (dims : list Z) :
  length dims ≠ 2%nat →
  ComputeImpl zero one k dims
  = (mkStatus INVALID_ARGUMENT "EyeLike : Input tensor dimension is not 2", None).
Proof.
  intros Hlen. unfold ComputeImpl.
  rewrite bool_decide_eq_false_2 by done. reflexivity.
Qed.

Lemma empty_diagonal_noop {T} (one : T) (rows cols k : Z) (m : list T) :
  diagonal_size rows cols k ≤ 0 → set_diagonal one rows cols k m = m.
Proof. intros Hn. unfold set_diagonal. rewrite seqZ_nil by done. reflexivity. Qed.

(** C10: for a 2-D input [[rows; cols]] and an offset [k] with
    [k >= cols] (when [k >= 0]) or [|k| >= rows] (when [k < 0]) the kernel
    returns OK and the all-zero tensor of that shape; an input of any
    other rank gets INVALID_ARGUMENT and no output. *)
Theorem out_of_range_diagonal_gives_zeros {T} (zero one : T) (k : Z) :
  (∀ rows cols : Z,
      0 ≤ rows ≤ INT64_MAX → 0 ≤ cols ≤ INT64_MAX → is_int64 k →
      (k >= 0 ∧ k >= cols) ∨ (k < 0 ∧ Z.abs k >= rows) →
      ComputeImpl zero one k [rows; cols]
      = (Status_OK, Some (replicate (Z.to_nat (rows * cols)) zero))) ∧
  (∀ dims : list Z,
      length dims ≠ 2%nat →
      Code (fst (ComputeImpl zero one k dims)) = INVALID_ARGUMENT ∧
      snd (ComputeImpl zero one k dims) = None).
Proof.
  split.
  - intros rows cols Hr Hc Hk Hrange. unfold ComputeImpl.
    rewrite bool_decide_eq_true_2 by done. cbn [negb].
    change ([rows; cols] !!! 0%nat) with rows.
    change ([rows; cols] !!! 1%nat) with cols.
    case_bool_decide as Hguard; [reflexivity|].
    (* the guard fails only for the most negative offset *)
    assert (k = INT64_MIN) as ->.
    { unfold abs64 in Hguard. case_decide; [done|]. exfalso. apply Hguard. lia. }
    rewrite empty_diagonal_noop; [reflexivity|].
    unfold diagonal_size, INT64_MIN, INT64_MAX in *.
    rewrite decide_True by lia. lia.
  - intros dims Hlen. by rewrite wrong_rank_rejected.
Qed.

Lemma out_of_range_diagonal_witness :
  EyeLike.ComputeImpl 0 1 4 [3; 4] = (Status_OK, Some (replicate 12 0)) ∧
  Code (fst (EyeLike.ComputeImpl 0 1 4 [3; 4; 5])) = INVALID_ARGUMENT.
Proof.
  destruct (out_of_range_diagonal_gives_zeros 0 1 4) as [Hzero Hrank].
  split.
  - apply (Hzero 3 4); unfold is_int64, INT64_MAX, INT64_MIN; lia.
  - apply (Hrank [3; 4; 5]). simpl. lia.
Defined.

Section Diagonal.
  Context {T : Type} (zero one : T).

(** Cells of a [rows x cols] row-major buffer are told apart by their
    coordinates. *)
Lemma cell_inj (cols r c r' c' : Z) :
  0 ≤ c < cols → 0 ≤ c' < cols → 0 ≤ r → 0 ≤ r' →
  Z.to_nat (r * cols + c) = Z.to_nat (r' * cols + c') → r = r' ∧ c = c'.
Proof.
  intros Hc Hc' Hr Hr' Heq.
  assert (r * cols + c = r' * cols + c') as Heq' by nia.
  assert (r = r') by nia. subst r'. lia.
Qed.

(** The first [n] coefficients of the diagonal are set and no other cell
    is touched. *)
Lemma set_cells (m : list T) (f : Z → nat) (n : nat) :
  let m' := foldl (λ m i, <[f i := one]> m) m (seqZ 0 (Z.of_nat n)) in
  length m' = length m ∧
  (∀ i, 0 ≤ i < Z.of_nat n → (f i < length m)%nat → m' !! f i = Some one) ∧
  (∀ q, (∀ i, 0 ≤ i < Z.of_nat n → f i ≠ q) → m' !! q = m !! q).
Proof.
  induction n as [|n IH]; cbn zeta.
  - split_and!; [done|lia|done].
  - cbn zeta in IH. destruct IH as (Hlen & Hin & Hout).
    rewrite seqZ_S, foldl_app. cbn [foldl]. rewrite Z.add_0_l.
    set (m' := foldl _ m (seqZ 0 (Z.of_nat n))) in *.
    split_and!.
    + by rewrite length_insert.
    + intros i Hi Hlt. destruct (decide (f i = f (Z.of_nat n))) as [Heq|Hne].
      * rewrite Heq. apply list_lookup_insert_eq. rewrite <- Heq. lia.
      * rewrite list_lookup_insert_ne by done. apply Hin; [|done].
        destruct (decide (i = Z.of_nat n)) as [->|]; [done|lia].
    + intros q Hq. rewrite list_lookup_insert_ne by (apply Hq; lia).
      apply Hout. intros i Hi. apply Hq. lia.
Qed.

(** X2: for a 2-D input [[rows; cols]] and an offset [k] with
    [-rows < k < cols] the kernel returns OK and an output of [rows * cols]
    cells in which cell [(i, j)] is one when [j - i = k] and zero
    otherwise. *)
Theorem in_range_diagonal_is_written (k rows cols : Z) :
  0 ≤ rows → 0 ≤ cols → - rows < k < cols →
  ∃ out, ComputeImpl zero one k [rows; cols] = (Status_OK, Some out) ∧
         length out = Z.to_nat (rows * cols) ∧
         ∀ i j, 0 ≤ i < rows → 0 ≤ j < cols →
                out !! Z.to_nat (i * cols + j)
                = Some (if decide (j - i = k) then one else zero).
Proof.
  intros Hrows Hcols Hk. unfold ComputeImpl.
  rewrite bool_decide_eq_true_2 by done. cbn [negb].
  change ([rows; cols] !!! 0%nat) with rows.
  change ([rows; cols] !!! 1%nat) with cols.
  rewrite bool_decide_eq_false_2.
  2:{ unfold abs64. case_decide; unfold INT64_MIN in *; lia. }
  eexists. split; [reflexivity|].
  unfold set_diagonal.
  assert (0 ≤ diagonal_size rows cols k) as Hsize
    by (unfold diagonal_size; case_decide; lia).
  set (f := λ i : Z, Z.to_nat ((if decide (k < 0) then i - k else i) * cols
                              + (if decide (k < 0) then i else i + k))).
  assert (∀ m l, foldl (λ (m : list T) (i : Z),
                          let '(r, c) := if decide (k < 0) then (i - k, i) else (i, i + k) in
                          <[Z.to_nat (r * cols + c) := one]> m) m l
                 = foldl (λ m i, <[f i := one]> m) m l) as ->.
  { intros m l. revert m. induction l as [|i l IH]; intros m; [done|].
    cbn [foldl]. rewrite IH. unfold f. by case_decide. }
  pose proof (set_cells (setZero zero rows cols) f (Z.to_nat (diagonal_size rows cols k)))
    as Hcells.
  cbn zeta in Hcells. rewrite Z2Nat.id in Hcells by done.
  destruct Hcells as (Hlen & Hin & Hout).
  unfold setZero in *. rewrite length_replicate in Hlen, Hin.
  split; [done|]. intros i j Hi Hj.
  assert (Z.to_nat (i * cols + j) < Z.to_nat (rows * cols))%nat as Hcell by nia.
  case_decide as Hdiag.
  - (* the coefficient of the diagonal that is this cell *)
    set (d := if decide (k < 0) then j else i).
    assert (f d = Z.to_nat (i * cols + j)) as Hfd.
    { unfold f, d. case_decide; f_equal; [replace (j - k) with i by lia|
                                          replace (i + k) with j by lia]; done. }
    rewrite <- Hfd. apply Hin; [|by rewrite Hfd].
    unfold d, diagonal_size. repeat case_decide; lia.
  - rewrite Hout.
    + apply lookup_replicate_2. done.
    + intros d Hd Heq. unfold f, diagonal_size in *.
      case_decide.
      * apply cell_inj in Heq as [? ?]; lia.
      * apply cell_inj in Heq as [? ?]; lia.
Qed.
End Diagonal.

(** The identity-like matrix of a [3 x 4] input with offset 1. *)
Lemma in_range_diagonal_is_written_witness :
  ∃ out, EyeLike.ComputeImpl 0 1 1 [3; 4] = (Status_OK, Some out) ∧
         length out = 12%nat ∧
         ∀ i j, 0 ≤ i < 3 → 0 ≤ j < 4 →
                out !! Z.to_nat (i * 4 + j) = Some (if decide (j - i = 1) then 1 else 0).
Proof. apply (in_range_diagonal_is_written 0 1 1 3 4); lia. Defined.

(** In range the diagonal is written. *)
Lemma in_range_diagonal :
  EyeLike.ComputeImpl 0 1 1 [3; 4]
  = (Status_OK, Some [0; 1; 0; 0;  0; 0; 1; 0;  0; 0; 0; 1]).
Proof. vm_compute. reflexivity. Qed.
End EyeLikeFacts.

(** ** Slice elimination *)

Module SliceEliminationFacts.
Import GraphModel SliceElimination.
Local Open Scope Z_scope.

(** What the rule accepts when [axes] is absent: [starts] all zero and
    every end either non-positive or [INT64_MAX]. *)
Lemma SatisfyCondition_without_axes {F} (node : Node F) (starts ends : list Z) :
  IsSingleInSingleOutNode node = true →
  GetRepeatedNodeAttributeValues node "starts" = Some starts →
  GetRepeatedNodeAttributeValues node "ends" = Some ends →
  GetRepeatedNodeAttributeValues node "axes" = None →
  length starts = length ends →
  SatisfyCondition node = true ↔
  (∀ i s e, starts !! i = Some s → ends !! i = Some e → accepted_bounds s e).
Proof.
  intros Hsingle Hs He Ha Hlen. unfold SatisfyCondition.
  rewrite Hsingle, Hs, He, Ha. cbn [negb].
  rewrite bool_decide_eq_true_2 by done. cbn [negb].
  rewrite length_seqZ, Nat2Z.id, forallb_forall.
  split.
  - intros Hall i s e Hsi Hei.
    specialize (Hall i). rewrite <- list_elem_of_In, elem_of_seq in Hall.
    apply lookup_lt_Some in Hsi as Hlt.
    specialize (Hall ltac:(lia)).
    rewrite (list_lookup_total_correct _ _ _ Hsi),
            (list_lookup_total_correct _ _ _ Hei) in Hall.
    apply negb_true_iff in Hall.
    rewrite !orb_false_iff, andb_false_iff, !bool_decide_eq_false in Hall.
    unfold accepted_bounds. lia.
  - intros Hall i Hi. rewrite <- list_elem_of_In, elem_of_seq in Hi.
    destruct (lookup_lt_is_Some_2 starts i ltac:(lia)) as [s Hsi].
    destruct (lookup_lt_is_Some_2 ends i ltac:(lia)) as [e Hei].
    rewrite (list_lookup_total_correct _ _ _ Hsi),
            (list_lookup_total_correct _ _ _ Hei).
    destruct (Hall i s e Hsi Hei) as [-> Hend].
    apply negb_true_iff.
    rewrite !orb_false_iff, andb_false_iff, !bool_decide_eq_false. lia.
Qed.

(** The loop over the axes: it lets through the slices whose bounds are
    all accepted. *)
Lemma bounds_loop (starts ends : list Z) (n : nat) :
  n = length starts → length starts = length ends →
  forallb (λ i : nat,
             negb (bool_decide (starts !!! i > 0) ||
                   bool_decide (starts !!! i < 0) ||
                   (bool_decide (ends !!! i > 0) &&
                    bool_decide (ends !!! i < INT64_MAX))))
          (seq 0 n) = true ↔
  (∀ i s e, starts !! i = Some s → ends !! i = Some e → accepted_bounds s e).
Proof.
  intros -> Hlen. rewrite forallb_forall. split.
  - intros Hall i s e Hsi Hei.
    specialize (Hall i). rewrite <- list_elem_of_In, elem_of_seq in Hall.
    apply lookup_lt_Some in Hsi as Hlt.
    specialize (Hall ltac:(lia)).
    rewrite (list_lookup_total_correct _ _ _ Hsi),
            (list_lookup_total_correct _ _ _ Hei) in Hall.
    apply negb_true_iff in Hall.
    rewrite !orb_false_iff, andb_false_iff, !bool_decide_eq_false in Hall.
    unfold accepted_bounds. lia.
  - intros Hall i Hi. rewrite <- list_elem_of_In, elem_of_seq in Hi.
    destruct (lookup_lt_is_Some_2 starts i ltac:(lia)) as [s Hsi].
    destruct (lookup_lt_is_Some_2 ends i ltac:(lia)) as [e Hei].
    rewrite (list_lookup_total_correct _ _ _ Hsi),
            (list_lookup_total_correct _ _ _ Hei).
    destruct (Hall i s e Hsi Hei) as [-> Hend].
    apply negb_true_iff.
    rewrite !orb_false_iff, andb_false_iff, !bool_decide_eq_false. lia.
Qed.

(** X1: [SatisfyCondition] holds exactly for the nodes with one input and
    one output edge whose [starts] and [ends] are present with equal
    lengths, whose [axes], when present, has that length too, and whose
    bounds are, on every axis, a start of 0 and an end that is either not
    positive or [INT64_MAX].  The values of [axes] play no part. *)
Theorem SatisfyCondition_iff {F} (node : Node F) :
  SatisfyCondition node = true ↔
  IsSingleInSingleOutNode node = true ∧
  ∃ starts ends,
    GetRepeatedNodeAttributeValues node "starts" = Some starts ∧
    GetRepeatedNodeAttributeValues node "ends" = Some ends ∧
    length starts = length ends ∧
    (∀ axes, GetRepeatedNodeAttributeValues node "axes" = Some axes →
             length axes = length starts) ∧
    (∀ i s e, starts !! i = Some s → ends !! i = Some e → accepted_bounds s e).
Proof.
  unfold SatisfyCondition.
  destruct (IsSingleInSingleOutNode node); cbn [negb];
    [|split; [done|by intros [? _]]].
  destruct (GetRepeatedNodeAttributeValues node "starts") as [starts|];
    [|split; [done|by intros (_ & ? & ? & ? & _)]].
  destruct (GetRepeatedNodeAttributeValues node "ends") as [ends|];
    [|split; [done|by intros (_ & ? & ? & _ & ? & _)]].
  case_bool_decide as Hlen; cbn [negb];
    [|split; [done|intros (_ & ? & ? & [= <-] & [= <-] & ? & _); done]].
  destruct (GetRepeatedNodeAttributeValues node "axes") as [axes|].
  - case_bool_decide as Ha; cbn [orb].
    { split; [done|]. intros (_ & ? & ? & [= <-] & [= <-] & _ & Haxes & _).
      by specialize (Haxes axes eq_refl). }
    case_bool_decide as Ha'; [lia|].
    rewrite bounds_loop by lia. split.
    + intros Hall. split; [done|]. exists starts, ends. split_and!; try done.
      intros ? [= <-]. lia.
    + by intros (_ & ? & ? & [= <-] & [= <-] & _ & _ & Hall).
  - rewrite length_seqZ, Nat2Z.id, bounds_loop by done. split.
    + intros Hall. split; [done|]. exists starts, ends. by split_and!.
    + by intros (_ & ? & ? & [= <-] & [= <-] & _ & _ & Hall).
Qed.

(** C2: a single-in single-out Slice with [starts = [0]] and
    [ends = [0]] satisfies the rule's condition although its end is
    neither [INT64_MAX] nor negative, so it is not among the slices the
    specification lets the rule eliminate. *)
Theorem empty_slice_accepted {F} :
  SatisfyCondition (@empty_slice F) = true ∧ ¬ spec_condition (@empty_slice F).
Proof.
  split; [vm_compute; reflexivity|].
  intros (_ & starts & ends & _ & Hends & _ & _ & _ & Hall).
  vm_compute in Hends. injection Hends as <-.
  apply Forall_cons_1 in Hall as [[Hmax | Hneg] _]; [discriminate | lia].
Qed.
End SliceEliminationFacts.

(** ** Graph slots *)

Module GraphFacts.
  Import GraphModel.
Section Slots.
  Context {F : Type}.
  Implicit Types (g : Graph F) (n : Node F) (i j : NodeIndex).

Lemma GetNode_Some_lt g i n : GetNode g i = Some n → (i < length (nodes g))%nat.
Proof.
  unfold GetNode. intros H. destruct (nodes g !! i) eqn:E; [|done].
  by apply lookup_lt_Some in E.
Qed.

Lemma GetNode_set_node_eq g i n :
  (i < length (nodes g))%nat → GetNode (set_node g i n) i = Some n.
Proof. intros H. unfold GetNode, set_node; cbn. by rewrite list_lookup_insert_eq. Qed.

Lemma GetNode_set_node_ne g i j n : i ≠ j → GetNode (set_node g i n) j = GetNode g j.
Proof. intros H. unfold GetNode, set_node; cbn. by rewrite list_lookup_insert_ne. Qed.

Lemma GetNode_RemoveNode_eq g i : GetNode (RemoveNode g i) i = None.
Proof.
  unfold GetNode, RemoveNode; cbn.
  destruct (decide (i < length (nodes g))%nat).
  - by rewrite list_lookup_insert_eq.
  - rewrite list_insert_ge by lia. by rewrite lookup_ge_None_2 by lia.
Qed.

Lemma GetNode_RemoveNode_ne g i j : i ≠ j → GetNode (RemoveNode g i) j = GetNode g j.
Proof. intros H. unfold GetNode, RemoveNode; cbn. by rewrite list_lookup_insert_ne. Qed.

Lemma length_nodes_set_node g i n : length (nodes (set_node g i n)) = length (nodes g).
Proof. unfold set_node; cbn. apply length_insert. Qed.

Lemma replace_def_idemp (old new d : NodeArg) :
  replace_def old new (replace_def old new d) = replace_def old new d.
Proof. unfold replace_def. repeat case_decide; congruence. Qed.

Lemma ReplaceDefs_single_idemp (old new : NodeArg) n :
  ReplaceDefs [(old, new)] (ReplaceDefs [(old, new)] n) = ReplaceDefs [(old, new)] n.
Proof.
  unfold ReplaceDefs, with_defs; cbn. f_equal.
  - rewrite <- list_fmap_compose. apply list_fmap_ext. intros _ d _. apply replace_def_idemp.
  - rewrite <- list_fmap_compose. apply list_fmap_ext. intros _ d _. apply replace_def_idemp.
Qed.

Lemma InputDefs_ReplaceDefs_single (old new : NodeArg) n :
  InputDefs (ReplaceDefs [(old, new)] n) = replace_def old new <$> InputDefs n.
Proof. reflexivity. Qed.
End Slots.
End GraphFacts.

(** ** Identity elimination *)

Module IdentityEliminationFacts.
  Import GraphModel IdentityElimination GraphFacts.
Section Rule.
  Context {F : Type}.
  Implicit Types (g : Graph F) (n : Node F).

Lemma replace_in_consumers_cons r g (e : NodeIndex) (edges : list NodeIndex) :
  replace_in_consumers r g (e :: edges)
  = replace_in_consumers r
      (match GetNode g e with
       | Some consumer => set_node g e (ReplaceDefs r consumer)
       | None => g
       end) edges.
Proof. reflexivity. Qed.

(** After the loop over the output edges, the slot of every edge target
    holds the rewritten consumer and every other slot is as before. *)
Lemma replace_in_consumers_slot (old new : NodeArg) (edges : list NodeIndex) g j :
  GetNode (replace_in_consumers [(old, new)] g edges) j
  = if decide (j ∈ edges) then ReplaceDefs [(old, new)] <$> GetNode g j else GetNode g j.
Proof.
  revert g. induction edges as [|e edges IH]; intros g.
  - cbn. rewrite decide_False by apply not_elem_of_nil. done.
  - rewrite replace_in_consumers_cons, IH. clear IH.
    destruct (GetNode g e) as [consumer|] eqn:He.
    + destruct (decide (j = e)) as [->|Hne].
      * rewrite GetNode_set_node_eq by eauto using GetNode_Some_lt.
        rewrite He, (decide_True (P := e ∈ e :: edges)) by (apply elem_of_cons; by left).
        destruct (decide (e ∈ edges)); [|reflexivity].
        change (Some (ReplaceDefs [(old, new)] (ReplaceDefs [(old, new)] consumer))
                = Some (ReplaceDefs [(old, new)] consumer)).
        by rewrite ReplaceDefs_single_idemp.
      * rewrite GetNode_set_node_ne by done.
        destruct (decide (j ∈ edges)).
        -- rewrite decide_True by (apply elem_of_cons; by right). done.
        -- rewrite decide_False by (rewrite elem_of_cons; tauto). done.
    + destruct (decide (j = e)) as [->|Hne].
      * rewrite He. cbn. by repeat case_decide.
      * destruct (decide (j ∈ edges)).
        -- rewrite decide_True by (apply elem_of_cons; by right). done.
        -- rewrite decide_False by (rewrite elem_of_cons; tauto). done.
Qed.

Lemma replace_in_consumers_initializers r g edges :
  initializers (replace_in_consumers r g edges) = initializers g.
Proof.
  revert g. induction edges as [|e edges IH]; intros g; [done|].
  rewrite replace_in_consumers_cons, IH. by destruct (GetNode g e).
Qed.

(** C8: [SatisfyCondition] holds for every node, and for a node with an
    input and an output definition [Apply] returns OK, leaves the node's
    slot empty, and leaves in the slot of every target of its output edges
    the consumer with the Identity's output replaced by the Identity's
    input among its input definitions; other slots and the initializers
    are untouched.  Nothing is asked of the surroundings, and the list of
    output edges may be empty. *)
Theorem Apply_eliminates_identity g n (modified : bool) (id_input id_output : NodeArg) :
  InputDefs n !! 0%nat = Some id_input →
  OutputDefs n !! 0%nat = Some id_output →
  SatisfyCondition g n = true ∧
  ∃ g' modified',
    Apply g n modified = Some (Status_OK, g', modified') ∧
    GetNode g' (Index n) = None ∧
    (∀ j, j ≠ Index n →
          GetNode g' j = if decide (j ∈ OutputEdges n)
                         then ReplaceDefs [(id_output, id_input)] <$> GetNode g j
                         else GetNode g j) ∧
    (∀ consumer : Node F,
        InputDefs (ReplaceDefs [(id_output, id_input)] consumer)
        = replace_def id_output id_input <$> InputDefs consumer) ∧
    initializers g' = initializers g ∧
    modified' = (if OutputEdges n is [] then modified else true).
Proof.
  intros Hin Hout. split; [reflexivity|].
  unfold Apply. rewrite Hin, Hout.
  eexists _, _. split; [reflexivity|].
  split; [apply GetNode_RemoveNode_eq|].
  split; [|split; [intros; reflexivity|split; [|reflexivity]]].
  - intros j Hj. rewrite GetNode_RemoveNode_ne by done.
    apply replace_in_consumers_slot.
  - cbn. apply replace_in_consumers_initializers.
Qed.

Lemma replace_in_consumers_outputs r g edges :
  outputs (replace_in_consumers r g edges) = outputs g.
Proof.
  revert g. induction edges as [|e edges IH]; intros g; [done|].
  rewrite replace_in_consumers_cons, IH. by destruct (GetNode g e).
Qed.

(** X19: [Apply] does not look at the graph outputs.  For an Identity
    node whose output is a graph output, is produced by no other node and
    differs from its input, [Apply] returns OK and removes the node all the
    same: the graph still lists that output, and no node produces it any
    more. *)
Theorem Apply_drops_graph_output g n (modified : bool) (id_input id_output : NodeArg) :
  InputDefs n !! 0%nat = Some id_input →
  OutputDefs n !! 0%nat = Some id_output →
  id_input ≠ id_output →
  id_output ∈ outputs g →
  (∀ j m, j ≠ Index n → GetNode g j = Some m → id_output ∉ OutputDefs m) →
  ∃ g' modified',
    Apply g n modified = Some (Status_OK, g', modified') ∧
    id_output ∈ outputs g' ∧
    ∀ j m, GetNode g' j = Some m → id_output ∉ OutputDefs m.
Proof.
  intros Hin Hout Hne Hgraph Hsingle. unfold Apply. rewrite Hin, Hout.
  eexists _, _. split; [reflexivity|]. split.
  - cbn. by rewrite replace_in_consumers_outputs.
  - intros j m Hm. destruct (decide (j = Index n)) as [->|Hj].
    + by rewrite GetNode_RemoveNode_eq in Hm.
    + rewrite GetNode_RemoveNode_ne, replace_in_consumers_slot in Hm by done.
      destruct (decide (j ∈ OutputEdges n)); [|by eapply Hsingle].
      destruct (GetNode g j) as [m0|] eqn:Hm0; [|done]. injection Hm as <-.
      cbn. intros [d [Hd _]]%list_elem_of_fmap.
      unfold replace_def in Hd. case_decide; [done|]. by subst.
Qed.
End Rule.

(** The scenario [Abs -> Identity -> Max]. *)
Definition abs_id_max : Graph Z :=
  mkGraph
    [Some (mkNode 0 "Abs" "" 6 false ["X"] ["abs_out"] ∅ [] [1%nat]);
     Some (mkNode 1 "Identity" "" 1 false ["abs_out"] ["id_out"] ∅ [0%nat] [2%nat]);
     Some (mkNode 2 "Max" "" 8 false ["id_out"; "Y"] ["Z"] ∅ [1%nat] [])]
    ∅ ["Z"] {["X"; "abs_out"; "id_out"; "Y"; "Z"]}.

Definition identity_node : Node Z :=
  mkNode 1 "Identity" "" 1 false ["abs_out"] ["id_out"] ∅ [0%nat] [2%nat].

Lemma Apply_eliminates_identity_witness :
  ∃ g', Apply abs_id_max identity_node false = Some (Status_OK, g', true) ∧
        GetNode g' 1%nat = None ∧
        InputDefs <$> GetNode g' 2%nat = Some ["abs_out"; "Y"].
Proof.
  destruct (Apply_eliminates_identity abs_id_max identity_node false "abs_out" "id_out")
    as (_ & g' & modified' & HA & Hgone & Hslots & _ & _ & Hmod);
    [reflexivity | reflexivity |].
  exists g'. subst modified'. split; [exact HA|]. split; [exact Hgone|].
  rewrite (Hslots 2%nat) by (cbn; lia). reflexivity.
Defined.

(** [Abs -> Identity], the Identity producing the graph output. *)
Definition abs_id : Graph Z :=
  mkGraph
    [Some (mkNode 0 "Abs" "" 6 false ["X"] ["abs_out"] ∅ [] [1%nat]);
     Some (mkNode 1 "Identity" "" 1 false ["abs_out"] ["Y"] ∅ [0%nat] [])]
    ∅ ["Y"] {["X"; "abs_out"; "Y"]}.

Lemma Apply_drops_graph_output_witness :
  ∃ g', Apply abs_id (mkNode 1 "Identity" "" 1 false ["abs_out"] ["Y"] ∅ [0%nat] []) false
        = Some (Status_OK, g', false) ∧
        "Y" ∈ outputs g' ∧
        ∀ j m, GetNode g' j = Some m → "Y" ∉ OutputDefs m.
Proof.
  destruct (Apply_drops_graph_output abs_id
              (mkNode 1 "Identity" "" 1 false ["abs_out"] ["Y"] ∅ [0%nat] []) false
              "abs_out" "Y") as (g' & modified' & HA & Hout & Hnone).
  - reflexivity.
  - reflexivity.
  - discriminate.
  - apply list_elem_of_here.
  - intros [|[|j]] m Hj; cbn; intros [= <-]; [|done].
    cbn. by intros [=]%list_elem_of_singleton.
  - exists g'. split; [|done]. rewrite HA. cbn in HA. by injection HA as <- <-.
Defined.
End IdentityEliminationFacts.

(** ** The transformer manager *)

Module TransformerManagerFacts.
  Import TransformerManager.
Section Manager.
  Context {G : Type} (Resolve : G → Status * G).

Lemma ApplyAll_from_bound (steps : nat) (ts : list GraphTransformer) (g : G) :
  let passes := (ApplyAll_from Resolve steps ts g).2 in
  (length passes ≤ steps)%nat ∧
  forallb goes_on (removelast passes) = true ∧
  bool_decide (passes = []) = bool_decide (steps = 0%nat).
Proof.
  revert g. induction steps as [|steps IH]; intros g; cbn zeta.
  - cbn. done.
  - cbn [ApplyAll_from].
    destruct (run_pass ts g false) as [[s g1] changed].
    destruct (IsOK s) eqn:Hs; cbn [negb]; [|cbn; split_and!; [lia|done|done]].
    destruct changed; cbn [negb]; [|cbn; split_and!; [lia|done|done]].
    destruct (Resolve g1) as [rs g2].
    destruct (IsOK rs); cbn [negb]; [|cbn; split_and!; [lia|done|done]].
    specialize (IH g2). cbn zeta in IH.
    destruct (ApplyAll_from Resolve steps ts g2) as [[s' g3] passes].
    cbn [snd] in *. destruct IH as (Hlen & Hall & Hnil).
    split_and!.
    + cbn. lia.
    + destruct passes as [|p passes]; [done|].
      change (removelast (mkPass s true :: p :: passes))
        with (mkPass s true :: removelast (p :: passes)).
      cbn [forallb]. rewrite Hall.
      unfold goes_on; cbn. by rewrite Hs.
    + done.
Qed.

(** C5: [ApplyAll] runs at most [steps_] passes over the pipeline; every
    pass but the last one completed with OK and reported a modification,
    so a complete pass without modification is the last; with a cap of at
    least one, at least one pass is run. *)
Theorem ApplyAll_halts_within_cap (m : GraphTransformerManager) (g : G) :
  (length (ApplyAll Resolve m g).2 ≤ steps_ m)%nat ∧
  forallb goes_on (removelast (ApplyAll Resolve m g).2) = true ∧
  bool_decide ((ApplyAll Resolve m g).2 = []) = bool_decide (steps_ m = 0%nat).
Proof. unfold ApplyAll. apply ApplyAll_from_bound. Qed.
End Manager.

(** A transformer that decrements a counter until it reaches zero. *)
Definition countdown : GraphTransformer (G := nat) :=
  λ g, match g with
       | O => (Status_OK, O, false)
       | S g' => (Status_OK, g', true)
       end.

(** From 2 with a cap of 5: two modifying passes, then a third that
    modifies nothing and ends the run. *)
Example countdown_stops_at_fixed_point :
  ApplyAll (λ g, (Status_OK, g)) (mkManager 5 [countdown]) 2%nat
  = (Status_OK, 0%nat,
     [mkPass Status_OK true; mkPass Status_OK true; mkPass Status_OK false]).
Proof. reflexivity. Qed.

(** From 9 with a cap of 3: the cap ends the run. *)
Example countdown_stops_at_cap :
  ApplyAll (λ g, (Status_OK, g)) (mkManager 3 [countdown]) 9%nat
  = (Status_OK, 6%nat,
     [mkPass Status_OK true; mkPass Status_OK true; mkPass Status_OK true]).
Proof. reflexivity. Qed.
End TransformerManagerFacts.

(** ** Strings *)

Module StringFacts.
  Import Session.

Lemma app_nil_r (s : string) : s +:+ "" = s.
Proof. induction s as [|a s IH]; [done|]. change (String a (s +:+ "") = String a s). by rewrite IH. Qed.

Lemma app_assoc (s t u : string) : (s +:+ t) +:+ u = s +:+ (t +:+ u).
Proof.
  induction s as [|a s IH]; [done|].
  change (String a ((s +:+ t) +:+ u) = String a (s +:+ (t +:+ u))). by rewrite IH.
Qed.

Lemma app_eq_empty (s t : string) : s +:+ t = "" → s = "" ∧ t = "".
Proof. destruct s; [done|]. intros H. change (String a (s +:+ t) = "") in H. discriminate. Qed.

Lemma mentions_self (n : string) : mentions n n.
Proof. exists "", "". by rewrite app_nil_r. Qed.

Lemma mentions_empty (msg : string) : mentions msg "".
Proof. exists msg, "". by rewrite !app_nil_r. Qed.

Lemma mentions_app_r (msg x n : string) : mentions msg n → mentions (msg +:+ x) n.
Proof. intros (pre & post & ->). exists pre, (post +:+ x). by rewrite !app_assoc. Qed.

Lemma mentions_app_l (msg x n : string) : mentions msg n → mentions (x +:+ msg) n.
Proof. intros (pre & post & ->). exists (x +:+ pre), post. by rewrite !app_assoc. Qed.

(** A message that mentions a name holds the first character of the name. *)
Lemma mentions_char (msg : string) (c : Ascii.ascii) (rest : string) :
  mentions msg (String c rest) → c ∈ String.list_ascii_of_string msg.
Proof.
  intros (pre & post & ->). induction pre as [|a pre IH].
  - apply list_elem_of_here.
  - change (c ∈ a :: String.list_ascii_of_string (pre +:+ String c rest +:+ post)).
    by apply list_elem_of_further.
Qed.
End StringFacts.

(** ** The session *)

Module SessionFacts.
  Import Session StringFacts.

(** The insertion loops of [SaveModelMetadata] add the listed names. *)
Lemma names_fold (acc : gset string) (l : list string) :
  foldl (λ acc n, acc ∪ {[n]}) acc l = acc ∪ list_to_set l.
Proof.
  revert acc. induction l as [|n l IH]; intros acc; cbn [foldl list_to_set].
  - by rewrite (right_id_L ∅ (∪)).
  - by rewrite IH, (assoc_L (∪)).
Qed.

Section Impl.
  Context {Model ModelMetadata ModelProto IStream MLValue Provider : Type}.
  Context {MLDataType : Type} `{EqDecision MLDataType}.
  Context (Model_Load_uri : string → Status + Model)
          (Model_Load_proto : ModelProto → Status + Model)
          (ParseFromIstream : IStream → option ModelProto).
  Context (GetMetadata : Model → ModelMetadata)
          (GetInputs GetInputsIncludingInitializers GetOutputs : Model → list string).
  Context (Type_ : MLValue → MLDataType) (IsTensor : MLValue → bool)
          (TensorDataType : MLValue → MLDataType)
          (GetMLDataType : string → MLDataType)
          (GetElementType : MLDataType → MLDataType)
          (type_name : MLDataType → string).
  Context (OnRunStart OnRunEnd : Provider → Status)
          (CopyInputsAcrossDevices : gmap string MLValue → Status * gmap string MLValue)
          (MatchOutputsWithProviders :
             list string → list MLValue → Status * list MLValue * list MLValue)
          (Execute : bool → gmap string MLValue → list string → list MLValue
                     → Status * list MLValue)
          (CopyOutputsAcrossDevices : list MLValue → list MLValue → Status * list MLValue).
  Implicit Types (s : Impl (Model := Model) (ModelMetadata := ModelMetadata)
                               (Provider := Provider))
                 (feeds : gmap string MLValue).

  Local Abbreviation Load_uri := (Load_uri Model_Load_uri GetMetadata GetInputs GetInputsIncludingInitializers GetOutputs).
  Local Abbreviation Load_proto := (Load_proto Model_Load_proto GetMetadata GetInputs GetInputsIncludingInitializers GetOutputs).
  Local Abbreviation Load_unique_proto :=
    (Load_unique_proto Model_Load_proto GetMetadata GetInputs GetInputsIncludingInitializers GetOutputs).
  Local Abbreviation Load_istream :=
    (Load_istream Model_Load_proto ParseFromIstream GetMetadata GetInputs GetInputsIncludingInitializers GetOutputs).
  Local Abbreviation load_model := (load_model GetMetadata GetInputs GetInputsIncludingInitializers GetOutputs).
  Local Abbreviation ValidateInputTypes :=
    (ValidateInputTypes Type_ IsTensor TensorDataType GetMLDataType GetElementType type_name).
  Local Abbreviation ValidateInputs :=
    (ValidateInputs Type_ IsTensor TensorDataType GetMLDataType GetElementType type_name).
  Local Abbreviation Run :=
    (Run Type_ IsTensor TensorDataType GetMLDataType GetElementType type_name
         OnRunStart OnRunEnd CopyInputsAcrossDevices MatchOutputsWithProviders
         Execute CopyOutputsAcrossDevices).

(** *** Load *)

(** When [Model::Load] delivers a model, every overload stores it, returns
    OK and marks the session as loaded. *)
Lemma load_model_marks_loaded s (m : Model) :
  (load_model s (inr m)).1 = Status_OK ∧
  is_model_loaded_ (load_model s (inr m)).2 = true ∧
  model_ (load_model s (inr m)).2 = Some m.
Proof. done. Qed.

(** C7: once [is_model_loaded_] is set, each of the four [Load] overloads
    returns the MODEL_LOADED status and the session is exactly as before. *)
Theorem Load_rejected_once_loaded s (model_uri : string) (model_proto p_model_proto : ModelProto)
    (model_istream : IStream) :
  is_model_loaded_ s = true →
  Code already_loaded = MODEL_LOADED ∧
  Load_uri s model_uri = (already_loaded, s) ∧
  Load_proto s model_proto = (already_loaded, s) ∧
  Load_unique_proto s p_model_proto = (already_loaded, s) ∧
  Load_istream s model_istream = (already_loaded, s).
Proof.
  intros Hloaded.
  unfold Session.Load_uri, Session.Load_proto, Session.Load_unique_proto, Session.Load_istream.
  rewrite Hloaded. done.
Qed.

(** *** Validation *)

Lemma notify_skipped (callback : Provider → Status) (ev : Provider → Event) st trace xps :
  IsOK st = false → foldl (notify callback ev) (st, trace) xps = (st, trace).
Proof.
  intros Hst. induction xps as [|xp xps IH]; [done|].
  cbn [foldl]. unfold notify at 2. by rewrite Hst.
Qed.

(** A failed validation ends the run: no provider, copy or executor is called. *)
Lemma Run_stops_at_failed_inputs s feeds output_names p_fetches :
  is_inited_ s = true → IsOK (ValidateInputs s feeds) = false →
  Run s feeds output_names p_fetches = (ValidateInputs s feeds, [], p_fetches).
Proof.
  intros Hinit Hbad. unfold Session.Run, CHECK_AND_SET_RETVAL.
  rewrite Hinit. cbn [negb]. change (IsOK Status_OK) with true. cbv beta iota.
  rewrite Hbad. cbv beta iota. rewrite notify_skipped by done.
  repeat (cbv beta iota; rewrite Hbad). cbv beta iota.
  by rewrite notify_skipped by done.
Qed.

Lemma Run_stops_at_failed_outputs s feeds output_names p_fetches :
  is_inited_ s = true → IsOK (ValidateInputs s feeds) = true →
  IsOK (ValidateOutputs s output_names p_fetches) = false →
  Run s feeds output_names p_fetches = (ValidateOutputs s output_names p_fetches, [], p_fetches).
Proof.
  intros Hinit Hin Hbad. unfold Session.Run, CHECK_AND_SET_RETVAL.
  rewrite Hinit. cbn [negb]. change (IsOK Status_OK) with true. cbv beta iota.
  rewrite Hin. cbv beta iota. rewrite notify_skipped by done.
  repeat (cbv beta iota; rewrite Hbad). cbv beta iota.
  by rewrite notify_skipped by done.
Qed.

Lemma Run_uninitialized s feeds output_names p_fetches :
  is_inited_ s = false →
  Run s feeds output_names p_fetches
  = (mkStatus FAIL "Session not initialized.", [], p_fetches).
Proof.
  intros Hinit. unfold Session.Run, CHECK_AND_SET_RETVAL.
  rewrite Hinit. cbn [negb].
  assert (IsOK (mkStatus FAIL "Session not initialized.") = false) as Hbad by done.
  rewrite Hbad. cbv beta iota. rewrite notify_skipped by done.
  repeat (cbv beta iota; rewrite Hbad). cbv beta iota.
  by rewrite notify_skipped by done.
Qed.

Lemma missing_fold_mentions feeds (names : list string) (acc n : string) :
  mentions acc n ∨ (n ∈ names ∧ feeds !! n = None) →
  mentions (foldl (missing_step feeds) acc names) n.
Proof.
  revert acc. induction names as [|r names IH]; intros acc [Hacc|[Hin Hmiss]].
  - done.
  - by apply elem_of_nil in Hin.
  - cbn [foldl]. apply IH. left. unfold missing_step.
    repeat case_decide; auto using mentions_app_r.
  - cbn [foldl]. apply IH. apply elem_of_cons in Hin as [->|Hin]; [left|right; done].
    unfold missing_step. rewrite decide_True by done.
    apply mentions_app_l, mentions_self.
Qed.

Lemma missing_fold_nonempty feeds (names : list string) (acc : string) :
  acc ≠ "" ∨ (∃ n, n ∈ names ∧ n ≠ "" ∧ feeds !! n = None) →
  foldl (missing_step feeds) acc names ≠ "".
Proof.
  revert acc. induction names as [|r names IH]; intros acc [Hacc|(n & Hin & Hne & Hmiss)].
  - done.
  - by apply elem_of_nil in Hin.
  - cbn [foldl]. apply IH. left. unfold missing_step.
    destruct (decide (feeds !! r = None)); [|done].
    rewrite decide_True by done.
    intros [Hacc' _]%app_eq_empty. by apply app_eq_empty in Hacc' as [? _].
  - cbn [foldl]. apply IH. apply elem_of_cons in Hin as [->|Hin]; [left|right; eauto].
    unfold missing_step. rewrite decide_True by done.
    by intros [_ ?]%app_eq_empty.
Qed.

Lemma missing_fold_none feeds (names : list string) (acc : string) :
  filter (λ n, feeds !! n = None) names = [] →
  foldl (missing_step feeds) acc names = acc.
Proof.
  revert acc. induction names as [|r names IH]; intros acc Hnone; [done|].
  rewrite filter_cons in Hnone. cbn [foldl]. unfold missing_step at 2.
  case_decide; [done|]. by apply IH.
Qed.

Lemma invalid_fold_mentions (known : gset string) (names : list string) (v : bool)
    (acc n : string) :
  mentions acc n ∨ (n ∈ names ∧ n ∉ known) →
  mentions (foldl (invalid_step known) (v, acc) names).2 n.
Proof.
  revert v acc. induction names as [|r names IH]; intros v acc [Hacc|[Hin Hunk]].
  - done.
  - by apply elem_of_nil in Hin.
  - cbn [foldl]. unfold invalid_step at 2. case_decide; cbn [snd].
    + apply IH. by left.
    + apply IH. left. by apply mentions_app_r.
  - cbn [foldl]. unfold invalid_step at 2.
    apply elem_of_cons in Hin as [->|Hin].
    + rewrite decide_False by done. cbn [snd]. apply IH. left.
      apply mentions_app_l, mentions_app_l, mentions_self.
    + case_decide; apply IH; right; done.
Qed.

Lemma invalid_fold_flag (known : gset string) (names : list string) (v : bool) (acc : string) :
  v = false ∨ (∃ n, n ∈ names ∧ n ∉ known) →
  (foldl (invalid_step known) (v, acc) names).1 = false.
Proof.
  revert v acc. induction names as [|r names IH]; intros v acc [Hv|(n & Hin & Hunk)].
  - done.
  - by apply elem_of_nil in Hin.
  - cbn [foldl]. unfold invalid_step at 2. case_decide; apply IH; by left.
  - cbn [foldl]. unfold invalid_step at 2.
    apply elem_of_cons in Hin as [->|Hin].
    + rewrite decide_False by done. apply IH. by left.
    + case_decide; apply IH; right; eauto.
Qed.

(** While only empty names are missing the collected string stays empty. *)
Lemma missing_fold_blank feeds (names : list string) :
  (∀ n, n ∈ names → feeds !! n = None → n = "") →
  foldl (missing_step feeds) "" names = "".
Proof.
  induction names as [|r names IH]; intros Hall; [done|].
  assert (∀ n, n ∈ names → feeds !! n = None → n = "") as Hrest
    by (intros n Hn; by apply Hall, list_elem_of_further).
  cbn [foldl]. unfold missing_step at 2. case_decide as Hr; [|by apply IH].
  assert (r = "") as -> by (apply Hall; [apply list_elem_of_here|done]).
  rewrite decide_False by (intros Hc; by apply Hc).
  change ("" +:+ "") with "". by apply IH.
Qed.

(** A request with bad feed names is answered with INVALID_ARGUMENT; the
    message names every missing required input, and, when no required
    input with a non-empty name is missing, every fed name that is not an
    input of the model. *)
Lemma ValidateInputNames_rejects s feeds :
  bad_feed_names s feeds →
  Code (ValidateInputNames s feeds) = INVALID_ARGUMENT ∧
  (∀ n, n ∈ required_model_input_names_ s → feeds !! n = None →
        mentions (ErrorMessage (ValidateInputNames s feeds)) n) ∧
  ((∀ n, n ∈ required_model_input_names_ s → n ≠ "" → is_Some (feeds !! n)) →
   ∀ n, is_Some (feeds !! n) → n ∉ model_input_names_ s →
        mentions (ErrorMessage (ValidateInputNames s feeds)) n).
Proof.
  intros Hbad. unfold ValidateInputNames.
  assert (∀ n, n ∈ required_model_input_names_ s → feeds !! n = None →
               mentions (collect_missing s feeds) n) as Hmissing.
  { intros n Hin Hnone. apply missing_fold_mentions. right. by rewrite elem_of_elements. }
  destruct (decide (collect_missing s feeds = "")) as [Hempty|Hne].
  - rewrite decide_False by (intros Hc; by apply Hc).
    (* no required input with a non-empty name is missing *)
    assert (∀ n, n ∈ required_model_input_names_ s → feeds !! n = None → n = "") as Hblank.
    { intros n Hreq Hnone. destruct (decide (n = "")) as [|Hn]; [done|]. exfalso.
      eapply (missing_fold_nonempty feeds); [|exact Hempty].
      right. exists n. by rewrite elem_of_elements. }
    destruct Hbad as [(n & Hreq & Hn & Hnone)|(n & Hfed & Hunk)].
    { exfalso. apply Hn. by apply Hblank. }
    assert (∀ m, is_Some (feeds !! m) → m ∈ fst <$> map_to_list feeds) as Hfeeds.
    { intros m [v Hv]. apply list_elem_of_fmap. exists (m, v).
      split; [done|]. by apply elem_of_map_to_list. }
    pose proof (invalid_fold_flag (model_input_names_ s) _ true ""
                  (or_intror (ex_intro _ n (conj (Hfeeds n Hfed) Hunk)))) as Hflag.
    pose proof (λ m H, invalid_fold_mentions (model_input_names_ s)
                  (fst <$> map_to_list feeds) true "" m (or_intror H)) as Hment.
    destruct (foldl _ _ _) as [valid invalid_names]. cbn [fst snd] in *. subst valid.
    cbn [negb]. split; [done|]. cbn [ErrorMessage]. split.
    + intros m Hreq Hnone. rewrite (Hblank m Hreq Hnone). apply mentions_empty.
    + intros _ m Hfed' Hunk'. apply mentions_app_l, mentions_app_r. apply Hment.
      split; [by apply Hfeeds|done].
  - rewrite decide_True by done. split; [done|]. cbn [ErrorMessage]. split.
    + intros m Hreq Hnone. by apply mentions_app_l, Hmissing.
    + intros Hall. exfalso. apply Hne. unfold collect_missing. apply missing_fold_blank.
      intros n Hn%elem_of_elements Hnone. destruct (decide (n = "")) as [|Hne']; [done|].
      destruct (Hall n Hn Hne') as [v Hv]. congruence.
Qed.

Lemma ValidateInputNames_code s feeds :
  Code (ValidateInputNames s feeds) = OK ∨ Code (ValidateInputNames s feeds) = INVALID_ARGUMENT.
Proof.
  unfold ValidateInputNames. case_decide; [by right|].
  destruct (foldl _ _ _) as [[] ?]; cbn; auto.
Qed.

Lemma ValidateInputTypes_code s feeds :
  Code (ValidateInputTypes s feeds) = OK ∨ Code (ValidateInputTypes s feeds) = INVALID_ARGUMENT.
Proof.
  unfold Session.ValidateInputTypes.
  induction (input_def_list_ s) as [|arg defs IH]; cbn [ValidateInputTypes_loop]; [by left|].
  destruct (feeds !! arg) as [v|]; [|done].
  case_decide; [done|].
  destruct (IsTensor v); cbn [negb]; unfold CheckTypes; case_decide; cbn; auto.
Qed.

Lemma ValidateInputs_code s feeds :
  Code (ValidateInputs s feeds) = OK ∨ Code (ValidateInputs s feeds) = INVALID_ARGUMENT.
Proof.
  unfold Session.ValidateInputs.
  destruct (IsOK (ValidateInputNames s feeds)) eqn:Hn; cbn [negb];
    [|apply ValidateInputNames_code].
  destruct (IsOK (ValidateInputTypes s feeds)) eqn:Ht; cbn [negb];
    [by left|apply ValidateInputTypes_code].
Qed.

Lemma ValidateInputs_rejects s feeds :
  bad_feed_names s feeds → ValidateInputs s feeds = ValidateInputNames s feeds.
Proof.
  intros [Hcode _]%ValidateInputNames_rejects. unfold Session.ValidateInputs.
  unfold IsOK at 1. rewrite Hcode. done.
Qed.

Lemma ValidateOutputs_rejects s (output_names : list string) (p_fetches : option (list MLValue)) :
  bad_outputs s output_names p_fetches →
  Code (ValidateOutputs s output_names p_fetches) = INVALID_ARGUMENT.
Proof.
  intros Hbad. unfold ValidateOutputs.
  destruct p_fetches as [fetches|]; [|done].
  case_decide; [done|].
  destruct (negb (bool_decide (fetches = [])) &&
            bool_decide (length output_names ≠ length fetches)) eqn:Hsize; [done|].
  destruct Hbad as [?|[?|[(f & [= <-] & Hf & Hlen)|(n & Hin & Hunk)]]]; [done|done| |].
  - rewrite bool_decide_eq_false_2, bool_decide_eq_true_2 in Hsize by done. done.
  - pose proof (invalid_fold_flag (model_output_names_ s) output_names true ""
                  (or_intror (ex_intro _ n (conj Hin Hunk)))) as Hflag.
    destruct (foldl _ _ _) as [valid invalid_names]. cbn [fst] in Hflag. by subst valid.
Qed.

(** C6 (amended): on an initialized session whose feeds omit a required
    input with a non-empty name or feed a name the model does not have,
    [Run] returns INVALID_ARGUMENT and no provider, copy or executor call
    is made: the run ends before any node is executed.  The message names
    every missing required input; it names the fed names that are not
    inputs of the model when no required input with a non-empty name is
    missing, every one of them. *)
Theorem Run_rejects_bad_feed_names s feeds (output_names : list string)
    (p_fetches : option (list MLValue)) :
  is_inited_ s = true →
  bad_feed_names s feeds →
  ∃ st, Run s feeds output_names p_fetches = (st, [], p_fetches) ∧
        Code st = INVALID_ARGUMENT ∧
        (∀ n, n ∈ required_model_input_names_ s → feeds !! n = None →
              mentions (ErrorMessage st) n) ∧
        ((∀ n, n ∈ required_model_input_names_ s → n ≠ "" → is_Some (feeds !! n)) →
         ∀ n, is_Some (feeds !! n) → n ∉ model_input_names_ s →
              mentions (ErrorMessage st) n).
Proof.
  intros Hinit Hbad.
  destruct (ValidateInputNames_rejects s feeds Hbad) as [Hcode Hnames].
  exists (ValidateInputNames s feeds). split; [|by split].
  rewrite <- (ValidateInputs_rejects s feeds Hbad).
  apply Run_stops_at_failed_inputs; [done|].
  rewrite (ValidateInputs_rejects s feeds Hbad). unfold IsOK. by rewrite Hcode.
Qed.

(** C9 (amended): on an initialized session, a null fetch vector, an empty
    list of output names, a non-empty fetch vector of another size than
    the list of names, or a requested name that is not a model output
    make [Run] return INVALID_ARGUMENT without any provider, copy or
    executor call. *)
Theorem Run_rejects_bad_outputs s feeds (output_names : list string)
    (p_fetches : option (list MLValue)) :
  is_inited_ s = true →
  bad_outputs s output_names p_fetches →
  ∃ st, Run s feeds output_names p_fetches = (st, [], p_fetches) ∧
        Code st = INVALID_ARGUMENT.
Proof.
  intros Hinit Hbad.
  destruct (IsOK (ValidateInputs s feeds)) eqn:Hin.
  - exists (ValidateOutputs s output_names p_fetches).
    pose proof (ValidateOutputs_rejects s output_names p_fetches Hbad) as Hcode.
    split; [|done]. apply Run_stops_at_failed_outputs; [done|done|].
    unfold IsOK. by rewrite Hcode.
  - exists (ValidateInputs s feeds). split; [by apply Run_stops_at_failed_inputs|].
    destruct (ValidateInputs_code s feeds) as [Hok|Hinv]; [|done].
    unfold IsOK in Hin. rewrite Hok in Hin. done.
Qed.

(** *** Validation, both ways *)

Lemma invalid_fold_valid (known : gset string) (names : list string) (acc : string) :
  (∀ n, n ∈ names → n ∈ known) →
  foldl (invalid_step known) (true, acc) names = (true, acc).
Proof.
  induction names as [|r names IH]; intros Hall; [done|].
  cbn [foldl]. unfold invalid_step at 2.
  rewrite decide_True by (apply Hall, elem_of_cons; by left).
  apply IH. intros n Hn. apply Hall, elem_of_cons. by right.
Qed.

Lemma missing_fold_empty feeds (names : list string) :
  (∀ n, n ∈ names → feeds !! n = None → n = "") →
  foldl (missing_step feeds) "" names = "".
Proof.
  induction names as [|r names IH]; intros Hall; [done|].
  cbn [foldl]. unfold missing_step at 2.
  case_decide as Hmiss.
  - rewrite (Hall r) by (done || apply elem_of_cons; by left).
    rewrite decide_False by (intros Hne; by apply Hne).
    apply IH. intros n Hn. apply Hall, elem_of_cons. by right.
  - apply IH. intros n Hn. apply Hall, elem_of_cons. by right.
Qed.

(** X3: [ValidateOutputs] returns OK exactly when the fetch vector is not
    null, at least one output is requested, the fetch vector is empty or
    as long as the list of names, and every requested name is an output
    of the model (a name may be requested more than once); in every other
    case its status is INVALID_ARGUMENT. *)
Theorem ValidateOutputs_OK_iff s (output_names : list string)
    (p_fetches : option (list MLValue)) :
  (ValidateOutputs s output_names p_fetches = Status_OK ↔
   ∃ fetches, p_fetches = Some fetches ∧ output_names ≠ [] ∧
              (fetches = [] ∨ length output_names = length fetches) ∧
              ∀ n, n ∈ output_names → n ∈ model_output_names_ s) ∧
  (ValidateOutputs s output_names p_fetches = Status_OK ∨
   Code (ValidateOutputs s output_names p_fetches) = INVALID_ARGUMENT).
Proof.
  clear OnRunStart OnRunEnd CopyInputsAcrossDevices MatchOutputsWithProviders Execute
        CopyOutputsAcrossDevices.
  assert (ValidateOutputs s output_names p_fetches = Status_OK ↔
          ∃ fetches, p_fetches = Some fetches ∧ output_names ≠ [] ∧
                     (fetches = [] ∨ length output_names = length fetches) ∧
                     ∀ n, n ∈ output_names → n ∈ model_output_names_ s) as Hiff.
  { split.
    - intros HOK.
      assert (¬ bad_outputs s output_names p_fetches) as Hgood.
      { intros Hbad%ValidateOutputs_rejects. by rewrite HOK in Hbad. }
      destruct p_fetches as [fetches|]; [|exfalso; apply Hgood; by left].
      exists fetches. split_and!; [done| | |].
      + intros ->. apply Hgood. right. by left.
      + destruct (decide (fetches = [])) as [|Hne]; [by left|right].
        destruct (decide (length output_names = length fetches)) as [|Hlen]; [done|].
        exfalso. apply Hgood. right. right. left. by exists fetches.
      + intros n Hn. destruct (decide (n ∈ model_output_names_ s)) as [|Hunk]; [done|].
        exfalso. apply Hgood. do 3 right. by exists n.
    - intros (fetches & -> & Hnames & Hsize & Hknown). unfold ValidateOutputs.
      rewrite decide_False by done.
      assert (negb (bool_decide (fetches = [])) &&
              bool_decide (length output_names ≠ length fetches) = false) as ->.
      { destruct Hsize as [->|Hlen]; [done|].
        rewrite (bool_decide_eq_false_2 (length output_names ≠ length fetches)) by tauto.
        apply andb_false_r. }
      by rewrite invalid_fold_valid. }
  split; [exact Hiff|].
  unfold ValidateOutputs.
  destruct p_fetches as [fetches|]; [|by right].
  case_decide; [by right|].
  destruct (negb _ && _); [by right|].
  destruct (foldl _ _ _) as [[] ?]; cbn; auto.
Qed.

(** X4: [ValidateInputNames] returns OK exactly when every required input
    with a non-empty name is fed and every fed name is an input of the
    model (initializers included); in every other case its status is
    INVALID_ARGUMENT. *)
Theorem ValidateInputNames_OK_iff s feeds :
  (ValidateInputNames s feeds = Status_OK ↔
   (∀ n, n ∈ required_model_input_names_ s → n ≠ "" → is_Some (feeds !! n)) ∧
   (∀ n, is_Some (feeds !! n) → n ∈ model_input_names_ s)) ∧
  (ValidateInputNames s feeds = Status_OK ∨
   Code (ValidateInputNames s feeds) = INVALID_ARGUMENT).
Proof.
  split.
  - split.
    + intros HOK.
      assert (¬ bad_feed_names s feeds) as Hgood.
      { intros [Hbad _]%ValidateInputNames_rejects. by rewrite HOK in Hbad. }
      split.
      * intros n Hreq Hne. destruct (feeds !! n) eqn:Hfed; [by eexists|].
        exfalso. apply Hgood. left. by exists n.
      * intros n Hfed. destruct (decide (n ∈ model_input_names_ s)) as [|Hunk]; [done|].
        exfalso. apply Hgood. right. by exists n.
    + intros [Hreq Hknown]. unfold ValidateInputNames, collect_missing.
      rewrite missing_fold_empty.
      2:{ intros n Hn%elem_of_elements Hmiss.
          destruct (decide (n = "")) as [|Hne]; [done|].
          destruct (Hreq n Hn Hne) as [v Hv]. congruence. }
      rewrite decide_False by (intros Hne; by apply Hne).
      rewrite invalid_fold_valid; [done|].
      intros n [[n' v] [-> Hin%elem_of_map_to_list]]%list_elem_of_fmap.
      apply Hknown. by exists v.
  - unfold ValidateInputNames. case_decide; [by right|].
    destruct (foldl _ _ _) as [[] ?]; cbn; auto.
Qed.

(** *** What a run calls, and when *)

(** The providers a notification loop calls are a prefix of the list: none
    when the status is already bad, all of them when it ends well. *)
Lemma notify_trace (callback : Provider → Status) (ev : Provider → Event) st trace xps :
  ∃ st' called,
    foldl (notify callback ev) (st, trace) xps = (st', trace ++ (ev <$> called)) ∧
    called `prefix_of` xps ∧
    (IsOK st = false → called = [] ∧ st' = st) ∧
    (IsOK st' = true → called = xps).
Proof.
  revert st trace. induction xps as [|xp xps IH]; intros st trace.
  - exists st, []. rewrite List.app_nil_r. done.
  - cbn [foldl]. unfold notify at 2. destruct (IsOK st) eqn:Hst.
    + destruct (IH (callback xp) (trace ++ [ev xp])) as (st' & called & Hfold & Hpre & _ & Hall).
      exists st', (xp :: called). rewrite Hfold, <- List.app_assoc.
      split_and!; [done|by apply prefix_cons|done|].
      intros Hok. by rewrite Hall.
    + destruct (IH st trace) as (st' & called & Hfold & Hpre & Hnone & Hall).
      destruct (Hnone Hst) as [-> ->].
      exists st, []. split_and!; [done|apply prefix_nil|done|congruence].
Qed.

(** X5: the executor is called only on a validated request: when the
    trace of [Run] contains the [Execute] call, the session is initialized
    and [ValidateInputs] and [ValidateOutputs] both returned OK. *)
Theorem Run_executes_only_validated s feeds (output_names : list string)
    (p_fetches : option (list MLValue)) (sequential : bool) :
  EvExecute sequential ∈ (Run s feeds output_names p_fetches).1.2 →
  is_inited_ s = true ∧
  IsOK (ValidateInputs s feeds) = true ∧
  IsOK (ValidateOutputs s output_names p_fetches) = true.
Proof.
  intros Hexec.
  destruct (is_inited_ s) eqn:Hinit.
  2:{ rewrite Run_uninitialized in Hexec by done. by apply elem_of_nil in Hexec. }
  destruct (IsOK (ValidateInputs s feeds)) eqn:Hin.
  2:{ rewrite Run_stops_at_failed_inputs in Hexec by done. by apply elem_of_nil in Hexec. }
  destruct (IsOK (ValidateOutputs s output_names p_fetches)) eqn:Hout.
  2:{ rewrite Run_stops_at_failed_outputs in Hexec by done. by apply elem_of_nil in Hexec. }
  done.
Qed.

(** X6: the calls of a run come in one order: [OnRunStart] on a prefix
    of the providers, then a prefix of the four stages (copy of the
    inputs, matching of the outputs, execution, copy of the outputs), then
    [OnRunEnd] on a prefix of the providers.  A stage is reached only
    when every provider was started, and [OnRunEnd] is called only after
    all four stages: after a failure no provider is told that the run
    ended. *)
Theorem Run_trace_shape s feeds (output_names : list string)
    (p_fetches : option (list MLValue)) :
  let stages := [EvCopyInputs; EvMatchOutputs;
                 EvExecute (enable_sequential_execution s); EvCopyOutputs] in
  ∃ (started ended : list Provider) (n : nat),
    (Run s feeds output_names p_fetches).1.2
    = (EvOnRunStart <$> started) ++ take n stages ++ (EvOnRunEnd <$> ended) ∧
    started `prefix_of` execution_providers_ s ∧
    ended `prefix_of` execution_providers_ s ∧
    (n ≠ 0%nat → started = execution_providers_ s) ∧
    (ended ≠ [] → n = 4%nat).
Proof.
  cbn zeta. unfold Session.Run, CHECK_AND_SET_RETVAL.
  set (retval := if IsOK (if IsOK _ then _ else _) then _ else _).
  destruct (notify_trace OnRunStart EvOnRunStart retval [] (execution_providers_ s))
    as (st1 & started & -> & Hpre & _ & Hall).
  cbv beta iota. rewrite app_nil_l.
  assert (∀ st trace, IsOK st = false →
            foldl (notify OnRunEnd EvOnRunEnd) (st, trace) (execution_providers_ s)
            = (st, trace)) as Hskip by (intros; by apply notify_skipped).
  destruct (IsOK st1) eqn:H1.
  2:{ cbv beta iota. rewrite H1. cbv beta iota. rewrite H1. cbv beta iota. rewrite H1.
      cbv beta iota. rewrite Hskip by done. cbn [fst snd].
      exists started, [], 0%nat. rewrite List.app_nil_r.
      split_and!; [done|done|apply prefix_nil|done|done]. }
  specialize (Hall eq_refl). subst started.
  destruct (CopyInputsAcrossDevices feeds) as [st2 copied]. cbv beta iota.
  destruct (IsOK st2) eqn:H2.
  2:{ cbv beta iota. rewrite H2. cbv beta iota. rewrite H2.
      cbv beta iota. rewrite Hskip by done. cbn [fst snd].
      exists (execution_providers_ s), [], 1%nat. rewrite List.app_nil_r.
      split_and!; [done|done|apply prefix_nil|done|done]. }
  destruct (MatchOutputsWithProviders output_names (default [] p_fetches))
    as [[st3 fetches] new_fetches]. cbv beta iota.
  destruct (IsOK st3) eqn:H3.
  2:{ cbv beta iota. rewrite H3.
      cbv beta iota. rewrite Hskip by done. cbn [fst snd].
      exists (execution_providers_ s), [], 2%nat. rewrite List.app_nil_r, <- List.app_assoc.
      split_and!; [done|done|apply prefix_nil|done|done]. }
  destruct (Execute (enable_sequential_execution s) copied output_names new_fetches)
    as [st4 new_fetches']. cbv beta iota.
  destruct (IsOK st4) eqn:H4.
  2:{ cbv beta iota. rewrite Hskip by done. cbn [fst snd].
      exists (execution_providers_ s), [], 3%nat. rewrite List.app_nil_r, <- !List.app_assoc.
      split_and!; [done|done|apply prefix_nil|done|done]. }
  destruct (CopyOutputsAcrossDevices new_fetches' (default [] (Some fetches)))
    as [st5 user_fetches]. cbv beta iota.
  match goal with
  | |- context [foldl (notify OnRunEnd EvOnRunEnd) (?st, ?trace) ?xps] =>
      destruct (notify_trace OnRunEnd EvOnRunEnd st trace xps)
        as (st6 & ended & -> & Hpre' & _ & _)
  end.
  cbn [fst snd].
  exists (execution_providers_ s), ended, 4%nat. rewrite <- !List.app_assoc.
  split_and!; done.
Qed.

(** *** Load and the queries *)

(** X7: before a model is loaded the three queries answer FAIL with a
    null pointer.  Once an overload of [Load] has obtained a model [m] on
    a session that holds none, it returns OK and the queries answer from
    [m]: its metadata, its inputs without the initializers, its outputs;
    the names [Run] validates against are the inputs of [m] without and
    with the initializers and its outputs. *)
Theorem Load_then_queries s (m : Model) :
  unloaded s →
  (GetModelMetadata s = (not_loaded, None) ∧
   GetModelInputs s = (not_loaded, None) ∧
   GetModelOutputs s = (not_loaded, None)) ∧
  ∃ s',
    (∀ model_uri, Model_Load_uri model_uri = inr m →
                  Load_uri s model_uri = (Status_OK, s')) ∧
    (∀ model_proto, Model_Load_proto model_proto = inr m →
       Load_proto s model_proto = (Status_OK, s') ∧
       Load_unique_proto s model_proto = (Status_OK, s') ∧
       ∀ model_istream, ParseFromIstream model_istream = Some model_proto →
                        Load_istream s model_istream = (Status_OK, s')) ∧
    GetModelMetadata s' = (Status_OK, Some (Some (GetMetadata m))) ∧
    GetModelInputs s' = (Status_OK, Some (GetInputs m)) ∧
    GetModelOutputs s' = (Status_OK, Some (GetOutputs m)) ∧
    required_model_input_names_ s' = list_to_set (GetInputs m) ∧
    model_input_names_ s' = list_to_set (GetInputsIncludingInitializers m) ∧
    model_output_names_ s' = list_to_set (GetOutputs m).
Proof.
  clear Type_ IsTensor TensorDataType GetMLDataType GetElementType type_name
        OnRunStart OnRunEnd CopyInputsAcrossDevices MatchOutputsWithProviders Execute
        CopyOutputsAcrossDevices.
  intros (Hloaded & Hmeta & Hreq & Hin & Hout & Hreqs & Hins & Houts).
  split.
  { unfold GetModelMetadata, GetModelInputs, GetModelOutputs. by rewrite Hloaded. }
  exists (load_model s (inr m)).2.
  split_and!.
  - intros model_uri Hm. unfold Session.Load_uri. by rewrite Hloaded, Hm.
  - intros model_proto Hm.
    unfold Session.Load_proto, Session.Load_unique_proto, Session.Load_istream.
    rewrite Hloaded, Hm. split_and!; [done|done|].
    intros model_istream ->. by rewrite Hm.
  - done.
  - unfold GetModelInputs. cbn. by rewrite Hreq.
  - unfold GetModelOutputs. cbn. by rewrite Hout.
  - change (required_model_input_names_ (load_model s (inr m)).2)
      with (foldl (λ acc n, acc ∪ {[n]}) (required_model_input_names_ s) (GetInputs m)).
    by rewrite names_fold, Hreqs, (left_id_L ∅ (∪)).
  - change (model_input_names_ (load_model s (inr m)).2)
      with (foldl (λ acc n, acc ∪ {[n]}) (model_input_names_ s)
                  (GetInputsIncludingInitializers m)).
    by rewrite names_fold, Hins, (left_id_L ∅ (∪)).
  - change (model_output_names_ (load_model s (inr m)).2)
      with (foldl (λ acc n, acc ∪ {[n]}) (model_output_names_ s) (GetOutputs m)).
    by rewrite names_fold, Houts, (left_id_L ∅ (∪)).
Qed.

(** *** Initialize *)

  Context {SessionState : Type}.
  Context (kCpuExecutionProvider : string)
          (execution_providers_Get : list Provider → string → option Provider)
          (execution_providers_Add : list Provider → string → Provider → list Provider)
          (CPUExecutionProvider : Provider)
          (RegisterKernels : list Provider → SessionState
                             → option Exception * (list Provider * SessionState))
          (CreatePlan : bool → Reach (Model := Model) (Provider := Provider)
                                     (SessionState := SessionState)
                        → (Exception + Status) * Reach (Model := Model) (Provider := Provider)
                                                       (SessionState := SessionState))
          (InitializeAndSave InitializeSubgraphSessions :
             Reach (Model := Model) (Provider := Provider) (SessionState := SessionState)
             → (Exception + Status) * Reach (Model := Model) (Provider := Provider)
                                            (SessionState := SessionState)).

  Local Abbreviation Initialize :=
    (Initialize (ModelMetadata := ModelMetadata)
                kCpuExecutionProvider execution_providers_Get execution_providers_Add
                CPUExecutionProvider RegisterKernels CreatePlan InitializeAndSave
                InitializeSubgraphSessions).

Lemma caught_not_OK (e : Exception) : IsOK (caught e) = false.
Proof. by destruct e. Qed.

(** [Initialize] ends in one of two ways: with OK and the flag set, or
    with an error and the flag as it was. *)
Lemma Initialize_cases s (ss : SessionState) st s' ss' :
  Initialize s ss = Some (st, s', ss') →
  (IsOK st = true ∧ is_model_loaded_ s = true ∧ is_inited_ s' = true) ∨
  (IsOK st = false ∧ is_inited_ s' = is_inited_ s).
Proof.
  unfold Session.Initialize.
  destruct (is_model_loaded_ s) eqn:Hloaded; cbn [negb]; [|intros [= <- <- <-]; by right].
  destruct (is_inited_ s) eqn:Hinited; [intros [= <- <- <-]; by left|].
  destruct (model_ s) as [model|]; [|done].
  destruct (RegisterKernels _ _) as [[e|] [xps1 ss1]];
    [intros [= <- <- <-]; right; by rewrite caught_not_OK|].
  destruct (CreatePlan _ _) as [[e|st1] r1];
    [intros [= <- <- <-]; right; by rewrite caught_not_OK|].
  destruct (IsOK st1) eqn:H1; cbn [negb]; [|intros [= <- <- <-]; by right].
  destruct (InitializeAndSave r1) as [[e|st2] r2];
    [intros [= <- <- <-]; right; by rewrite caught_not_OK|].
  destruct (IsOK st2) eqn:H2; cbn [negb]; [|intros [= <- <- <-]; by right].
  destruct (InitializeSubgraphSessions r2) as [[e|st3] r3];
    [intros [= <- <- <-]; right; by rewrite caught_not_OK|].
  destruct (IsOK st3) eqn:H3; cbn [negb]; [|intros [= <- <- <-]; by right].
  intros [= <- <- <-]. by left.
Qed.

(** On a loaded session that is not initialized, [Initialize] has a
    defined result exactly when there is a model to take the graph from. *)
Lemma Initialize_defined s (ss : SessionState) :
  is_model_loaded_ s = true → is_inited_ s = false →
  Initialize s ss = None ↔ model_ s = None.
Proof.
  intros Hloaded Hinited. unfold Session.Initialize. rewrite Hloaded, Hinited. cbn [negb].
  destruct (model_ s) as [model|]; [|done].
  split; [|done].
  destruct (RegisterKernels _ _) as [[e|] [xps1 ss1]]; [done|].
  destruct (CreatePlan _ _) as [[e|st1] r1]; [done|].
  destruct (IsOK st1); cbn [negb]; [|done].
  destruct (InitializeAndSave r1) as [[e|st2] r2]; [done|].
  destruct (IsOK st2); cbn [negb]; [|done].
  destruct (InitializeSubgraphSessions r2) as [[e|st3] r3]; [done|].
  by destruct (IsOK st3).
Qed.

(** X16: [Initialize] and [Run] fit together.  Without a loaded model
    [Initialize] returns FAIL and on an initialized session it returns OK,
    nothing changed in both cases; on a loaded session that is not
    initialized its behaviour is defined exactly when the session holds a
    model.  Whatever the stages of the initialization do to the graph,
    the providers and the session state, [Initialize] returns OK only on a
    loaded model and then [is_inited_] is set, and it sets [is_inited_]
    only when it returns OK; so after a failed initialization every [Run]
    is answered with FAIL without any call to a provider or the
    executor. *)
Theorem Initialize_guards_Run s (ss : SessionState) :
  (is_model_loaded_ s = false → Initialize s ss = Some (not_loaded, s, ss)) ∧
  (is_model_loaded_ s = true → is_inited_ s = true →
   Initialize s ss = Some (Status_OK, s, ss)) ∧
  (is_model_loaded_ s = true → is_inited_ s = false →
   Initialize s ss = None ↔ model_ s = None) ∧
  (∀ st s' ss',
      Initialize s ss = Some (st, s', ss') →
      (IsOK st = true → is_model_loaded_ s = true ∧ is_inited_ s' = true) ∧
      (is_inited_ s' = true → is_inited_ s = true ∨ IsOK st = true) ∧
      (is_inited_ s = false → IsOK st = false →
       ∀ feeds output_names p_fetches,
         Run s' feeds output_names p_fetches
         = (mkStatus FAIL "Session not initialized.", [], p_fetches))).
Proof.
  split_and!.
  - intros Hloaded. unfold Session.Initialize. by rewrite Hloaded.
  - intros Hloaded Hinited. unfold Session.Initialize. by rewrite Hloaded, Hinited.
  - apply Initialize_defined.
  - intros st s' ss' Hrun. pose proof (Initialize_cases s ss st s' ss' Hrun) as Hcases.
    split_and!.
    + intros Hok. destruct Hcases as [(_ & ? & ?)|[Hbad _]]; [done|congruence].
    + intros Hflag. destruct Hcases as [(? & _)|[_ Hkeep]]; [by right|left; congruence].
    + intros Hinited Hbad feeds output_names p_fetches. apply Run_uninitialized.
      destruct Hcases as [(? & _)|[_ Hkeep]]; congruence.
Qed.
End Impl.

(** *** Custom operators *)

Section CustomOps.
  Context {CustomRegistry : Type}
          (loader : string → Status * option CustomRegistry).

(** The library at [path] loads: the loader returns OK and the registry [r]. *)
Definition loads (path : string) (r : CustomRegistry) : Prop :=
  ∃ st, loader path = (st, Some r) ∧ IsOK st = true.

Lemma LoadCustomOps_loop_prefix (regs : Registries) (dso_list : list string) :
  ∃ added : list CustomRegistry,
    (LoadCustomOps_loop loader regs dso_list).2
    = mkRegistries (kernel_registries regs ++ added)
                   (custom_schema_registries_ regs ++ added) ∧
    Forall2 loads (take (length added) dso_list) added ∧
    (IsOK (LoadCustomOps_loop loader regs dso_list).1 = true →
     length added = length dso_list) ∧
    (length added < length dso_list →
     ∀ path, dso_list !! length added = Some path →
             (LoadCustomOps_loop loader regs dso_list).1 =
               (if IsOK (loader path).1
                then mkStatus FAIL "Null custom_registry after loading custom ops."
                else (loader path).1) ∧
             ∀ r, ¬ loads path r)%nat.
Proof.
  revert regs. induction dso_list as [|path rest IH]; intros regs.
  - exists []. cbn. rewrite !List.app_nil_r. destruct regs.
    split_and!; [done|constructor|done|lia].
  - cbn [LoadCustomOps_loop]. destruct (loader path) as [st custom_registry] eqn:Hload.
    destruct (IsOK st) eqn:Hst; cbn [negb].
    2:{ exists []. cbn [snd fst]. rewrite !List.app_nil_r. destruct regs.
        split_and!; [done|constructor|by rewrite Hst|].
        intros _ p [= <-]. rewrite Hload. cbn [fst]. rewrite Hst. split; [done|].
        intros r (st' & Hr & Hok). congruence. }
    destruct custom_registry as [r|].
    2:{ exists []. cbn [snd fst]. rewrite !List.app_nil_r. destruct regs.
        split_and!; [done|constructor|done|].
        intros _ p [= <-]. rewrite Hload. cbn [fst]. rewrite Hst. split; [done|].
        intros r (st' & Hr & Hok). congruence. }
    cbn [RegisterCustomRegistry]. change (IsOK Status_OK) with true. cbn [negb].
    destruct (IH (mkRegistries (kernel_registries regs ++ [r])
                               (custom_schema_registries_ regs ++ [r])))
      as (added & Hregs & Hloads & Hok & Hfail).
    exists (r :: added). cbn [kernel_registries custom_schema_registries_] in Hregs.
    rewrite <- !List.app_assoc in Hregs.
    split_and!.
    + exact Hregs.
    + cbn. constructor; [by exists st|done].
    + intros H. cbn. by rewrite Hok.
    + cbn [length lookup list_lookup]. intros Hlt p Hp. apply Hfail; [lia|done].
Qed.

(** X8: [LoadCustomOps] registers the registries of the libraries in the
    order of the list, each with the kernel registry manager and with the
    schema registries, and stops at the first library that fails to load
    or hands back no registry: the registries of the libraries before it
    stay registered and the status is the loader's (or FAIL for a missing
    registry).  It returns OK only when every library was registered, and
    an empty list is an INVALID_ARGUMENT. *)
Theorem LoadCustomOps_registers_prefix (regs : Registries) (dso_list : list string) :
  ∃ added : list CustomRegistry,
    (LoadCustomOps loader regs dso_list).2
    = mkRegistries (kernel_registries regs ++ added)
                   (custom_schema_registries_ regs ++ added) ∧
    Forall2 loads (take (length added) dso_list) added ∧
    (IsOK (LoadCustomOps loader regs dso_list).1 = true →
     dso_list ≠ [] ∧ length added = length dso_list) ∧
    (dso_list = [] → Code (LoadCustomOps loader regs dso_list).1 = INVALID_ARGUMENT) ∧
    (∀ path, dso_list !! length added = Some path →
             (LoadCustomOps loader regs dso_list).1 =
               (if IsOK (loader path).1
                then mkStatus FAIL "Null custom_registry after loading custom ops."
                else (loader path).1) ∧
             ∀ r, ¬ loads path r).
Proof.
  unfold LoadCustomOps. case_decide as Hnil.
  - subst dso_list. exists []. cbn. rewrite !List.app_nil_r. destruct regs.
    split_and!; [done|constructor|done|done|done].
  - destruct (LoadCustomOps_loop_prefix regs dso_list) as (added & Hregs & Hloads & Hok & Hfail).
    exists added. split_and!; [done|done| |done|].
    + intros H. split; [done|by apply Hok].
    + intros path Hpath. apply Hfail; [|done]. by apply lookup_lt_Some in Hpath.
Qed.
End CustomOps.

(** *** Matching the outputs with the providers *)

Lemma size_list_to_set_le (l : list string) : size (list_to_set (C := gset string) l) ≤ length l.
Proof.
  induction l as [|x l IH]; cbn [list_to_set length]; [by rewrite size_empty|].
  rewrite size_union_alt, size_singleton.
  assert (list_to_set (C := gset string) l ∖ {[x]} ⊆ list_to_set l) as Hsub
    by apply subseteq_difference_l, reflexivity.
  apply subseteq_size in Hsub. lia.
Qed.

(** A set of names drawn from a list is as large as the list only when
    the list has no repetition and the set holds all of it. *)
Lemma full_set_NoDup (seen : gset string) (l : list string) :
  (∀ n, n ∈ seen → n ∈ l) → size seen = length l →
  NoDup l ∧ ∀ n, n ∈ l → n ∈ seen.
Proof.
  intros Hsub Hsize.
  assert (seen ⊆ list_to_set l) as Hincl by (intros n Hn; apply elem_of_list_to_set, Hsub, Hn).
  pose proof (subseteq_size _ _ Hincl) as H1.
  pose proof (size_list_to_set_le l) as H2.
  assert (seen = list_to_set l) as ->.
  { apply set_subseteq_size_eq; [done|lia]. }
  split; [|by intros n Hn; apply elem_of_list_to_set].
  clear Hsub Hincl H1. revert Hsize H2. generalize (size_list_to_set_le l).
  intros _. induction l as [|x l IH]; [constructor|].
  cbn [list_to_set length]. intros Hsize _.
  pose proof (size_list_to_set_le l) as Hl.
  destruct (decide (x ∈ l)) as [Hin|Hout].
  - rewrite (subseteq_union_1_L {[x]} (list_to_set l)) in Hsize by set_solver. lia.
  - rewrite size_union in Hsize by set_solver. rewrite size_singleton in Hsize.
    constructor; [done|]. apply IH; lia.
Qed.

Section Matching.
  Context {MLValue Provider AllocatorInfo : Type}.
  Context (MLValue_default : MLValue) (IsAllocated IsTensor : MLValue → bool)
          (Location : MLValue → AllocatorInfo).
  Context (Get_by_location : AllocatorInfo → option Provider)
          (Get_by_type : string → option Provider)
          (Type_ : Provider → string) (kCpuExecutionProvider : string).
  Context (GetIdx : string → Status * Z) (weights : gmap Z MLValue).

  Local Abbreviation match_def :=
    (match_def IsAllocated IsTensor Location Get_by_location Get_by_type Type_
               kCpuExecutionProvider).
  Local Abbreviation match_nodes :=
    (match_nodes IsAllocated IsTensor Location Get_by_location Get_by_type Type_
                 kCpuExecutionProvider).
  Local Abbreviation match_weights := (match_weights GetIdx weights).
  Local Abbreviation MatchOutputsWithProviders :=
    (MatchOutputsWithProviders MLValue_default IsAllocated IsTensor Location Get_by_location
                               Get_by_type Type_ kCpuExecutionProvider GetIdx weights).
  Local Abbreviation produced := (produced GetIdx weights).

Lemma Contains_found (output_names : list string) (n : string) :
  (Contains output_names n).1 = true → n ∈ output_names.
Proof.
  unfold Contains. destruct (list_find _ _) as [[i x]|] eqn:Hfind; [|done].
  intros _. apply list_find_Some in Hfind as (Hi & -> & _). by eapply list_elem_of_lookup_2.
Qed.

Definition seen_ok (graph : GraphViewer) (output_names : list string)
    (st : gset string * list MLValue) : Prop :=
  (∀ n, n ∈ st.1 → n ∈ output_names ∧ n ≠ "" ∧ produced graph n) ∧
  length st.2 = length output_names.

Lemma match_def_seen_ok graph output_names fetches node st arg st' :
  node ∈ Nodes graph → arg ∈ OutputDefs node →
  seen_ok graph output_names st →
  match_def output_names fetches node st arg = Some st' →
  seen_ok graph output_names st'.
Proof.
  intros Hnode Harg [Hseen Hlen]. destruct st as [seen new_fetches].
  unfold Session.match_def.
  destruct (Exists arg) eqn:Hex; cbn [negb orb]; [|by intros [= <-]].
  case_bool_decide as Hname; cbn [orb]; [by intros [= <-]|].
  destruct (Contains output_names (Name arg)).1 eqn:Hfound; cbn [negb]; [|by intros [= <-]].
  assert (seen_ok graph output_names (seen ∪ {[Name arg]}, new_fetches)) as Hok.
  { split; [|done]. cbn. intros n [Hn| ->%elem_of_singleton]%elem_of_union; [by apply Hseen|].
    split_and!; [by apply Contains_found|done|]. left. by exists node, arg. }
  assert (∀ i v, seen_ok graph output_names (seen ∪ {[Name arg]}, <[i := v]> new_fetches))
    as Hok'.
  { intros i v. destruct Hok as [H1 H2]. split; [done|]. cbn in *. by rewrite length_insert. }
  intros H. repeat case_match; simplify_eq; done.
Qed.

Lemma match_defs_seen_ok graph output_names fetches node defs st st' :
  node ∈ Nodes graph → (∀ arg, arg ∈ defs → arg ∈ OutputDefs node) →
  seen_ok graph output_names st →
  foldl (λ acc arg, acc ≫= λ st, match_def output_names fetches node st arg) (Some st) defs
  = Some st' →
  seen_ok graph output_names st'.
Proof.
  intros Hnode. revert st'. induction defs as [|arg defs IH] using rev_ind; intros st' Hdefs Hst.
  - by intros [= <-].
  - rewrite foldl_app. cbn [foldl].
    destruct (foldl _ _ defs) as [st1|] eqn:Hfold; [|done]. cbn [mbind option_bind].
    apply match_def_seen_ok; [done|apply Hdefs, elem_of_app; right; apply list_elem_of_here|].
    apply IH; [|done..]. intros a Ha. apply Hdefs, elem_of_app. by left.
Qed.

Lemma match_nodes_seen_ok graph output_names fetches nodes st st' :
  (∀ node, node ∈ nodes → node ∈ Nodes graph) →
  seen_ok graph output_names st →
  match_nodes output_names fetches nodes st = Some st' →
  seen_ok graph output_names st'.
Proof.
  revert st. induction nodes as [|node nodes IH]; intros st Hnodes Hst; cbn [Session.match_nodes].
  - by intros [= <-].
  - case_decide; [by intros [= <-]|].
    destruct (foldl _ _ (OutputDefs node)) as [st1|] eqn:Hfold; [|done].
    apply IH; [by intros n Hn; apply Hnodes, list_elem_of_further|].
    eapply match_defs_seen_ok; [apply Hnodes, list_elem_of_here| |exact Hst|exact Hfold]; done.
Qed.

Lemma match_weights_seen_ok graph output_names defs st early st' :
  (∀ one_def, one_def ∈ defs → one_def ∈ GetOutputs graph) →
  seen_ok graph output_names st →
  match_weights output_names defs st = (early, st') →
  seen_ok graph output_names st' ∧ (∀ status, early = Some status → IsOK status = false).
Proof.
  revert st. induction defs as [|one_def defs IH]; intros st Hdefs Hst;
    cbn [Session.match_weights].
  - by intros [= <- <-].
  - assert (∀ d, d ∈ defs → d ∈ GetOutputs graph) as Hrest
      by (by intros d Hd; apply Hdefs, list_elem_of_further).
    destruct st as [seen new_fetches].
    destruct (Exists one_def) eqn:Hex; cbn [negb orb]; [|by apply IH].
    case_bool_decide as Hname; cbn [orb]; [by apply IH|].
    case_bool_decide as Hseen; cbn [orb]; [by apply IH|].
    destruct (Contains output_names (Name one_def)).1 eqn:Hfound; cbn [negb]; [|by apply IH].
    destruct (GetIdx (Name one_def)) as [status mlvalue_idx] eqn:Hidx.
    destruct (IsOK status) eqn:Hstatus; cbn [negb].
    + destruct (weights !! mlvalue_idx) as [weight|] eqn:Hw; [|by apply IH].
      apply IH; [done|]. destruct Hst as [H1 H2]. split; cbn in *.
      * intros n [Hn| ->%elem_of_singleton]%elem_of_union; [by apply H1|].
        split_and!; [by apply Contains_found|done|]. right. exists one_def.
        rewrite Hidx. cbn. split_and!; [apply Hdefs, list_elem_of_here|done..|by eexists].
      * by rewrite length_insert.
    + intros [= <- <-]. split; [done|]. by intros ? [= <-].
Qed.

(** X13: when [MatchOutputsWithProviders] returns OK, the requested output
    names are pairwise distinct and not empty, each is produced by the
    graph (an existing output definition of a node, or a graph output that
    is held as a weight), and [new_fetches] has one slot per name. *)
Theorem MatchOutputs_OK_only_if (graph : GraphViewer) (output_names : list string)
    (fetches new_fetches fetches' new_fetches' : list MLValue) (status : Status) :
  MatchOutputsWithProviders (Some graph) output_names fetches new_fetches
  = Some (Returned (status, fetches', new_fetches')) →
  IsOK status = true →
  NoDup output_names ∧
  (∀ n, n ∈ output_names → n ≠ "" ∧ produced graph n) ∧
  length new_fetches' = length output_names.
Proof.
  unfold Session.MatchOutputsWithProviders.
  set (fs := if decide (fetches = []) then _ else _).
  assert (seen_ok graph output_names (∅, resize MLValue_default new_fetches (length output_names)))
    as Hinit.
  { split; [by intros n Hn%elem_of_empty|]. cbn. unfold resize.
    rewrite length_app, length_take, length_replicate. lia. }
  destruct (match_nodes _ _ _ _) as [[seen nf]|] eqn:Hnodes; [|done].
  apply match_nodes_seen_ok with (graph := graph) in Hnodes; [|done..].
  assert (∀ seen nf, seen_ok graph output_names (seen, nf) →
                     size seen = length output_names →
                     NoDup output_names ∧
                     (∀ n, n ∈ output_names → n ≠ "" ∧ produced graph n) ∧
                     length nf = length output_names) as Hfull.
  { intros seen0 nf0 [Hseen Hlen] Hsize. cbn in *.
    destruct (full_set_NoDup seen0 output_names) as [Hnd Hall]; [by intros n Hn; apply Hseen|done|].
    split_and!; [done| |done]. intros n Hn. by destruct (Hseen n (Hall n Hn)) as (_ & ? & ?). }
  case_decide as Hsize.
  - intros [= <- <- <-] _. by apply (Hfull seen).
  - destruct (match_weights _ _ _) as [early [seen2 nf2]] eqn:Hw.
    apply match_weights_seen_ok with (graph := graph) in Hw as [Hok Hearly]; [|done..].
    destruct early as [status1|].
    + intros [= <- <- <-] Hok1. rewrite (Hearly _ eq_refl) in Hok1. done.
    + case_decide as Hsize2; [by intros [= <- <- <-]|].
      intros [= <- <- <-] _. apply (Hfull seen2); [done|]. exact Hsize2.
Qed.

Lemma Contains_index (output_names : list string) (n : string) :
  n ∈ output_names →
  (Contains output_names n).1 = true ∧ ((Contains output_names n).2 < length output_names)%nat.
Proof.
  intros Hn. unfold Contains.
  destruct (list_find _ _) as [[i x]|] eqn:Hfind.
  - apply list_find_Some in Hfind as (Hi & _). split; [done|]. by eapply lookup_lt_Some.
  - apply list_find_None in Hfind. by eapply Forall_forall in Hfind.
Qed.

Section Unallocated.
  Context (output_names : list string).
  Context (Hdefault : IsAllocated MLValue_default = false).
  Local Abbreviation blank := (replicate (length output_names) MLValue_default).

Lemma match_def_blank node seen arg :
  match_def output_names blank node (seen, blank) arg
  = Some (if wanted output_names arg then seen ∪ {[Name arg]} else seen, blank).
Proof.
  unfold Session.match_def, wanted.
  destruct (Exists arg); cbn [negb orb andb]; [|done].
  case_bool_decide as Hname; cbn [negb orb andb]; [done|].
  destruct (Contains output_names (Name arg)).1 eqn:Hfound; cbn [negb]; [|done].
  destruct (Contains_index output_names (Name arg)) as [_ Hidx]; [by apply Contains_found|].
  unfold blank. rewrite lookup_replicate_2 by done. rewrite Hdefault.
  rewrite list_insert_id; [done|]. by apply lookup_replicate_2.
Qed.

Lemma match_defs_blank node seen defs :
  ∃ seen', foldl (λ acc arg, acc ≫= λ st, match_def output_names blank node st arg)
                 (Some (seen, blank)) defs = Some (seen', blank) ∧
           seen ⊆ seen' ∧
           (∀ n, n ∈ seen' → n ∈ seen ∨ n ∈ output_names) ∧
           ∀ arg, arg ∈ defs → wanted output_names arg = true → Name arg ∈ seen'.
Proof.
  induction defs as [|arg defs IH] using rev_ind.
  - exists seen. split_and!; [done|done|by left|]. by intros arg Harg%elem_of_nil.
  - destruct IH as (seen1 & Hfold & Hsub & Hnames & Hall).
    rewrite foldl_app. cbn [foldl]. rewrite Hfold. cbn [mbind option_bind].
    rewrite match_def_blank. eexists. split; [reflexivity|].
    destruct (wanted output_names arg) eqn:Hw.
    + split_and!.
      * intros n Hn. apply elem_of_union. left. by apply Hsub.
      * intros n [Hn| ->%elem_of_singleton]%elem_of_union; [by apply Hnames|].
        right. apply Contains_found. unfold wanted in Hw.
        by apply andb_true_iff in Hw as [_ Hw].
      * intros a [Ha| ->%list_elem_of_singleton]%elem_of_app Hwa; apply elem_of_union;
          [left; by apply Hall|right; by apply elem_of_singleton].
    + split_and!; [done..|].
      intros a [Ha| ->%list_elem_of_singleton]%elem_of_app Hwa; [by apply Hall|congruence].
Qed.

Lemma match_nodes_blank nodes seen :
  (∀ n, n ∈ seen → n ∈ output_names) →
  NoDup output_names →
  ∃ seen', match_nodes output_names blank nodes (seen, blank) = Some (seen', blank) ∧
           (∀ n, n ∈ seen' → n ∈ output_names) ∧
           (size seen' = length output_names ∨
            ∀ node arg, node ∈ nodes → arg ∈ OutputDefs node →
                        wanted output_names arg = true → Name arg ∈ seen').
Proof.
  intros Hseen Hnd. revert seen Hseen.
  induction nodes as [|node nodes IH]; intros seen Hseen; cbn [Session.match_nodes].
  - exists seen. split_and!; [done..|]. right. by intros node arg Hnode%elem_of_nil.
  - cbn [fst]. case_decide as Hsize.
    + exists seen. split_and!; [done..|]. left. unfold blank in Hsize.
      by rewrite length_replicate in Hsize.
    + destruct (match_defs_blank node seen (OutputDefs node))
        as (seen1 & -> & Hsub & Hnames & Hall).
      destruct (IH seen1) as (seen2 & Hrest & Hnames2 & Hfull).
      { intros n Hn. destruct (Hnames n Hn); [by apply Hseen|done]. }
      exists seen2. split_and!; [done..|].
      destruct Hfull as [Hfull|Hfull]; [by left|].
      (* the names of [node] stay in the set *)
      assert (seen1 ⊆ seen2) as Hmono.
      { clear -Hrest Hdefault. revert seen1 Hrest.
        induction nodes as [|node' nodes IH']; intros seen1; cbn [Session.match_nodes].
        - by intros [= <-].
        - cbn [fst]. case_decide; [by intros [= <-]|].
          destruct (match_defs_blank node' seen1 (OutputDefs node'))
            as (seen3 & -> & Hsub3 & _). intros Hrest. etrans; [exact Hsub3|by apply IH']. }
      right. intros node' arg [->|Hnode']%elem_of_cons Harg Hw.
      * by apply Hmono, Hall.
      * by eapply Hfull.
Qed.
End Unallocated.

(** X14: when nothing is pre-allocated (both vectors empty, a default
    [MLValue] not allocated), the requested names are pairwise distinct and
    each is the non-empty name of an existing output definition of some
    node, [MatchOutputsWithProviders] returns OK and leaves both vectors
    with one default value per name. *)
Theorem MatchOutputs_unallocated (graph : GraphViewer) (output_names : list string) :
  IsAllocated MLValue_default = false →
  NoDup output_names →
  (∀ n, n ∈ output_names →
        n ≠ "" ∧ ∃ node arg, node ∈ Nodes graph ∧ arg ∈ OutputDefs node ∧
                             Exists arg = true ∧ Name arg = n) →
  MatchOutputsWithProviders (Some graph) output_names [] []
  = Some (Returned (Status_OK, replicate (length output_names) MLValue_default,
                    replicate (length output_names) MLValue_default)).
Proof.
  intros Hdefault Hnd Hall. unfold Session.MatchOutputsWithProviders.
  rewrite decide_True by done. unfold resize. rewrite take_nil. cbn [length app].
  rewrite Nat.sub_0_r.
  destruct (match_nodes_blank output_names Hdefault (Nodes graph) ∅)
    as (seen & -> & Hnames & Hfull); [by intros n Hn%elem_of_empty|done|].
  rewrite decide_True; [done|].
  destruct Hfull as [Hfull|Hfull]; [done|].
  assert (seen = list_to_set output_names) as ->.
  { apply set_eq. intros n. rewrite elem_of_list_to_set. split; [apply Hnames|].
    intros Hn. destruct (Hall n Hn) as (Hne & node & arg & Hnode & Harg & Hex & <-).
    apply (Hfull node arg); [done..|]. unfold wanted. rewrite Hex.
    rewrite bool_decide_eq_false_2 by done.
    by destruct (Contains_index output_names (Name arg) Hn) as [-> _]. }
  by apply size_list_to_set.
Qed.
End Matching.

(** *** Copying the feeds *)

Section Copying.
  Context {MLValue : Type}.
  Context (CopyOneInputAcrossDevices : string → MLValue → Status * MLValue).

  Local Abbreviation CopyInputs_loop := (CopyInputs_loop CopyOneInputAcrossDevices).
  Local Abbreviation CopyInputsAcrossDevices :=
    (CopyInputsAcrossDevices CopyOneInputAcrossDevices).

Lemma CopyInputs_loop_spec pairs new_feeds :
  NoDup pairs.*1 →
  let r := CopyInputs_loop pairs new_feeds in
  (IsOK r.1 = true →
   r.1 = Status_OK ∧
   (∀ n v, (n, v) ∈ pairs → IsOK (CopyOneInputAcrossDevices n v).1 = true ∧
                            r.2 !! n = Some (CopyOneInputAcrossDevices n v).2) ∧
   (∀ n, n ∉ pairs.*1 → r.2 !! n = new_feeds !! n)) ∧
  (IsOK r.1 = false →
   ∃ n v, (n, v) ∈ pairs ∧ r.1 = (CopyOneInputAcrossDevices n v).1).
Proof.
  revert new_feeds. induction pairs as [|[n v] pairs IH]; intros new_feeds Hnd; cbn zeta.
  - cbn. split; [|done]. intros _. split_and!; [done| |done]. by intros n v Hin%elem_of_nil.
  - cbn [Session.CopyInputs_loop]. apply NoDup_cons in Hnd as [Hn Hnd].
    destruct (CopyOneInputAcrossDevices n v) as [st new_mlvalue] eqn:Hcopy.
    destruct (IsOK st) eqn:Hst; cbn [negb].
    + destruct (IH (<[n := new_mlvalue]> new_feeds) Hnd) as [Hok Hbad]. cbn zeta in *. split.
      * intros Hr. destruct (Hok Hr) as (H1 & H2 & H3). split_and!; [done| |].
        -- intros n' v' [[= -> ->]|Hin]%elem_of_cons.
           ++ rewrite Hcopy. split; [done|]. rewrite H3 by done. apply lookup_insert_eq.
           ++ by apply H2.
        -- intros n' Hn'. cbn in Hn'. apply not_elem_of_cons in Hn' as [Hne Hn'].
           rewrite H3 by done. by apply lookup_insert_ne.
      * intros Hr. destruct (Hbad Hr) as (n' & v' & Hin & Heq).
        exists n', v'. split; [by apply list_elem_of_further|done].
    + cbn [fst snd]. split; [congruence|]. intros _. exists n, v.
      split; [apply list_elem_of_here|by rewrite Hcopy].
Qed.

(** X18: [CopyInputsAcrossDevices] returns OK exactly when the copy of
    every feed returns OK; [new_feeds] then holds, under the name of every
    feed, the copy of its value, and is otherwise as it was.  When it does
    not return OK its status is the one of the copy of some feed. *)
Theorem CopyInputs_spec (orig_feeds new_feeds : gmap string MLValue) :
  let r := CopyInputsAcrossDevices orig_feeds new_feeds in
  (IsOK r.1 = true →
   r.1 = Status_OK ∧
   ∀ n, r.2 !! n = match orig_feeds !! n with
                   | Some v => Some (CopyOneInputAcrossDevices n v).2
                   | None => new_feeds !! n
                   end) ∧
  (IsOK r.1 = true ↔ ∀ n v, orig_feeds !! n = Some v →
                            IsOK (CopyOneInputAcrossDevices n v).1 = true) ∧
  (IsOK r.1 = false →
   ∃ n v, orig_feeds !! n = Some v ∧ r.1 = (CopyOneInputAcrossDevices n v).1).
Proof.
  cbn zeta. unfold Session.CopyInputsAcrossDevices.
  destruct (CopyInputs_loop_spec (map_to_list orig_feeds) new_feeds) as [Hok Hbad];
    [apply NoDup_fst_map_to_list|]. cbn zeta in *.
  split_and!.
  - intros Hr. destruct (Hok Hr) as (H1 & H2 & H3). split; [done|]. intros n.
    destruct (orig_feeds !! n) as [v|] eqn:Hn.
    + by apply H2, elem_of_map_to_list.
    + apply H3. intros [[n' v'] [-> Hin%elem_of_map_to_list]]%list_elem_of_fmap.
      cbn in Hn. congruence.
  - split.
    + intros Hr n v Hn. destruct (Hok Hr) as (_ & H2 & _). by apply H2, elem_of_map_to_list.
    + intros Hall. destruct (IsOK _) eqn:Hr; [done|].
      destruct (Hbad eq_refl) as (n & v & Hin%elem_of_map_to_list & Heq).
      rewrite Heq in Hr. rewrite Hall in Hr; done.
  - intros Hr. destruct (Hbad Hr) as (n & v & Hin%elem_of_map_to_list & Heq). by exists n, v.
Qed.
End Copying.

(** *** A session over trivial collaborators *)

Definition toy_Run :=
  Run (Model := unit) (ModelMetadata := unit) (MLValue := unit) (Provider := unit)
      (MLDataType := unit)
      (λ _, tt) (λ _, true) (λ _, tt) (λ _, tt) (λ t, t) (λ _, "t")
      (λ _, Status_OK) (λ _, Status_OK)
      (λ feeds, (Status_OK, feeds))
      (λ _ fetches, (Status_OK, fetches, fetches))
      (λ _ _ _ fetches, (Status_OK, fetches))
      (λ new_fetches _, (Status_OK, new_fetches)).

(** A model with required input [X], initializer input [W] and output [Y]. *)
Definition toy_session (inited : bool)
  : Impl (Model := unit) (ModelMetadata := unit) (Provider := unit) :=
  mkImpl true [tt] (Some tt) (Some tt) ["X"] ["X"; "W"] ["Y"]
         {["X"]} {["X"; "W"]} {["Y"]} 0 true inited.

(** The same session before any [Load]. *)
Definition toy_fresh : Impl (Model := unit) (ModelMetadata := unit) (Provider := unit) :=
  mkImpl true [tt] None None [] [] [] ∅ ∅ ∅ 0 false false.

Definition toy_load (s : Impl (Model := unit) (ModelMetadata := unit) (Provider := unit))
    (uri : string) :=
  Load_uri (λ _, inr tt) (λ _, tt) (λ _, ["X"]) (λ _, ["X"; "W"]) (λ _, ["Y"]) s uri.

Lemma Run_rejects_bad_feed_names_witness :
  ∃ st, toy_Run (toy_session true) {["Z" := tt]} ["Y"] (Some []) = (st, [], Some []) ∧
        Code st = INVALID_ARGUMENT ∧
        (∀ n, n ∈ required_model_input_names_ (toy_session true) →
              ({["Z" := tt]} : gmap string unit) !! n = None →
              mentions (ErrorMessage st) n) ∧
        ((∀ n, n ∈ required_model_input_names_ (toy_session true) → n ≠ "" →
               is_Some (({["Z" := tt]} : gmap string unit) !! n)) →
         ∀ n, is_Some (({["Z" := tt]} : gmap string unit) !! n) →
              n ∉ model_input_names_ (toy_session true) →
              mentions (ErrorMessage st) n).
Proof.
  apply Run_rejects_bad_feed_names; [reflexivity|].
  left. exists "X". split; [|split]; [by apply elem_of_singleton|done|reflexivity].
Defined.

(** C6, as stated, fails: fed only the unknown name [Z], a model that
    requires [X] answers INVALID_ARGUMENT with "Missing required inputs: X",
    a message that does not name the offending input [Z]; the check of the
    required inputs returns before the fed names are looked at. *)
Lemma Run_leaves_unknown_feed_unnamed :
  is_inited_ (toy_session true) = true ∧
  is_Some (({["Z" := tt]} : gmap string unit) !! "Z") ∧
  ("Z" ∉ model_input_names_ (toy_session true)) ∧
  (toy_Run (toy_session true) {["Z" := tt]} ["Y"] (Some [])).1.1
  = mkStatus INVALID_ARGUMENT "Missing required inputs: X" ∧
  ¬ mentions "Missing required inputs: X" "Z".
Proof.
  split_and!.
  - reflexivity.
  - by eexists.
  - cbn. intros [?%elem_of_singleton|?%elem_of_singleton]%elem_of_union; done.
  - vm_compute. reflexivity.
  - intros Hz%mentions_char. vm_compute in Hz.
    repeat (apply elem_of_cons in Hz as [Hz|Hz]; [discriminate Hz|]).
    by apply elem_of_nil in Hz.
Qed.

Lemma Run_rejects_bad_outputs_witness :
  ∃ st, toy_Run (toy_session true) {["X" := tt]} [] (Some []) = (st, [], Some []) ∧
        Code st = INVALID_ARGUMENT.
Proof.
  apply Run_rejects_bad_outputs; [reflexivity|].
  right. left. reflexivity.
Defined.

(** C9, as stated, fails: before [Initialize] a run with a null fetch
    vector is answered with FAIL ("Session not initialized."), not with
    INVALID_ARGUMENT. *)
Lemma Run_uninitialized_not_invalid_argument :
  bad_outputs (toy_session false) ["Y"] (None : option (list unit)) ∧
  Code (toy_Run (toy_session false) {["X" := tt]} ["Y"] None).1.1 ≠ INVALID_ARGUMENT.
Proof. split; [by left|]. vm_compute. discriminate. Qed.

(** Valid feeds and outputs reach the executor. *)
Example Run_valid_request :
  toy_Run (toy_session true) {["X" := tt]} ["Y"] (Some [])
  = (Status_OK,
     [EvOnRunStart tt; EvCopyInputs; EvMatchOutputs; EvExecute true; EvCopyOutputs;
      EvOnRunEnd tt],
     Some []).
Proof. vm_compute. reflexivity. Qed.

(** The message of a missing required input. *)
Example Run_missing_input_message :
  (toy_Run (toy_session true) ∅ ["Y"] (Some [])).1.1
  = mkStatus INVALID_ARGUMENT "Missing required inputs: X".
Proof. vm_compute. reflexivity. Qed.

(** A required input with the empty name is not reported when it is
    missing: the collected string stays empty. *)
Example empty_required_name_passes :
  ValidateInputNames
    (mkImpl (Model := unit) (ModelMetadata := unit) (Provider := unit)
            true [] None None [""] [""] [] {[""]} {[""]} ∅ 0 true true)
    (∅ : gmap string unit)
  = Status_OK.
Proof. vm_compute. reflexivity. Qed.

(** A first [Load] on the fresh session succeeds and yields [toy_session]. *)
Example first_Load_succeeds :
  toy_load toy_fresh "a.onnx" = (Status_OK, toy_session false).
Proof. vm_compute. reflexivity. Qed.

Lemma Load_rejected_once_loaded_witness :
  toy_load (toy_load toy_fresh "a.onnx").2 "b.onnx"
  = (mkStatus MODEL_LOADED "This session already contains a loaded model.",
     (toy_load toy_fresh "a.onnx").2).
Proof.
  apply (Load_rejected_once_loaded (λ _, inr tt) (λ _ : unit, inr tt) (λ _ : unit, None)
           (λ _, tt) (λ _, ["X"]) (λ _, ["X"; "W"]) (λ _, ["Y"])
           (toy_load toy_fresh "a.onnx").2 "b.onnx" tt tt tt).
  reflexivity.
Defined.

Lemma Run_executes_only_validated_witness :
  is_inited_ (toy_session true) = true ∧
  IsOK (ValidateInputs (λ _, tt) (λ _, true) (λ _, tt) (λ _, tt) (λ t, t) (λ _, "t")
                       (toy_session true) ({["X" := tt]} : gmap string unit)) = true ∧
  IsOK (ValidateOutputs (toy_session true) ["Y"] (Some ([] : list unit))) = true.
Proof.
  apply (Run_executes_only_validated
           (λ _, tt) (λ _, true) (λ _, tt) (λ _, tt) (λ t, t) (λ _, "t")
           (λ _, Status_OK) (λ _, Status_OK)
           (λ feeds, (Status_OK, feeds))
           (λ _ fetches, (Status_OK, fetches, fetches))
           (λ _ _ _ fetches, (Status_OK, fetches))
           (λ new_fetches _, (Status_OK, new_fetches))
           (toy_session true) {["X" := tt]} ["Y"] (Some []) true).
  vm_compute. do 3 apply list_elem_of_further. apply list_elem_of_here.
Defined.

Lemma Load_then_queries_witness :
  ∃ s', toy_load toy_fresh "a.onnx" = (Status_OK, s') ∧
        GetModelInputs s' = (Status_OK, Some ["X"]) ∧
        GetModelOutputs s' = (Status_OK, Some ["Y"]) ∧
        model_input_names_ s' = {["X"; "W"]}.
Proof.
  destruct (Load_then_queries (λ _, inr tt) (λ _ : unit, inr tt) (λ _ : unit, None)
              (λ _, tt) (λ _, ["X"]) (λ _, ["X"; "W"]) (λ _, ["Y"]) toy_fresh tt)
    as (_ & s' & Huri & _ & _ & Hin & Hout & _ & Hnames & _).
  { unfold unloaded. split_and!; reflexivity. }
  exists s'. split_and!; [by apply Huri|exact Hin|exact Hout|].
  rewrite Hnames. cbn. by rewrite (right_id_L ∅ (∪)).
Defined.

(** A graph whose only node produces [Y] and whose output [C] has been
    folded into a weight; values are numbers, [0] the default one. *)
Definition toy_graph : GraphViewer :=
  mkGraphViewer [mkNode [mkNodeArg true "Y"; mkNodeArg false "Z"] "CPUExecutionProvider"]
                [mkNodeArg true "Y"; mkNodeArg true "C"].

Definition toy_GetIdx (n : string) : Status * Z :=
  if decide (n = "C") then (Status_OK, 3%Z) else (mkStatus FAIL "Could not find", (-1)%Z).

Definition toy_Match :=
  MatchOutputsWithProviders (MLValue := nat) (Provider := string) (AllocatorInfo := nat)
    0%nat (λ v, negb (v =? 0)%nat) (λ _, true) (λ v, v)
    (λ _, None) (λ t, Some t) (λ p, p) "CPUExecutionProvider"
    toy_GetIdx {[3%Z := 7%nat]}.

Lemma MatchOutputs_OK_only_if_witness :
  toy_Match (Some toy_graph) ["Y"; "C"] [] []
  = Some (Returned (Status_OK, [0; 0], [0; 7])%nat) ∧
  NoDup ["Y"; "C"] ∧
  (∀ n, n ∈ ["Y"; "C"] → n ≠ "" ∧ produced toy_GetIdx {[3%Z := 7%nat]} toy_graph n) ∧
  length [0; 7]%nat = length ["Y"; "C"].
Proof.
  split; [vm_compute; reflexivity|].
  apply (MatchOutputs_OK_only_if (MLValue := nat) (Provider := string) (AllocatorInfo := nat)
           0%nat (λ v, negb (v =? 0)%nat) (λ _, true) (λ v, v)
           (λ _, None) (λ t, Some t) (λ p, p) "CPUExecutionProvider"
           toy_GetIdx {[3%Z := 7%nat]} toy_graph ["Y"; "C"] [] [] [0; 0]%nat [0; 7]%nat
           Status_OK);
    [vm_compute; reflexivity|reflexivity].
Defined.

(** A repeated name passes [ValidateOutputs] but not the matching. *)
Example MatchOutputs_repeated_name :
  toy_Match (Some toy_graph) ["Y"; "Y"] [] []
  = Some (Returned (mkStatus FAIL "output size mismatch, expected 2 got 1", [0; 0], [0; 0])%nat).
Proof. vm_compute. reflexivity. Qed.

Lemma MatchOutputs_unallocated_witness :
  toy_Match (Some toy_graph) ["Y"] [] [] = Some (Returned (Status_OK, [0], [0])%nat).
Proof.
  apply (MatchOutputs_unallocated (MLValue := nat) (Provider := string) (AllocatorInfo := nat)
           0%nat (λ v, negb (v =? 0)%nat) (λ _, true) (λ v, v)
           (λ _, None) (λ t, Some t) (λ p, p) "CPUExecutionProvider"
           toy_GetIdx {[3%Z := 7%nat]} toy_graph ["Y"]).
  - reflexivity.
  - apply NoDup_singleton.
  - intros n ->%list_elem_of_singleton. split; [done|].
    eexists _, (mkNodeArg true "Y"). split_and!; [apply list_elem_of_here..|reflexivity|reflexivity].
Defined.

(** An initialization whose planning stage fails: the status is the
    stage's, [is_inited_] stays unset, and the run that follows is turned
    away. *)
Definition toy_Initialize (plan : Status) :=
  Initialize (Model := unit) (ModelMetadata := unit) (Provider := unit) (SessionState := unit)
    "CPUExecutionProvider" (λ _ _, Some tt) (λ xps _ xp, xps ++ [xp]) tt
    (λ xps ss, (None, (xps, ss)))
    (λ _ r, (inr plan, r)) (λ r, (inr Status_OK, r)) (λ r, (inr Status_OK, r)).

Example Initialize_failed_plan :
  (λ r, (r.1.1, is_inited_ r.1.2, (toy_Run r.1.2 {["X" := tt]} ["Y"] (Some [])).1))
    <$> toy_Initialize (mkStatus FAIL "no kernel") (toy_session false) tt
  = Some (mkStatus FAIL "no kernel", false, (mkStatus FAIL "Session not initialized.", [])).
Proof. vm_compute. reflexivity. Qed.

Example Initialize_succeeds :
  (λ r, (r.1.1, is_inited_ r.1.2)) <$> toy_Initialize Status_OK (toy_session false) tt
  = Some (Status_OK, true).
Proof. vm_compute. reflexivity. Qed.

(** Three libraries of which the second fails to load: the first stays
    registered, the third is never tried. *)
Example LoadCustomOps_stops_at_failure :
  LoadCustomOps (λ path, if decide (path = "b.so") then (mkStatus FAIL "no such file", None)
                         else (Status_OK, Some path))
                (mkRegistries [] []) ["a.so"; "b.so"; "c.so"]
  = (mkStatus FAIL "no such file", mkRegistries ["a.so"] ["a.so"]).
Proof. vm_compute. reflexivity. Qed.
End SessionFacts.

(** ** Conv fusions *)

Module ConvFusionFacts.
  Import GraphModel ConvFusion GraphFacts.
Section Rules.
  Context {F : Type}.
  Context (fadd fsub fmul fdiv : F → F → F) (fsqrt : F → F).
  Context (Resolve : Graph F → Status * Graph F).
  Context (kOnnxDomainAlias : string).
  Implicit Types (g : Graph F) (n : Node F).

  Local Abbreviation ConvBN_body := (ConvBN_body fadd fsub fmul fdiv fsqrt kOnnxDomainAlias).
  Local Abbreviation ConvMul_body := (ConvMul_body fmul kOnnxDomainAlias).
  Local Abbreviation ConvBNFusion_Apply :=
    (ConvBNFusion_Apply fadd fsub fmul fdiv fsqrt Resolve kOnnxDomainAlias).
  Local Abbreviation ConvMulFusion_Apply := (ConvMulFusion_Apply fmul Resolve kOnnxDomainAlias).
  Local Abbreviation BNFusable := (BNFusable kOnnxDomainAlias).

Lemma ConvBN_body_passes_over g (removed_nodes : list NodeIndex) (idx : NodeIndex) n :
  GetNode g idx = Some n → passed_over g n →
  ConvBN_body g removed_nodes idx = Continue g removed_nodes.
Proof using Type. clear Resolve.
  intros Hn Hpass. unfold ConvFusion.ConvBN_body. rewrite Hn.
  destruct Hpass as [Hcount|(j & next & Hedges & Hnext & Hout)].
  - rewrite (bool_decide_eq_true_2 _ Hcount), orb_true_r. done.
  - destruct (negb _ || bool_decide _); [done|].
    rewrite Hedges. cbn [head mbind option_bind]. rewrite Hnext, Hout, orb_true_r. done.
Qed.

Lemma ConvMul_body_passes_over g (removed_nodes : list NodeIndex) (idx : NodeIndex) n :
  GetNode g idx = Some n → passed_over g n →
  ConvMul_body g removed_nodes idx = Continue g removed_nodes.
Proof using Type. clear Resolve.
  intros Hn Hpass. unfold ConvFusion.ConvMul_body. rewrite Hn.
  destruct Hpass as [Hcount|(j & next & Hedges & Hnext & Hout)].
  - rewrite (bool_decide_eq_true_2 _ Hcount), orb_true_r. done.
  - destruct (negb _ || bool_decide _); [done|].
    rewrite Hedges. cbn [head mbind option_bind]. rewrite Hnext, Hout, orb_true_r. done.
Qed.

(** A loop whose body passes over every live node leaves the graph alone. *)
Lemma run_loop_all_passed_over (body : Graph F → list NodeIndex → NodeIndex → Step) g :
  (∀ removed_nodes idx, body g removed_nodes idx = Continue g removed_nodes) →
  run_loop body g = Continue g [].
Proof using Type. clear Resolve.
  intros Hbody. unfold run_loop.
  induction (seq 0 (length (nodes g))) as [|idx idxs IH] using rev_ind; [done|].
  rewrite foldl_app. cbn [foldl]. rewrite IH. apply Hbody.
Qed.

(** C4: a node whose number of output edges differs from one, or whose
    single successor has an output among the graph outputs, is passed
    over by the loop bodies of [ConvBNFusion::Apply] and
    [ConvMulFusion::Apply]: the graph (nodes and initializers) and the list
    of nodes to remove are unchanged and the loop goes on; when every live
    node is of that kind, both rules return OK with the graph and
    [modified] as they were. *)
Theorem fusions_pass_over g (modified : bool) :
  (∀ (removed_nodes : list NodeIndex) (idx : NodeIndex) n,
      GetNode g idx = Some n → passed_over g n →
      ConvBN_body g removed_nodes idx = Continue g removed_nodes ∧
      ConvMul_body g removed_nodes idx = Continue g removed_nodes) ∧
  ((∀ (idx : NodeIndex) n, GetNode g idx = Some n → passed_over g n) →
   ConvBNFusion_Apply g modified = Some (Status_OK, g, modified) ∧
   ConvMulFusion_Apply g modified = Some (Status_OK, g, modified)).
Proof.
  split.
  - intros removed_nodes idx n Hn Hpass.
    split; [by eapply ConvBN_body_passes_over|by eapply ConvMul_body_passes_over].
  - intros Hall.
    unfold ConvFusion.ConvBNFusion_Apply, ConvFusion.ConvMulFusion_Apply.
    rewrite !run_loop_all_passed_over; [done| |].
    + intros removed_nodes idx. destruct (GetNode g idx) as [n|] eqn:Hn.
      * eapply ConvMul_body_passes_over; eauto.
      * unfold ConvFusion.ConvMul_body. by rewrite Hn.
    + intros removed_nodes idx. destruct (GetNode g idx) as [n|] eqn:Hn.
      * eapply ConvBN_body_passes_over; eauto.
      * unfold ConvFusion.ConvBN_body. by rewrite Hn.
Qed.

Definition rewired (x_output_def conv_output_def : NodeArg) n : Node F :=
  with_InputDefs n (replace_def x_output_def conv_output_def <$> InputDefs n).

Lemma rewired_idemp (o c : NodeArg) n : rewired o c (rewired o c n) = rewired o c n.
Proof using Type. clear Resolve.
  unfold rewired, with_InputDefs; cbn. f_equal.
  rewrite <- list_fmap_compose. apply list_fmap_ext. intros _ d _. apply replace_def_idemp.
Qed.

(** With all consumers live the rewiring loop runs to its end; the slot of
    every consumer holds the rewired node, nothing else changes. *)
Lemma rewire_live (o c : NodeArg) (edges : list NodeIndex) g :
  (∀ j, j ∈ edges → is_Some (GetNode g j)) →
  ∃ g', rewire g o c edges = (None, g') ∧
        initializers g' = initializers g ∧
        ∀ j, GetNode g' j = if decide (j ∈ edges) then rewired o c <$> GetNode g j
                            else GetNode g j.
Proof using Type. clear Resolve.
  revert g. induction edges as [|e edges IH]; intros g Hlive.
  - exists g. split_and!; [done|done|]. intros j.
    rewrite decide_False by apply not_elem_of_nil. done.
  - destruct (Hlive e) as [m Hm]; [apply elem_of_cons; by left|].
    cbn [rewire]. rewrite Hm. fold (rewired o c m).
    destruct (IH (set_node g e (rewired o c m))) as (g' & Hrw & Hinit & Hslots).
    { intros j Hj. destruct (decide (j = e)) as [->|Hne].
      - rewrite GetNode_set_node_eq by eauto using GetNode_Some_lt. done.
      - rewrite GetNode_set_node_ne by done. apply Hlive, elem_of_cons. by right. }
    exists g'. split_and!; [done|done|].
    intros j. rewrite Hslots. clear Hslots IH.
    destruct (decide (j = e)) as [->|Hne].
    + rewrite GetNode_set_node_eq by eauto using GetNode_Some_lt.
      rewrite Hm, (decide_True (P := e ∈ e :: edges)) by (apply elem_of_cons; by left).
      destruct (decide (e ∈ edges)); [|reflexivity].
      change (Some (rewired o c (rewired o c m)) = Some (rewired o c m)).
      by rewrite rewired_idemp.
    + rewrite GetNode_set_node_ne by done.
      destruct (decide (j ∈ edges)).
      * rewrite decide_True by (apply elem_of_cons; by right). done.
      * rewrite decide_False by (rewrite elem_of_cons; tauto). done.
Qed.

Lemma remove_all_removes g (removed_nodes : list NodeIndex) (i : NodeIndex) :
  i ∈ removed_nodes → GetNode (remove_all g removed_nodes) i = None.
Proof using Type. clear Resolve.
  unfold remove_all. revert g.
  induction removed_nodes as [|r rs IH] using rev_ind; intros g Hi;
    [by apply elem_of_nil in Hi|].
  rewrite foldl_app. cbn [foldl].
  destruct (decide (i = r)) as [->|Hne]; [apply GetNode_RemoveNode_eq|].
  rewrite GetNode_RemoveNode_ne by done. apply IH.
  apply elem_of_app in Hi as [Hi|Hi]; [done|]. by apply list_elem_of_singleton in Hi.
Qed.

Lemma remove_all_keeps g (removed_nodes : list NodeIndex) (i : NodeIndex) :
  i ∉ removed_nodes → GetNode (remove_all g removed_nodes) i = GetNode g i.
Proof using Type. clear Resolve.
  unfold remove_all. revert g.
  induction removed_nodes as [|r rs IH] using rev_ind; intros g Hi; [done|].
  rewrite foldl_app. cbn [foldl].
  rewrite not_elem_of_app, list_elem_of_singleton in Hi. destruct Hi as [Hrs Hr].
  rewrite GetNode_RemoveNode_ne by done. by apply IH.
Qed.

  Local Abbreviation bn_factor := (bn_factor fadd fdiv fsqrt).
  Local Abbreviation fused_bias := (fused_bias fadd fsub fmul fdiv fsqrt).

Lemma scale_by_axis_lookup (W other : TensorProto F) (i j : nat) (w b : F) :
  (Z.of_nat j < per_channel W)%Z →
  data W !! weight_pos W i j = Some w →
  data other !! i = Some b →
  data (scale_by_axis fmul W other 1) !! weight_pos W i j = Some (fmul w b).
Proof using Type. clear Resolve.
  intros Hj Hw Hb. unfold scale_by_axis, with_data. cbn [data].
  rewrite list_lookup_imap, Hw. cbn [fmap option_fmap option_map].
  fold (per_channel W).
  assert (Z.to_nat (Z.of_nat (weight_pos W i j) / per_channel W) = i) as Hdiv.
  { unfold weight_pos.
    assert (0 ≤ Z.of_nat i * per_channel W)%Z by (apply Z.mul_nonneg_nonneg; lia).
    rewrite Z2Nat.id by lia.
    rewrite Z.div_add_l by lia. rewrite Z.div_small by lia. lia. }
  case_decide as Hone.
  - assert (i = 0%nat) as ->.
    { apply lookup_lt_Some in Hb. lia. }
    by rewrite Hb.
  - by rewrite Hdiv, Hb.
Qed.

Lemma IsSupportedDataType_true (t : TensorProto F) :
  data_type t = FLOAT ∨ data_type t = DOUBLE → IsSupportedDataType (Some t) = true.
Proof using Type. clear Resolve. intros [Ht|Ht]; unfold IsSupportedDataType; rewrite Ht; reflexivity. Qed.

(** In the situation [BNFusable], the loop body of [ConvBNFusion::Apply]
    goes on with a graph in which Conv's weight initializer holds [W]
    with every weight of output channel [i] multiplied by
    [scale[i] / sqrt(var[i] + epsilon)], Conv's third input names an
    initializer holding [(b - mean) * s + B] when Conv had a bias [b] and
    [B - mean * s] otherwise, and every consumer of the BatchNormalization
    output has that input definition replaced by Conv's output; the
    BatchNormalization node is put on the list of nodes to remove, and the
    removal loop that ends [Apply] empties the slot of every node on it. *)
Lemma ConvBN_body_fuses g (removed_nodes : list NodeIndex) (idx : NodeIndex)
    (conv bn : Node F) (epsilon : F) (W scale B mean var : TensorProto F)
    (conv_B : option (TensorProto F)) (bn_out conv_out : NodeArg) :
  BNFusable g idx conv bn epsilon W scale B mean var conv_B bn_out conv_out →
  ∃ (g' : Graph F) (W' bias' : TensorProto F) (conv' : Node F),
    ConvBN_body g removed_nodes idx = Continue g' (removed_nodes ++ [Index bn]) ∧
    (* the weight *)
    initializers g' !! name W = Some W' ∧
    dims W' = dims W ∧ data_type W' = data_type W ∧
    length (data W') = length (data W) ∧
    (∀ (i j : nat) (w sc v : F),
        (Z.of_nat j < per_channel W)%Z →
        data W !! weight_pos W i j = Some w →
        data scale !! i = Some sc → data var !! i = Some v →
        data W' !! weight_pos W i j = Some (fmul w (bn_factor sc v epsilon))) ∧
    (* the bias *)
    GetNode g' idx = Some conv' ∧
    InputDefs conv' !! 1%nat = Some (name W) ∧
    InputDefs conv' !! 2%nat = Some (name bias') ∧
    name bias' = default (name B) (name <$> conv_B) ∧
    initializers g' !! name bias' = Some bias' ∧
    (∀ (i : nat) (m sc v Bv : F),
        data mean !! i = Some m → data scale !! i = Some sc →
        data var !! i = Some v → data B !! i = Some Bv →
        match conv_B with
        | Some b => ∀ bv, data b !! i = Some bv →
                          data bias' !! i = Some (fused_bias epsilon (Some bv) m sc v Bv)
        | None => data bias' !! i = Some (fused_bias epsilon None m sc v Bv)
        end) ∧
    (* the consumers of BatchNormalization *)
    (∀ (j : NodeIndex) (m : Node F),
        j ∈ OutputEdges bn → GetNode g j = Some m →
        ∃ m', GetNode g' j = Some m' ∧
              InputDefs m' = replace_def bn_out conv_out <$> InputDefs m) ∧
    (* the removal *)
    (∀ (g2 : Graph F) (removed2 : list NodeIndex),
        Index bn ∈ removed2 → GetNode (remove_all g2 removed2) (Index bn) = None).
Proof using fadd fsub fmul fdiv fsqrt kOnnxDomainAlias. clear Resolve.
  intros [Hconv Hconv_op Hedge Hbn Hbn_op Hbn_single Hbn_inner (ga & Hga & Hgroup) Heps
          (x & rest & Hbn_inputs) (cx & Hconv_inputs) HW Hscale HB Hmean Hvar HcB
          Htype (Hts & HtB & Htm & Htv) (C & drest & HdW & Hdrest & Hds & HdB & Hdm & Hdv)
          Harg Hbn_out Hconv_out Hconsumers].
  unfold ConvFusion.ConvBN_body.
  rewrite Hconv, Hconv_op. unfold GetOutputEdgesCount. rewrite Hedge.
  cbn [length negb orb head mbind option_bind].
  rewrite bool_decide_eq_false_2 by (intros Hc; by apply Hc).
  rewrite Hbn, Hbn_op, Hbn_single, Hbn_inner.
  rewrite bool_decide_eq_false_2 by (intros Hc; by apply Hc).
  cbn [negb orb]. rewrite Hga.
  assert ((if ga is AttrInt i then bool_decide (i ≠ 1%Z) else false) = false) as ->.
  { destruct ga; try done. apply bool_decide_eq_false_2. intros Hc. apply Hc. by apply Hgroup. }
  rewrite Heps, Hbn_inputs, Hconv_inputs. cbn [lookup list_lookup].
  unfold GetInitializedTensor. rewrite Hscale, HB, Hmean, Hvar, HW.
  (* the guard on types and dimensions lets the tensors through *)
  match goal with
  | |- context [if ?c then Continue g removed_nodes else _] => assert (c = false) as ->
  end.
  { rewrite !IsSupportedDataType_true by (rewrite ?Hts, ?HtB, ?Htm, ?Htv; exact Htype).
    unfold dims0. rewrite Hds, HdB, Hdm, Hdv, HdW, Hts, HtB, Htm, Htv.
    cbn [length lookup list_lookup negb orb].
    repeat (rewrite bool_decide_eq_false_2 by (intros Hc; by apply Hc)).
    rewrite !bool_decide_eq_true_2 by (done || lia). done. }
  set (factor := div fdiv scale (sqrt fsqrt (add_scalar fadd var epsilon))).
  set (W' := scale_by_axis fmul W factor 1).
  assert (∀ i sc v, data scale !! i = Some sc → data var !! i = Some v →
                    data factor !! i = Some (bn_factor sc v epsilon)) as Hfactor.
  { intros i sc v Hsc Hv. unfold factor, div, sqrt, add_scalar, with_data. cbn [data].
    rewrite lookup_zip_with, Hsc. cbn [mbind option_bind].
    rewrite !list_lookup_fmap, Hv. done. }
  assert (∀ X, initializers g !! name X = Some X → length (dims X) = 1%nat →
               name W ≠ name X) as Hdistinct.
  { intros X HX HdX Heq. rewrite Heq, HX in HW. injection HW as ->.
    rewrite HdW in HdX. cbn in HdX. lia. }
  assert (idx ∉ OutputEdges bn) as Hidx.
  { intros Hin. by destruct (Hconsumers idx Hin). }
  destruct conv_B as [b|].
  - (* Conv has a bias *)
    destruct (HcB b eq_refl) as (Hb & Hdb & Htb).
    cbn [option_list fmap list_fmap length lookup list_lookup mbind option_bind].
    rewrite decide_True by done.
    change ((name <$> option_list (Some b)) !! 0%nat) with (Some (name b)).
    cbn [mbind option_bind]. rewrite Hb.
    match goal with
    | |- context [if ?c then None else _] => assert (c = false) as ->
    end.
    { rewrite IsSupportedDataType_true by (rewrite Htb, HtB; exact Htype).
      unfold dims0. rewrite Hdb, HdB. cbn [length lookup list_lookup negb orb].
      repeat (rewrite bool_decide_eq_false_2 by (intros Hc; by apply Hc)). done. }
    rewrite Hbn_out, Hconv_out.
    set (bias' := add fadd (mul fmul (sub fsub b mean) factor) B).
    match goal with
    | |- context [rewire ?g4 _ _ _] =>
        destruct (rewire_live bn_out conv_out (OutputEdges bn) g4)
          as (g' & Hrw & Hinit & Hslots);
        [intros j Hj; apply (Hconsumers j Hj)|]
    end.
    rewrite Hrw. exists g', W', bias', conv.
    split; [reflexivity|].
    assert (name W ≠ name b) as Hne by (apply Hdistinct; [done|by rewrite Hdb, HdB]).
    split_and!.
    + rewrite Hinit. cbn. rewrite lookup_insert_ne by done. apply lookup_insert_eq.
    + reflexivity.
    + reflexivity.
    + unfold W', scale_by_axis, with_data. cbn [data]. apply length_imap.
    + intros i j w sc v Hj Hw Hsc Hv. apply scale_by_axis_lookup; eauto.
    + rewrite Hslots, decide_False by done. exact Hconv.
    + by rewrite Hconv_inputs.
    + by rewrite Hconv_inputs.
    + reflexivity.
    + rewrite Hinit. cbn. apply lookup_insert_eq.
    + intros i m sc v Bv Hm Hsc Hv HBv bv Hbv.
      unfold bias', add, mul, sub, with_data. cbn [data].
      rewrite !lookup_zip_with, Hbv. cbn [mbind option_bind].
      rewrite Hm. cbn [mbind option_bind].
      rewrite (Hfactor i sc v Hsc Hv). cbn [mbind option_bind].
      rewrite HBv. done.
    + intros j m Hj Hm. exists (rewired bn_out conv_out m).
      rewrite Hslots, decide_True by done. split; [|reflexivity].
      change (GetNode g j) with (GetNode g j) in Hm.
      unfold GetNode in *. cbn. by rewrite Hm.
    + intros g2 removed2. apply remove_all_removes.
  - (* Conv has no bias: the one of BatchNormalization becomes Conv's *)
    change (name <$> option_list None) with (@nil string) in *.
    cbn [length].
    rewrite decide_False by done.
    unfold GetNodeArg. rewrite decide_True by auto.
    rewrite Hbn_out, Hconv_out.
    set (bias' := sub fsub B (mul fmul mean factor)).
    set (conv' := with_InputDefs conv ((cx :: name W :: []) ++ [name B])).
    assert (idx < length (nodes g))%nat as Hlt by eauto using GetNode_Some_lt.
    match goal with
    | |- context [rewire ?g4 _ _ _] => set (G4 := g4)
    end.
    assert (∀ j, j ≠ idx → GetNode G4 j = GetNode g j) as HG4.
    { intros j Hj. unfold GetNode, G4. cbn. by rewrite list_lookup_insert_ne. }
    assert (GetNode G4 idx = Some conv') as HG4idx.
    { unfold GetNode, G4. cbn. by rewrite list_lookup_insert_eq. }
    destruct (rewire_live bn_out conv_out (OutputEdges bn) G4)
      as (g' & Hrw & Hinit & Hslots).
    { intros j Hj. destruct (Hconsumers j Hj) as [Hlive Hne]. by rewrite HG4. }
    rewrite Hrw. exists g', W', bias', conv'.
    split; [reflexivity|].
    assert (name W ≠ name B) as Hne by (apply Hdistinct; [done|by rewrite HdB]).
    split_and!.
    + rewrite Hinit. cbn. rewrite lookup_insert_ne by done. apply lookup_insert_eq.
    + reflexivity.
    + reflexivity.
    + unfold W', scale_by_axis, with_data. cbn [data]. apply length_imap.
    + intros i j w sc v Hj Hw Hsc Hv. apply scale_by_axis_lookup; eauto.
    + rewrite Hslots, decide_False by done. exact HG4idx.
    + reflexivity.
    + reflexivity.
    + reflexivity.
    + rewrite Hinit. cbn. apply lookup_insert_eq.
    + intros i m sc v Bv Hm Hsc Hv HBv.
      unfold bias', mul, sub, with_data. cbn [data].
      rewrite !lookup_zip_with, HBv. cbn [mbind option_bind].
      rewrite Hm. cbn [mbind option_bind].
      rewrite (Hfactor i sc v Hsc Hv). done.
    + intros j m Hj Hm. exists (rewired bn_out conv_out m).
      rewrite Hslots, decide_True by done. split; [|reflexivity].
      destruct (Hconsumers j Hj) as [_ Hne'].
      by rewrite HG4, Hm.
    + intros g2 removed2. apply remove_all_removes.
Qed.

  Local Abbreviation MulFusable := (MulFusable kOnnxDomainAlias).

Lemma Size_ones (C : Z) (n : nat) : Size (C :: replicate n 1%Z) = C.
Proof using Type. clear Resolve.
  unfold Size. cbn [foldr]. induction n as [|n IH]; cbn [replicate foldr]; lia.
Qed.

(** In [scale_by_axis] along the channels, a one-element factor multiplies
    every channel. *)
Lemma scale_by_channel_lookup (W other : TensorProto F) (i j : nat) (w b : F) :
  (Z.of_nat j < per_channel W)%Z →
  data W !! weight_pos W i j = Some w →
  data other !! (if decide (length (data other) = 1%nat) then 0%nat else i) = Some b →
  data (scale_by_axis fmul W other 1) !! weight_pos W i j = Some (fmul w b).
Proof using Type. clear Resolve.
  intros Hj Hw Hb. unfold scale_by_axis, with_data. cbn [data].
  rewrite list_lookup_imap, Hw. cbn [fmap option_fmap option_map].
  fold (per_channel W).
  assert (Z.to_nat (Z.of_nat (weight_pos W i j) / per_channel W) = i) as Hdiv.
  { unfold weight_pos.
    assert (0 ≤ Z.of_nat i * per_channel W)%Z by (apply Z.mul_nonneg_nonneg; lia).
    rewrite Z2Nat.id by lia.
    rewrite Z.div_add_l by lia. rewrite Z.div_small by lia. lia. }
  case_decide as Hone.
  - by rewrite Hb.
  - by rewrite Hdiv, Hb.
Qed.

(** X11: in the situation [MulFusable], the loop body of
    [ConvMulFusion::Apply] goes on with a graph in which Conv's weight
    initializer holds [W] with every weight of output channel [i]
    multiplied by the entry of [mul_B] for that channel, Conv's bias, when
    it has one, is multiplied likewise, Conv itself is as before, and
    every consumer of the Mul output has that input definition replaced by
    Conv's output; the Mul node is put on the list of nodes to remove, and
    the removal loop that ends [Apply] empties the slot of every node on
    it. *)
Theorem ConvMul_body_fuses g (removed_nodes : list NodeIndex) (idx : NodeIndex)
    (conv mul_node : Node F) (W mul_B : TensorProto F)
    (conv_B : option (TensorProto F)) (mul_out conv_out : NodeArg) :
  MulFusable g idx conv mul_node W mul_B conv_B mul_out conv_out →
  ∃ (g' : Graph F) (W' : TensorProto F),
    ConvMul_body g removed_nodes idx = Continue g' (removed_nodes ++ [Index mul_node]) ∧
    (* the weight *)
    initializers g' !! name W = Some W' ∧
    dims W' = dims W ∧ data_type W' = data_type W ∧
    length (data W') = length (data W) ∧
    (∀ (i j : nat) (w m : F),
        (Z.of_nat j < per_channel W)%Z →
        data W !! weight_pos W i j = Some w →
        channel_factor mul_B i = Some m →
        data W' !! weight_pos W i j = Some (fmul w m)) ∧
    (* the bias *)
    (∀ b, conv_B = Some b →
          ∃ b', initializers g' !! name b = Some b' ∧
                dims b' = dims b ∧ data_type b' = data_type b ∧
                ∀ (i : nat) (c m : F),
                  data b !! i = Some c → channel_factor mul_B i = Some m →
                  data b' !! i = Some (fmul c m)) ∧
    (* Conv and the consumers of Mul *)
    GetNode g' idx = Some conv ∧
    (∀ (j : NodeIndex) (m : Node F),
        j ∈ OutputEdges mul_node → GetNode g j = Some m →
        ∃ m', GetNode g' j = Some m' ∧
              InputDefs m' = replace_def mul_out conv_out <$> InputDefs m) ∧
    (* the removal *)
    (∀ (g2 : Graph F) (removed2 : list NodeIndex),
        Index mul_node ∈ removed2 →
        GetNode (remove_all g2 removed2) (Index mul_node) = None).
Proof using fmul kOnnxDomainAlias. clear Resolve fadd fsub fdiv fsqrt.
  intros [Hconv Hconv_op Hedge Hmul Hmul_op Hmul_single Hmul_inner
          (x & rest & Hmul_inputs) (cx & Hconv_inputs) HW HmB HcB
          Htype Htypes HWdims HmBdims HmBdata Hmul_out Hconv_out Hconsumers].
  unfold ConvFusion.ConvMul_body.
  rewrite Hconv, Hconv_op. unfold GetOutputEdgesCount. rewrite Hedge.
  cbn [length negb orb head mbind option_bind].
  rewrite bool_decide_eq_false_2 by (intros Hc; by apply Hc).
  rewrite Hmul, Hmul_op, Hmul_single, Hmul_inner.
  rewrite bool_decide_eq_false_2 by (intros Hc; by apply Hc).
  cbn [negb orb]. rewrite Hmul_inputs, Hconv_inputs. cbn [lookup list_lookup].
  unfold GetInitializedTensor. rewrite HW, HmB.
  (* the shape of [mul_B] *)
  assert (length (dims mul_B) = 0%nat ∨
          (Z.of_nat (length (dims mul_B)) = Z.of_nat (length (dims W)) - 1)%Z ∧
          dims0 W = dims0 mul_B ∧
          existsb (λ d, bool_decide (d ≠ 1%Z)) (drop 1 (dims mul_B)) = false) as Hshape.
  { unfold dims0 in *.
    destruct HmBdims as [->|(C & HC & ->)]; [by left|right].
    rewrite length_cons, length_replicate. split_and!; [lia|by rewrite HC|].
    cbn [drop]. generalize (length (dims W) - 2)%nat. clear.
    intros n. induction n as [|n IH]; [done|]. exact IH. }
  match goal with
  | |- context [if ?c then Continue g removed_nodes else _] => assert (c = false) as ->
  end.
  { rewrite !IsSupportedDataType_true by (rewrite ?Htypes; exact Htype).
    rewrite Htypes. cbn [negb orb].
    rewrite bool_decide_eq_false_2 by (intros Hc; by apply Hc).
    rewrite (bool_decide_eq_false_2 (length (dims W) < 4)%nat) by lia.
    cbn [orb]. apply negb_false_iff.
    destruct Hshape as [H0|(Hlen & Hd0 & _)].
    - by rewrite (bool_decide_eq_true_2 _ H0).
    - rewrite (bool_decide_eq_true_2 _ Hlen), (bool_decide_eq_true_2 _ Hd0).
      apply orb_true_r. }
  match goal with
  | |- context [if ?c then Continue g removed_nodes else _] => assert (c = false) as ->
  end.
  { case_decide as Hnil; [|done]. destruct Hshape as [H0|(_ & _ & Hones)]; [done|exact Hones]. }
  set (W' := scale_by_axis fmul W mul_B 1).
  (* the entry of [mul_B] for a channel *)
  assert (∀ i m, channel_factor mul_B i = Some m →
                 data mul_B !! (if decide (length (data mul_B) = 1%nat) then 0%nat else i)
                 = Some m) as Hchannel.
  { intros i m Hm. unfold channel_factor in Hm.
    destruct HmBdims as [Hd|(C & HC & Hd)]; rewrite Hd in Hm, HmBdata.
    - change (Size []) with 1%Z in HmBdata. by rewrite decide_True by done.
    - case_decide as Hone; [|done].
      apply lookup_lt_Some in Hm as Hlt.
      by replace i with 0%nat in Hm by lia. }
  assert (∀ X, initializers g !! name X = Some X → length (dims X) = 1%nat →
               name W ≠ name X) as Hdistinct.
  { intros X HX HdX Heq. rewrite Heq, HX in HW. injection HW as ->. lia. }
  assert (idx ∉ OutputEdges mul_node) as Hidx.
  { intros Hin. by destruct (Hconsumers idx Hin). }
  destruct conv_B as [b|].
  - (* Conv has a bias *)
    destruct (HcB b eq_refl) as (Hb & Htb & Hdb & Hd0b).
    cbn [option_list fmap list_fmap length lookup list_lookup mbind option_bind].
    rewrite decide_True by done.
    change ((name <$> option_list (Some b)) !! 0%nat) with (Some (name b)).
    cbn [mbind option_bind]. rewrite Hb.
    match goal with
    | |- context [if ?c then None else _] => assert (c = false) as ->
    end.
    { rewrite IsSupportedDataType_true by (rewrite Htb, Htypes; exact Htype).
      cbn [negb orb].
      rewrite bool_decide_eq_false_2 by (intros Hc; by apply Hc).
      rewrite bool_decide_eq_false_2 by (intros Hc; by apply Hc).
      cbn [orb].
      destruct (decide (dims mul_B = [])) as [Hnil|Hcons].
      - rewrite Hnil. done.
      - rewrite (bool_decide_eq_false_2 (dims0 b ≠ dims0 mul_B))
          by (intros Hc; by apply Hc, Hd0b).
        apply andb_false_r. }
    cbn [fmap option_fmap option_map].
    rewrite Hmul_out, Hconv_out.
    match goal with
    | |- context [rewire ?g3 _ _ _] =>
        destruct (rewire_live mul_out conv_out (OutputEdges mul_node) g3)
          as (g' & Hrw & Hinit & Hslots);
        [intros j Hj; apply (Hconsumers j Hj)|]
    end.
    rewrite Hrw. exists g', W'.
    split; [reflexivity|].
    assert (name W ≠ name b) as Hne by (by apply Hdistinct).
    split_and!.
    + rewrite Hinit. cbn. rewrite lookup_insert_ne by (by case_decide).
      rewrite lookup_delete_ne by done. apply lookup_insert_eq.
    + reflexivity.
    + reflexivity.
    + unfold W', scale_by_axis, with_data. cbn [data]. apply length_imap.
    + intros i j w m Hj Hw Hm. apply scale_by_channel_lookup; auto.
    + intros b0 [= <-].
      exists (if decide (length (dims mul_B) ≠ 0%nat) then mul fmul b mul_B
              else scale_by_axis fmul b mul_B 0).
      split_and!.
      * rewrite Hinit. cbn. case_decide; apply lookup_insert_eq.
      * by case_decide.
      * by case_decide.
      * intros i c m Hc Hm. case_decide as Hnil.
        -- unfold mul, with_data. cbn [data].
           rewrite lookup_zip_with, Hc. cbn [mbind option_bind].
           unfold channel_factor in Hm.
           destruct (dims mul_B); [done|]. by rewrite Hm.
        -- unfold scale_by_axis, with_data. cbn [data].
           rewrite list_lookup_imap, Hc. cbn [fmap option_fmap option_map].
           apply nil_length_inv in Hnil.
           unfold channel_factor in Hm. rewrite Hnil in Hm, HmBdata.
           change (Size []) with 1%Z in HmBdata.
           rewrite decide_True by done. by rewrite Hm.
    + rewrite Hslots, decide_False by done. exact Hconv.
    + intros j m Hj Hm. exists (rewired mul_out conv_out m).
      rewrite Hslots, decide_True by done. split; [|reflexivity].
      unfold GetNode in *. cbn. by rewrite Hm.
    + intros g2 removed2. apply remove_all_removes.
  - (* Conv has no bias *)
    change (name <$> option_list None) with (@nil string) in *.
    cbn [length lookup list_lookup].
    rewrite decide_False by done. cbn [fmap option_fmap option_map].
    rewrite Hmul_out, Hconv_out.
    match goal with
    | |- context [rewire ?g3 _ _ _] =>
        destruct (rewire_live mul_out conv_out (OutputEdges mul_node) g3)
          as (g' & Hrw & Hinit & Hslots);
        [intros j Hj; apply (Hconsumers j Hj)|]
    end.
    rewrite Hrw. exists g', W'.
    split; [reflexivity|].
    split_and!.
    + rewrite Hinit. cbn. apply lookup_insert_eq.
    + reflexivity.
    + reflexivity.
    + unfold W', scale_by_axis, with_data. cbn [data]. apply length_imap.
    + intros i j w m Hj Hw Hm. apply scale_by_channel_lookup; auto.
    + intros b0 [=].
    + rewrite Hslots, decide_False by done. exact Hconv.
    + intros j m Hj Hm. exists (rewired mul_out conv_out m).
      rewrite Hslots, decide_True by done. split; [|reflexivity].
      unfold GetNode in *. cbn. by rewrite Hm.
    + intros g2 removed2. apply remove_all_removes.
Qed.

(** The loop bodies only ever append to the list of nodes to remove. *)
Lemma ConvBN_body_appends g (removed_nodes : list NodeIndex) (idx : NodeIndex) g' removed' :
  ConvBN_body g removed_nodes idx = Continue g' removed' →
  removed_nodes `prefix_of` removed'.
Proof.
  unfold ConvFusion.ConvBN_body. intros H.
  repeat match type of H with
         | Continue _ _ = Continue _ _ => injection H as <- <-
         | ReturnStatus _ _ = _ => discriminate H
         | Undefined = _ => discriminate H
         | match ?x with _ => _ end = _ => destruct x eqn:?
         | (let (_, _) := ?x in _) = _ => destruct x eqn:?
         end;
    try reflexivity; try by apply prefix_app_r.
Qed.

(** The rewiring loop only ever returns an error. *)
Lemma rewire_status (o c : NodeArg) (edges : list NodeIndex) g st g' :
  rewire g o c edges = (Some st, g') → IsOK st = false.
Proof using Type. clear Resolve.
  revert g. induction edges as [|j rest IH]; intros g; cbn [rewire]; [done|].
  destruct (GetNode g j); [apply IH|]. by intros [= <- _].
Qed.

Local Ltac split_body H :=
  repeat match type of H with
         | Continue _ _ = Continue _ _ => injection H as <- <-
         | ReturnStatus _ _ = ReturnStatus _ _ => injection H as <- <-
         | Continue _ _ = _ => discriminate H
         | ReturnStatus _ _ = _ => discriminate H
         | Undefined = _ => discriminate H
         | match ?x with _ => _ end = _ => destruct x eqn:?
         | (let (_, _) := ?x in _) = _ => destruct x eqn:?
         end.

Lemma ConvBN_body_guarded g (removed_nodes : list NodeIndex) (idx : NodeIndex) :
  guarded g removed_nodes (ConvBN_body g removed_nodes idx).
Proof.
  destruct (ConvBN_body g removed_nodes idx) as [g' removed'|status g'|] eqn:H;
    unfold ConvFusion.ConvBN_body in H; split_body H; cbn [guarded];
    eauto using rewire_status.
Qed.

Lemma ConvMul_body_guarded g (removed_nodes : list NodeIndex) (idx : NodeIndex) :
  guarded g removed_nodes (ConvMul_body g removed_nodes idx).
Proof.
  destruct (ConvMul_body g removed_nodes idx) as [g' removed'|status g'|] eqn:H;
    unfold ConvFusion.ConvMul_body in H; split_body H; cbn [guarded];
    eauto using rewire_status.
Qed.

(** With guarded bodies the loop ends with an empty list only on the graph
    it started from. *)
Lemma run_loop_guarded (body : Graph F → list NodeIndex → NodeIndex → Step) g :
  (∀ g1 removed_nodes idx, guarded g1 removed_nodes (body g1 removed_nodes idx)) →
  match run_loop body g with
  | Continue g' removed' => removed' = [] → g' = g
  | ReturnStatus status _ => IsOK status = false
  | Undefined => True
  end.
Proof using Type. clear Resolve.
  intros Hbody. unfold run_loop.
  induction (seq 0 (length (nodes g))) as [|idx idxs IH] using rev_ind; [done|].
  rewrite foldl_app. cbn [foldl].
  destruct (foldl _ _ idxs) as [g1 removed1|status g1|]; [|done..].
  specialize (Hbody g1 removed1 idx).
  destruct (body g1 removed1 idx) as [g2 removed2|status g2|]; [|done..].
  cbn [guarded] in Hbody. intros ->.
  destruct Hbody as [[-> <-]|[j Hj]]; [by apply IH|].
  by apply app_cons_not_nil in Hj.
Qed.

(** *** What the loop bodies leave alone *)

Lemma same_wiring_refl g : same_wiring g g.
Proof using Type. clear Resolve.
  split_and!; [done..|]. intros j. destruct (GetNode g j) as [m|]; [|done].
  exists (InputDefs m). by destruct m.
Qed.

Lemma same_wiring_initializers g g1 (inits : gmap string (TensorProto F)) :
  same_wiring g g1 →
  same_wiring g (mkGraph (nodes g1) inits (outputs g1) (node_args g1)).
Proof using Type. clear Resolve. intros (? & ? & ? & Hslots). split_and!; [done..|]. exact Hslots. Qed.

Lemma same_wiring_set_node g g1 (j : NodeIndex) (m : Node F) (defs : list NodeArg) :
  same_wiring g g1 → GetNode g1 j = Some m →
  same_wiring g (set_node g1 j (with_InputDefs m defs)).
Proof using Type. clear Resolve.
  intros (Hout & Hargs & Hlen & Hslots) Hm. split_and!; [done..| |].
  - by rewrite length_nodes_set_node.
  - intros i. specialize (Hslots i). destruct (decide (i = j)) as [->|Hne].
    + rewrite GetNode_set_node_eq by eauto using GetNode_Some_lt.
      rewrite Hm in Hslots. destruct (GetNode g j) as [m0|]; [|done].
      destruct Hslots as [defs0 ->]. by exists defs.
    + by rewrite GetNode_set_node_ne.
Qed.

Lemma same_wiring_rewire g (o c : NodeArg) (edges : list NodeIndex) g1 st g' :
  same_wiring g g1 → rewire g1 o c edges = (st, g') → same_wiring g g'.
Proof using Type. clear Resolve.
  revert g1. induction edges as [|j rest IH]; intros g1 Hg1; cbn [rewire].
  - by intros [= <- <-].
  - destruct (GetNode g1 j) as [m|] eqn:Hm; [|by intros [= <- <-]].
    apply IH. by apply same_wiring_set_node.
Qed.

Local Ltac wiring :=
  repeat first
    [ assumption
    | exact I
    | apply same_wiring_refl
    | eapply same_wiring_rewire; [|eassumption]
    | apply (same_wiring_initializers _ (set_node _ _ _))
    | apply same_wiring_initializers
    | eapply same_wiring_set_node; [|eassumption]
    | match goal with |- same_wiring _ (match ?x with _ => _ end) => destruct x end ].

Lemma ConvBN_body_keeps_wiring g (removed_nodes : list NodeIndex) (idx : NodeIndex) :
  keeps_wiring g (ConvBN_body g removed_nodes idx).
Proof.
  destruct (ConvBN_body g removed_nodes idx) as [g' removed'|status g'|] eqn:H;
    unfold ConvFusion.ConvBN_body in H; split_body H; cbn [keeps_wiring];
    unfold AddInitializedTensor, RemoveInitializedTensor in *; wiring.
Qed.

Lemma ConvMul_body_keeps_wiring g (removed_nodes : list NodeIndex) (idx : NodeIndex) :
  keeps_wiring g (ConvMul_body g removed_nodes idx).
Proof.
  destruct (ConvMul_body g removed_nodes idx) as [g' removed'|status g'|] eqn:H;
    unfold ConvFusion.ConvMul_body in H; split_body H; cbn [keeps_wiring];
    unfold AddInitializedTensor, RemoveInitializedTensor in *; wiring.
Qed.

Lemma same_wiring_trans g1 g2 g3 : same_wiring g1 g2 → same_wiring g2 g3 → same_wiring g1 g3.
Proof using Type. clear Resolve.
  intros (Ho & Ha & Hl & Hs) (Ho' & Ha' & Hl' & Hs'). split_and!; [congruence..|].
  intros j. specialize (Hs j). specialize (Hs' j).
  destruct (GetNode g1 j) as [m1|], (GetNode g2 j) as [m2|], (GetNode g3 j) as [m3|]; try done.
  destruct Hs as [d ->], Hs' as [d' ->]. by exists d'.
Qed.

Lemma run_loop_keeps_wiring (body : Graph F → list NodeIndex → NodeIndex → Step) g :
  (∀ g1 removed_nodes idx, keeps_wiring g1 (body g1 removed_nodes idx)) →
  keeps_wiring g (run_loop body g).
Proof using Type. clear Resolve.
  intros Hbody. unfold run_loop.
  induction (seq 0 (length (nodes g))) as [|idx idxs IH] using rev_ind;
    [apply same_wiring_refl|].
  rewrite foldl_app. cbn [foldl].
  destruct (foldl _ _ idxs) as [g1 removed1|status g1|]; [|done..].
  specialize (Hbody g1 removed1 idx).
  destruct (body g1 removed1 idx) as [g2 removed2|status g2|]; [| |done];
    by eapply same_wiring_trans.
Qed.

(** X20: the loops of [ConvBNFusion::Apply] and [ConvMulFusion::Apply]
    change nothing of a graph but its initializers and the input
    definitions of its nodes: whether they run to the end or return an
    error, the same slots are occupied, by nodes with the same operator,
    outputs, attributes and edges, and the graph outputs are the same.
    The removal loop then empties the slots on the list and no other. *)
Theorem fusion_loops_keep_wiring g :
  loop_keeps_wiring g (run_loop ConvBN_body g) ∧
  loop_keeps_wiring g (run_loop ConvMul_body g).
Proof.
  assert (∀ body, (∀ g1 removed_nodes idx, keeps_wiring g1 (body g1 removed_nodes idx)) →
                  loop_keeps_wiring g (run_loop body g)) as Hloop.
  { intros body Hbody. pose proof (run_loop_keeps_wiring body g Hbody) as Hkeeps.
    destruct (run_loop body g) as [g1 removed1|status g1|]; [|done..].
    split; [done|]. intros j. case_decide.
    - by apply remove_all_removes.
    - by apply remove_all_keeps. }
  split; apply Hloop; [apply ConvBN_body_keeps_wiring|apply ConvMul_body_keeps_wiring].
Qed.

(** X12: the flag [modified] of the two Conv fusions can be trusted: when
    [ConvBNFusion::Apply] or [ConvMulFusion::Apply] is entered with
    [modified] unset and returns OK with [modified] still unset, the graph
    (nodes, initializers, outputs and definitions) is exactly the one it
    was given, whatever [Resolve] does. *)
Theorem Apply_unmodified_keeps_graph g (status : Status) g' :
  ConvBNFusion_Apply g false = Some (status, g', false) ∨
  ConvMulFusion_Apply g false = Some (status, g', false) →
  IsOK status = true →
  g' = g.
Proof.
  assert (∀ body, (∀ g1 removed_nodes idx, guarded g1 removed_nodes (body g1 removed_nodes idx)) →
                  finish Resolve (run_loop body g) false = Some (status, g', false) →
                  IsOK status = true → g' = g) as Hrule.
  { intros body Hbody Hfin Hok. pose proof (run_loop_guarded body g Hbody) as Hloop.
    destruct (run_loop body g) as [g1 removed1|status1 g1|]; cbn [finish] in Hfin.
    - destruct removed1 as [|j removed1].
      + injection Hfin as _ <-. by apply Hloop.
      + by destruct (Resolve _).
    - injection Hfin as <- _. congruence.
    - done. }
  intros [H|H]; [apply (Hrule _ ConvBN_body_guarded H)|apply (Hrule _ ConvMul_body_guarded H)].
Qed.

(** *** The whole of [ConvBNFusion::Apply] on a graph with one pair *)

  Local Abbreviation no_bn_pair := (no_bn_pair kOnnxDomainAlias).

Lemma IsSupported_OpType n (op : string) (version : Z) (domain : string) :
  IsSupportedOptypeVersionAndDomain n op version domain = true → OpType n = op.
Proof using Type. clear Resolve.
  unfold IsSupportedOptypeVersionAndDomain.
  destruct (decide (OpType n = op)) as [Hop|Hop]; [done|].
  by rewrite (bool_decide_eq_true_2 _ Hop).
Qed.

Lemma ConvBN_body_no_pair g (removed_nodes : list NodeIndex) (idx : NodeIndex) :
  (∀ n, GetNode g idx = Some n → no_bn_pair g n) →
  ConvBN_body g removed_nodes idx = Continue g removed_nodes.
Proof using Type. clear Resolve.
  intros Hno. unfold ConvFusion.ConvBN_body.
  destruct (GetNode g idx) as [n|]; [|done].
  destruct (Hno n eq_refl) as [Hop|[Hcount|(j & next & Hedges & Hnext & Htests)]].
  - by rewrite Hop.
  - rewrite (bool_decide_eq_true_2 _ Hcount), orb_true_r. done.
  - destruct (negb _ || bool_decide _); [done|].
    rewrite Hedges. cbn [head mbind option_bind]. rewrite Hnext.
    destruct Htests as [Hop|[Hcount|Hout]].
    + by rewrite Hop.
    + rewrite (bool_decide_eq_true_2 _ Hcount), orb_true_r. done.
    + rewrite Hout, orb_true_r. done.
Qed.

Lemma no_bn_pair_same_wiring g g1 (j : NodeIndex) n n1 :
  same_wiring g g1 → GetNode g j = Some n → GetNode g1 j = Some n1 →
  no_bn_pair g n → no_bn_pair g1 n1.
Proof using Type. clear Resolve.
  intros (Hout & _ & _ & Hslots) Hn Hn1 Hno.
  pose proof (Hslots j) as Hj. rewrite Hn, Hn1 in Hj. destruct Hj as [defs ->].
  destruct Hno as [Hop|[Hcount|(k & next & Hedges & Hnext & Htests)]].
  - by left.
  - right. by left.
  - right. right. pose proof (Hslots k) as Hk. rewrite Hnext in Hk.
    destruct (GetNode g1 k) as [next1|] eqn:Hnext1; [|done]. destruct Hk as [d ->].
    exists k, (with_InputDefs next d). split_and!; [done..|].
    destruct Htests as [Hop|[Hcount|Hgraph]]; [by left|right; by left|].
    right. right. unfold IsNodeOutputsInGraphOutputs in *. by rewrite Hout.
Qed.

(** A loop whose body passes over the listed slots leaves its state alone. *)
Lemma loop_passes_over (body : Graph F → list NodeIndex → NodeIndex → Step) g
    (removed_nodes : list NodeIndex) (slots : list NodeIndex) :
  (∀ j, j ∈ slots → body g removed_nodes j = Continue g removed_nodes) →
  foldl (λ st idx, match st with
                   | Continue g removed_nodes => body g removed_nodes idx
                   | _ => st
                   end) (Continue g removed_nodes) slots
  = Continue g removed_nodes.
Proof using Type. clear Resolve.
  induction slots as [|j slots IH] using rev_ind; intros Hbody; [done|].
  rewrite foldl_app. cbn [foldl]. rewrite IH.
  - apply Hbody, elem_of_app. right. apply list_elem_of_here.
  - intros k Hk. apply Hbody, elem_of_app. by left.
Qed.

End Rules.

(** *** The fusion on a small graph, with integer arithmetic for the elements *)

(** [X -> Conv -> BatchNormalization -> Relu -> Y], Conv without bias. *)
Definition conv_bn_relu : Graph Z :=
  mkGraph
    [Some (mkNode 0 "Conv" "" 1 false ["X"; "W"] ["conv_out"]
                  {["group" := AttrInt 1]} [] [1%nat]);
     Some (mkNode 1 "BatchNormalization" "" 7 false
                  ["conv_out"; "scale"; "bn_B"; "mean"; "var"] ["bn_out"]
                  {["epsilon" := AttrFloat 1%Z]} [0%nat] [2%nat]);
     Some (mkNode 2 "Relu" "" 6 false ["bn_out"] ["Y"] ∅ [1%nat] [])]
    (<["W" := mkTensor "W" [2; 1; 1; 2]%Z FLOAT [1; 2; 3; 4]%Z]>
       (<["scale" := mkTensor "scale" [2%Z] FLOAT [6; 9]%Z]>
          (<["bn_B" := mkTensor "bn_B" [2%Z] FLOAT [1; 1]%Z]>
             (<["mean" := mkTensor "mean" [2%Z] FLOAT [0; 5]%Z]>
                (<["var" := mkTensor "var" [2%Z] FLOAT [8; 8]%Z]> ∅)))))
    ["Y"]
    {["X"; "W"; "conv_out"; "scale"; "bn_B"; "mean"; "var"; "bn_out"; "Y"]}.

Definition Z_ConvBN_body := ConvBN_body Z.add Z.sub Z.mul Z.div Z.sqrt "ai.onnx".
Definition Z_ConvBNFusion_Apply :=
  ConvBNFusion_Apply Z.add Z.sub Z.mul Z.div Z.sqrt (λ g, (Status_OK, g)) "ai.onnx".
Definition Z_ConvMulFusion_Apply :=
  ConvMulFusion_Apply Z.mul (λ g : Graph Z, (Status_OK, g)) "ai.onnx".

(** The whole rule on that graph: the factors are [6 / sqrt 9 = 2] and
    [9 / sqrt 9 = 3]; [W] becomes [[2; 4; 9; 12]], the bias
    [[1 - 0 * 2; 1 - 5 * 3]], Relu reads Conv's output and the slot of
    BatchNormalization is empty. *)
Example ConvBNFusion_Apply_conv_bn_relu :
  Z_ConvBNFusion_Apply conv_bn_relu false
  = Some (Status_OK,
          mkGraph
            [Some (mkNode 0 "Conv" "" 1 false ["X"; "W"; "bn_B"] ["conv_out"]
                          {["group" := AttrInt 1]} [] [1%nat]);
             None;
             Some (mkNode 2 "Relu" "" 6 false ["conv_out"] ["Y"] ∅ [1%nat] [])]
            (<["W" := mkTensor "W" [2; 1; 1; 2]%Z FLOAT [2; 4; 9; 12]%Z]>
               (<["scale" := mkTensor "scale" [2%Z] FLOAT [6; 9]%Z]>
                  (<["bn_B" := mkTensor "bn_B" [2%Z] FLOAT [1; -14]%Z]>
                     (<["mean" := mkTensor "mean" [2%Z] FLOAT [0; 5]%Z]>
                        (<["var" := mkTensor "var" [2%Z] FLOAT [8; 8]%Z]> ∅)))))
            ["Y"]
            {["X"; "W"; "conv_out"; "scale"; "bn_B"; "mean"; "var"; "bn_out"; "Y"]},
          true).
Proof. vm_compute. reflexivity. Qed.

Lemma conv_bn_relu_fusable :
  BNFusable "ai.onnx" conv_bn_relu 0
    (mkNode 0 "Conv" "" 1 false ["X"; "W"] ["conv_out"] {["group" := AttrInt 1]} [] [1%nat])
    (mkNode 1 "BatchNormalization" "" 7 false
            ["conv_out"; "scale"; "bn_B"; "mean"; "var"] ["bn_out"]
            {["epsilon" := AttrFloat 1%Z]} [0%nat] [2%nat])
    1%Z
    (mkTensor "W" [2; 1; 1; 2]%Z FLOAT [1; 2; 3; 4]%Z)
    (mkTensor "scale" [2%Z] FLOAT [6; 9]%Z)
    (mkTensor "bn_B" [2%Z] FLOAT [1; 1]%Z)
    (mkTensor "mean" [2%Z] FLOAT [0; 5]%Z)
    (mkTensor "var" [2%Z] FLOAT [8; 8]%Z)
    None "bn_out" "conv_out".
Proof.
  constructor; try reflexivity.
  - exists (AttrInt 1). split; [reflexivity|]. intros i Hi. by injection Hi as <-.
  - by exists "conv_out", [].
  - by exists "X".
  - discriminate.
  - by left.
  - done.
  - exists 2%Z, [1; 1; 2]%Z. cbn. split_and!; (reflexivity || lia).
  - intros j Hj. cbn in Hj. apply list_elem_of_singleton in Hj as ->.
    split; [by eexists|done].
Defined.

Lemma conv_bn_relu_lone_pair (j : NodeIndex) n :
  j ≠ 0%nat → GetNode conv_bn_relu j = Some n → no_bn_pair "ai.onnx" conv_bn_relu n.
Proof.
  destruct j as [|[|[|j]]]; [done|..]; cbn; intros _ [= <-]; by left.
Defined.


(** Two Conv nodes that share the weight [W], each followed by its
    BatchNormalization: [X -> Conv -> BN -> Conv -> BN -> Relu -> Y]. *)
Definition shared_weight : Graph Z :=
  mkGraph
    [Some (mkNode 0 "Conv" "" 1 false ["X"; "W"] ["conv1_out"]
                  {["group" := AttrInt 1]} [] [1%nat]);
     Some (mkNode 1 "BatchNormalization" "" 7 false
                  ["conv1_out"; "scale1"; "B1"; "mean1"; "var1"] ["bn1_out"]
                  {["epsilon" := AttrFloat 1%Z]} [0%nat] [2%nat]);
     Some (mkNode 2 "Conv" "" 1 false ["bn1_out"; "W"] ["conv2_out"]
                  {["group" := AttrInt 1]} [1%nat] [3%nat]);
     Some (mkNode 3 "BatchNormalization" "" 7 false
                  ["conv2_out"; "scale2"; "B2"; "mean2"; "var2"] ["bn2_out"]
                  {["epsilon" := AttrFloat 1%Z]} [2%nat] [4%nat]);
     Some (mkNode 4 "Relu" "" 6 false ["bn2_out"] ["Y"] ∅ [3%nat] [])]
    (<["W" := mkTensor "W" [2; 1; 1; 2]%Z FLOAT [1; 2; 3; 4]%Z]>
       (<["scale1" := mkTensor "scale1" [2%Z] FLOAT [6; 9]%Z]>
          (<["B1" := mkTensor "B1" [2%Z] FLOAT [1; 1]%Z]>
             (<["mean1" := mkTensor "mean1" [2%Z] FLOAT [0; 5]%Z]>
                (<["var1" := mkTensor "var1" [2%Z] FLOAT [8; 8]%Z]>
                   (<["scale2" := mkTensor "scale2" [2%Z] FLOAT [30; 30]%Z]>
                      (<["B2" := mkTensor "B2" [2%Z] FLOAT [0; 0]%Z]>
                         (<["mean2" := mkTensor "mean2" [2%Z] FLOAT [0; 0]%Z]>
                            (<["var2" := mkTensor "var2" [2%Z] FLOAT [8; 8]%Z]> ∅)))))))))
    ["Y"]
    {["X"; "W"; "conv1_out"; "scale1"; "B1"; "mean1"; "var1"; "bn1_out";
      "conv2_out"; "scale2"; "B2"; "mean2"; "var2"; "bn2_out"; "Y"]}.


(** Without a [group] attribute on Conv, which ONNX lets a model leave
    out, the rule dereferences [find("group")] at [end()]: undefined
    behaviour. *)
Example ConvBNFusion_Apply_without_group :
  Z_ConvBNFusion_Apply
    (mkGraph
       [Some (mkNode 0 "Conv" "" 1 false ["X"; "W"] ["conv_out"] ∅ [] [1%nat]);
        Some (mkNode 1 "BatchNormalization" "" 7 false
                     ["conv_out"; "scale"; "bn_B"; "mean"; "var"] ["bn_out"]
                     {["epsilon" := AttrFloat 1%Z]} [0%nat] [2%nat]);
        Some (mkNode 2 "Relu" "" 6 false ["bn_out"] ["Y"] ∅ [1%nat] [])]
       (initializers conv_bn_relu) ["Y"] (node_args conv_bn_relu))
    false
  = None.
Proof. vm_compute. reflexivity. Qed.

(** Conv with a bias [[10; 20]]: the bias becomes [(b - mean) * s + B]. *)
Definition conv_bias_bn_relu : Graph Z :=
  mkGraph
    [Some (mkNode 0 "Conv" "" 1 false ["X"; "W"; "conv_B"] ["conv_out"]
                  {["group" := AttrInt 1]} [] [1%nat]);
     Some (mkNode 1 "BatchNormalization" "" 7 false
                  ["conv_out"; "scale"; "bn_B"; "mean"; "var"] ["bn_out"]
                  {["epsilon" := AttrFloat 1%Z]} [0%nat] [2%nat]);
     Some (mkNode 2 "Relu" "" 6 false ["bn_out"] ["Y"] ∅ [1%nat] [])]
    (<["W" := mkTensor "W" [2; 1; 1; 2]%Z FLOAT [1; 2; 3; 4]%Z]>
       (<["conv_B" := mkTensor "conv_B" [2%Z] FLOAT [10; 20]%Z]>
          (<["scale" := mkTensor "scale" [2%Z] FLOAT [6; 9]%Z]>
             (<["bn_B" := mkTensor "bn_B" [2%Z] FLOAT [1; 1]%Z]>
                (<["mean" := mkTensor "mean" [2%Z] FLOAT [0; 5]%Z]>
                   (<["var" := mkTensor "var" [2%Z] FLOAT [8; 8]%Z]> ∅))))))
    ["Y"]
    {["X"; "W"; "conv_B"; "conv_out"; "scale"; "bn_B"; "mean"; "var"; "bn_out"; "Y"]}.

Example ConvBNFusion_Apply_with_bias :
  (λ r, (r.1.1, data <$> initializers r.1.2 !! "W", data <$> initializers r.1.2 !! "conv_B",
         InputDefs <$> GetNode r.1.2 0%nat, InputDefs <$> GetNode r.1.2 2%nat,
         GetNode r.1.2 1%nat))
    <$> Z_ConvBNFusion_Apply conv_bias_bn_relu false
  = Some (Status_OK, Some [2; 4; 9; 12]%Z, Some [(10 - 0) * 2 + 1; (20 - 5) * 3 + 1]%Z,
          Some ["X"; "W"; "conv_B"], Some ["conv_out"], None).
Proof. vm_compute. reflexivity. Qed.

(** The same graph with the output of BatchNormalization as a graph output. *)
Definition conv_bn_output : Graph Z :=
  mkGraph (nodes conv_bn_relu) (initializers conv_bn_relu) ["bn_out"; "Y"]
          (node_args conv_bn_relu).

Lemma conv_bn_output_passed_over (idx : NodeIndex) n :
  GetNode conv_bn_output idx = Some n → passed_over conv_bn_output n.
Proof.
  destruct idx as [|[|[|idx]]]; cbn; intros [= <-].
  - right. eexists 1%nat, _. split_and!; reflexivity.
  - right. eexists 2%nat, _. split_and!; reflexivity.
  - left. cbn. lia.
Defined.

Lemma fusions_pass_over_witness :
  Z_ConvBN_body conv_bn_output [] 0%nat = Continue conv_bn_output [] ∧
  Z_ConvBNFusion_Apply conv_bn_output false = Some (Status_OK, conv_bn_output, false) ∧
  Z_ConvMulFusion_Apply conv_bn_output false = Some (Status_OK, conv_bn_output, false).
Proof.
  destruct (fusions_pass_over Z.add Z.sub Z.mul Z.div Z.sqrt (λ g, (Status_OK, g)) "ai.onnx"
              conv_bn_output false) as [Hbody Hrule].
  split.
  - eapply Hbody; [reflexivity|]. by apply (conv_bn_output_passed_over 0%nat).
  - apply Hrule. exact conv_bn_output_passed_over.
Defined.

Lemma Apply_unmodified_keeps_graph_witness :
  ∃ status g',
    Z_ConvBNFusion_Apply conv_bn_output false = Some (status, g', false) ∧
    IsOK status = true ∧ g' = conv_bn_output.
Proof.
  exists Status_OK, conv_bn_output. split; [reflexivity|]. split; [reflexivity|].
  apply (Apply_unmodified_keeps_graph Z.add Z.sub Z.mul Z.div Z.sqrt (λ g, (Status_OK, g))
           "ai.onnx" conv_bn_output Status_OK conv_bn_output);
    [left; reflexivity|reflexivity].
Defined.

(** [X -> Conv -> Mul -> Relu -> Y], Conv with a bias and one factor per
    output channel. *)
Definition conv_mul_relu : Graph Z :=
  mkGraph
    [Some (mkNode 0 "Conv" "" 1 false ["X"; "W"; "conv_B"] ["conv_out"]
                  {["group" := AttrInt 1]} [] [1%nat]);
     Some (mkNode 1 "Mul" "" 7 false ["conv_out"; "mul_B"] ["mul_out"] ∅ [0%nat] [2%nat]);
     Some (mkNode 2 "Relu" "" 6 false ["mul_out"] ["Y"] ∅ [1%nat] [])]
    (<["W" := mkTensor "W" [2; 1; 1; 2]%Z FLOAT [1; 2; 3; 4]%Z]>
       (<["conv_B" := mkTensor "conv_B" [2%Z] FLOAT [5; 7]%Z]>
          (<["mul_B" := mkTensor "mul_B" [2; 1; 1]%Z FLOAT [10; 100]%Z]> ∅)))
    ["Y"]
    {["X"; "W"; "conv_B"; "conv_out"; "mul_B"; "mul_out"; "Y"]}.

Definition Z_ConvMul_body := ConvMul_body Z.mul "ai.onnx".

Lemma conv_mul_relu_fusable :
  MulFusable "ai.onnx" conv_mul_relu 0
    (mkNode 0 "Conv" "" 1 false ["X"; "W"; "conv_B"] ["conv_out"]
            {["group" := AttrInt 1]} [] [1%nat])
    (mkNode 1 "Mul" "" 7 false ["conv_out"; "mul_B"] ["mul_out"] ∅ [0%nat] [2%nat])
    (mkTensor "W" [2; 1; 1; 2]%Z FLOAT [1; 2; 3; 4]%Z)
    (mkTensor "mul_B" [2; 1; 1]%Z FLOAT [10; 100]%Z)
    (Some (mkTensor "conv_B" [2%Z] FLOAT [5; 7]%Z))
    "mul_out" "conv_out".
Proof.
  constructor; try reflexivity.
  - by exists "conv_out", [].
  - by exists "X".
  - intros b [= <-]. split_and!; reflexivity.
  - by left.
  - right. by exists 2%Z.
  - intros j Hj. cbn in Hj. apply list_elem_of_singleton in Hj as ->.
    split; [by eexists|done].
Defined.

Lemma ConvMul_body_fuses_witness :
  ∃ g' W' b',
    Z_ConvMul_body conv_mul_relu [] 0%nat = Continue g' [1%nat] ∧
    initializers g' !! "W" = Some W' ∧
    data W' !! 3%nat = Some (4 * 100)%Z ∧
    initializers g' !! "conv_B" = Some b' ∧
    data b' !! 1%nat = Some (7 * 100)%Z ∧
    InputDefs <$> GetNode g' 2%nat = Some ["conv_out"] ∧
    GetNode (remove_all g' [1%nat]) 1%nat = None.
Proof.
  destruct (ConvMul_body_fuses Z.mul "ai.onnx" conv_mul_relu [] 0%nat
              _ _ _ _ _ _ _ conv_mul_relu_fusable)
    as (g' & W' & Hbody & HW' & _ & _ & _ & Hweights & Hbias & _ & Hconsumers & Hremoved).
  destruct (Hbias _ eq_refl) as (b' & Hb' & _ & _ & Hentries).
  exists g', W', b'. split; [exact Hbody|]. split; [exact HW'|].
  split; [exact (Hweights 1%nat 1%nat 4%Z 100%Z eq_refl eq_refl eq_refl)|].
  split; [exact Hb'|].
  split; [exact (Hentries 1%nat 7%Z 100%Z eq_refl eq_refl)|].
  split.
  - destruct (Hconsumers 2%nat _ (list_elem_of_here _ _) eq_refl) as (m' & -> & Hm').
    cbn. by rewrite Hm'.
  - apply Hremoved, list_elem_of_here.
Defined.

(** The whole rule on that graph. *)
Example ConvMulFusion_Apply_conv_mul_relu :
  Z_ConvMulFusion_Apply conv_mul_relu false
  = Some (Status_OK,
          mkGraph
            [Some (mkNode 0 "Conv" "" 1 false ["X"; "W"; "conv_B"] ["conv_out"]
                          {["group" := AttrInt 1]} [] [1%nat]);
             None;
             Some (mkNode 2 "Relu" "" 6 false ["conv_out"] ["Y"] ∅ [1%nat] [])]
            (<["W" := mkTensor "W" [2; 1; 1; 2]%Z FLOAT [10; 20; 300; 400]%Z]>
               (<["conv_B" := mkTensor "conv_B" [2%Z] FLOAT [50; 700]%Z]>
                  (<["mul_B" := mkTensor "mul_B" [2; 1; 1]%Z FLOAT [10; 100]%Z]> ∅)))
            ["Y"]
            {["X"; "W"; "conv_B"; "conv_out"; "mul_B"; "mul_out"; "Y"]},
          true).
Proof. vm_compute. reflexivity. Qed.

(** *** The scenario of the specification, in binary64 arithmetic *)

(** A 1x1 Conv with [W = [[1.0]]] and no bias, followed by
    BatchNormalization with [scale = 2], [B = 1], [mean = 0], [var = 3],
    [epsilon = 1e-5]. *)
Definition ratio (n d : Z) : PrimFloat.float :=
  PrimFloat.div (PrimFloat.of_uint63 (Uint63.of_Z n)) (PrimFloat.of_uint63 (Uint63.of_Z d)).

Definition float_conv_bn : Graph PrimFloat.float :=
  mkGraph
    [Some (mkNode 0 "Conv" "" 1 false ["X"; "W"] ["conv_out"]
                  {["group" := AttrInt 1]} [] [1%nat]);
     Some (mkNode 1 "BatchNormalization" "" 7 false
                  ["conv_out"; "scale"; "bn_B"; "mean"; "var"] ["bn_out"]
                  {["epsilon" := AttrFloat (ratio 1 100000)]} [0%nat] [2%nat]);
     Some (mkNode 2 "Relu" "" 6 false ["bn_out"] ["Y"] ∅ [1%nat] [])]
    (<["W" := mkTensor "W" [1; 1; 1; 1]%Z FLOAT [ratio 1 1]]>
       (<["scale" := mkTensor "scale" [1%Z] FLOAT [ratio 2 1]]>
          (<["bn_B" := mkTensor "bn_B" [1%Z] FLOAT [ratio 1 1]]>
             (<["mean" := mkTensor "mean" [1%Z] FLOAT [ratio 0 1]]>
                (<["var" := mkTensor "var" [1%Z] FLOAT [ratio 3 1]]> ∅)))))
    ["Y"]
    {["X"; "W"; "conv_out"; "scale"; "bn_B"; "mean"; "var"; "bn_out"; "Y"]}.

Definition float_ConvBNFusion_Apply :=
  ConvBNFusion_Apply PrimFloat.add PrimFloat.sub PrimFloat.mul PrimFloat.div PrimFloat.sqrt
                     (λ g, (Status_OK, g)) "ai.onnx".

Definition between (lo hi v : PrimFloat.float) : bool := PrimFloat.ltb lo v && PrimFloat.ltb v hi.

(** After the fusion the weight lies within [1.15469 .. 1.15471] and the
    bias is [1.0]; BatchNormalization is gone. *)
Example float_conv_bn_fused :
  (λ r, (r.1.1,
         forallb (between (ratio 115469 100000) (ratio 115471 100000))
           <$> (data <$> initializers r.1.2 !! "W"),
         data <$> initializers r.1.2 !! "bn_B",
         InputDefs <$> GetNode r.1.2 0%nat,
         GetNode r.1.2 1%nat))
    <$> float_ConvBNFusion_Apply float_conv_bn false
  = Some (Status_OK, Some true, Some [ratio 1 1], Some ["X"; "W"; "bn_B"], None).
Proof. vm_compute. reflexivity. Qed.
End ConvFusionFacts.

(** ** The helper of the transformation tests *)

Module GraphTransformTestFacts.
  Import GraphModel GraphTransformTest.
Section Helper.
  Context {F : Type}.
  Implicit Types (graph : Graph F) (node : Node F).

Lemma count_fold (l : list (Node F)) :
  (Z.of_nat (length l) ≤ INT_MAX)%Z →
  ∃ op_to_count,
    foldl (λ acc node, acc ≫= λ op_to_count, count_op op_to_count node) (Some ∅) l
    = Some op_to_count ∧
    ∀ op, op_to_count !! op
          = (let c := length (filter (λ node, OpType node = op) l) in
             if decide (c = 0%nat) then None else Some (Z.of_nat c)).
Proof.
  induction l as [|node l IH] using rev_ind; intros Hlen.
  - exists ∅. split; [done|]. intros op. cbn. apply lookup_empty.
  - rewrite length_app in Hlen. cbn [length] in Hlen.
    destruct IH as (m & Hfold & Hm); [lia|].
    rewrite foldl_app. cbn [foldl]. rewrite Hfold. cbn [mbind option_bind].
    assert (∀ op, length (filter (λ node, OpType node = op) l) ≤ length l)%nat as Hle
      by (intros op; apply length_filter).
    unfold count_op. rewrite Hm. cbn zeta.
    set (c := length (filter (λ n, OpType n = OpType node) l)).
    assert (∀ op, length (filter (λ n, OpType n = op) (l ++ [node]))
                  = (length (filter (λ n, OpType n = op) l)
                     + if decide (OpType node = op) then 1 else 0)%nat) as Hcount.
    { intros op. rewrite filter_app, length_app. f_equal.
      rewrite filter_cons, filter_nil. by case_decide. }
    pose proof (Hle (OpType node)) as Hc. fold c in Hc.
    destruct (decide (c = 0%nat)) as [H0|Hpos].
    + eexists. split; [reflexivity|]. intros op. rewrite Hcount. cbn zeta.
      destruct (decide (OpType node = op)) as [<-|Hop].
      * rewrite lookup_insert_eq. fold c. rewrite H0. done.
      * rewrite lookup_insert_ne by done. rewrite Hm. cbn zeta. by rewrite Nat.add_0_r.
    + rewrite decide_True by lia.
      eexists. split; [reflexivity|]. intros op. rewrite Hcount. cbn zeta.
      destruct (decide (OpType node = op)) as [<-|Hop].
      * rewrite lookup_insert_eq. fold c. rewrite decide_False by lia. f_equal. lia.
      * rewrite lookup_insert_ne by done. rewrite Hm. cbn zeta. by rewrite Nat.add_0_r.
Qed.

(** X15: for a graph with at most [INT_MAX] nodes, [CountOpsInGraph]
    returns a map that holds, for every operator type that occurs in the
    graph, the number of nodes of that type, and has no entry for the
    other operator types. *)
Theorem CountOpsInGraph_counts graph :
  (Z.of_nat (length (Nodes graph)) ≤ INT_MAX)%Z →
  ∃ op_to_count,
    CountOpsInGraph graph = Some op_to_count ∧
    ∀ op, op_to_count !! op
          = if decide (occurrences graph op = 0%nat) then None
            else Some (Z.of_nat (occurrences graph op)).
Proof. intros Hlen. by apply count_fold. Qed.
End Helper.

Lemma CountOpsInGraph_counts_witness :
  ∃ op_to_count,
    CountOpsInGraph ConvFusionFacts.conv_bn_relu = Some op_to_count ∧
    op_to_count !! "Conv" = Some 1%Z ∧ op_to_count !! "Slice" = None.
Proof.
  destruct (CountOpsInGraph_counts ConvFusionFacts.conv_bn_relu) as (m & Hm & Hcount).
  { vm_compute. discriminate. }
  exists m. split; [exact Hm|]. split; rewrite Hcount; reflexivity.
Defined.
End GraphTransformTestFacts.
